(** * Jupiter RAG engine: a shallow embedding of [utils/rag_engine.py]

    The development follows the source file top to bottom: the chunker
    ([_chunk_content]), the knowledge-base build ([build_knowledge_base]),
    the retriever ([retrieve_context]), the context budgeter
    ([_truncate_context]), the answer generator ([generate_response]) and
    the orchestrator ([ask_question]).

    Modelling conventions.
    - A Python [str] is a list of characters ([text]); characters are code
      points below 256.  Chunk identifiers, which are dictionary keys of the
      vector store, are [string]s.
    - Python [int] indices are [Z]; slices follow Python's rules for
      negative and out-of-range bounds.
    - Python [float] scores (distances, similarities, thresholds, times) are
      exact rationals ([Q]); [0.1], [0.3], [0.8] and [1.5] stand for the
      rationals they denote.
    - External services (the vector store, the tokenizer, the language
      model, the conversation log, the clock) are oracles passed as
      arguments; a raised exception is an explicit outcome. *)

From Stdlib Require Import QArith Qminmax Lqa ZArith Ascii String List Lia.
From stdpp Require Import base list strings gmap pretty.

Local Open Scope Z_scope.

Abbreviation text := (list ascii).

(** A string literal as a Python [str]. *)
Definition txt (s : string) : text := list_ascii_of_string s.

(** ** Python string primitives *)

Module Py.

(** [str.isspace] on one character, for code points below 256. *)
Definition isspace (c : ascii) : bool :=
  let n := nat_of_ascii c in
  ((9 <=? n)%nat && (n <=? 13)%nat)
  || ((28 <=? n)%nat && (n <=? 32)%nat)
  || (n =? 133)%nat || (n =? 160)%nat.

Fixpoint lstrip (s : text) : text :=
  match s with
  | c :: s' => if isspace c then lstrip s' else s
  | [] => []
  end.

Definition rstrip (s : text) : text := reverse (lstrip (reverse s)).

(** [s.strip()] *)
Definition strip (s : text) : text := rstrip (lstrip s).

(** How Python normalises one bound of a slice of a sequence of length
    [len]: a negative bound counts from the end, and the result is
    clamped to [0 .. len]. *)
Definition slice_bound (len i : Z) : Z :=
  if i <? 0 then Z.max 0 (i + len) else Z.min i len.

(** [s[a:b]] *)
Definition slice {A} (s : list A) (a b : Z) : list A :=
  let len := Z.of_nat (length s) in
  let a' := slice_bound len a in
  let b' := slice_bound len b in
  take (Z.to_nat (b' - a')) (drop (Z.to_nat a') s).

(** [len(s)] *)
Definition len {A} (s : list A) : Z := Z.of_nat (length s).

(** [sep.join(parts)] *)
Fixpoint join (sep : text) (parts : list text) : text :=
  match parts with
  | [] => []
  | [p] => p
  | p :: rest => p ++ sep ++ join sep rest
  end.

(** [s.startswith(p)] *)
Fixpoint startswith (p s : text) : bool :=
  match p, s with
  | [], _ => true
  | _ :: _, [] => false
  | a :: p', b :: s' => bool_decide (a = b) && startswith p' s'
  end.

(** The scan of [s.split(sep)] for a non-empty [sep]: [cur] holds the
    characters of the current piece in reverse, [skip] the number of
    characters of a separator just matched that are still to be passed
    over.  Occurrences are taken left to right and do not overlap. *)
Fixpoint split_go (sep : text) (skip : nat) (cur : text) (s : text)
  : list text :=
  match s with
  | [] => [reverse cur]
  | c :: s' =>
      match skip with
      | S k => split_go sep k cur s'
      | O =>
          if startswith sep s
          then reverse cur :: split_go sep (length sep - 1) [] s'
          else split_go sep 0%nat (c :: cur) s'
      end
  end.

(** [s.split(sep)], [sep] non-empty (Python raises on an empty one). *)
Definition split (sep : text) (s : text) : list text :=
  split_go sep 0%nat [] s.

End Py.

(** ** Configuration ([utils/config.py]) *)

Record Config := {
  CHUNK_SIZE : Z;
  CHUNK_OVERLAP : Z;
  MAX_RETRIEVED_DOCS : nat;
  SIMILARITY_THRESHOLD : Q;
  MAX_TOKENS : Z
}.

(** The values of the class attributes of [Config]. *)
Definition Config_values : Config := {|
  CHUNK_SIZE := 1000;
  CHUNK_OVERLAP := 200;
  MAX_RETRIEVED_DOCS := 5;
  SIMILARITY_THRESHOLD := 3 # 10;
  MAX_TOKENS := 1000
|}.

(** ** Chunker: [_chunk_content] *)

Module Chunker.

Definition newline : ascii := ascii_of_nat 10.

(** The list [['. ', '! ', '? ', '.\n']]. *)
Definition sentence_ends : list text :=
  [txt ". "; txt "! "; txt "? "; ["."%char; newline]].

(** [content[i:i+2] in ['. ', '! ', '? ', '.\n']] *)
Definition is_boundary (content : text) (i : Z) : bool :=
  bool_decide (Py.slice content i (i + 2) ∈ sentence_ends).

(** The [for i in range(e, bound, -1)] loop: [n] positions [i], [i-1], ...
    are examined; the first one that is a boundary yields [end = i + 1]. *)
Fixpoint search_back (content : text) (i : Z) (n : nat) : option Z :=
  match n with
  | O => None
  | S n' =>
      if is_boundary content i then Some (i + 1)
      else search_back content (i - 1) n'
  end.

(** The lower, exclusive end of the range searched for a boundary. *)
Definition search_bound (cfg : Config) (start : Z) : Z :=
  Z.max (start + CHUNK_SIZE cfg - 200) (start + CHUNK_SIZE cfg / 2).

(** The value of [end] when the chunk starting at [start] is sliced. *)
Definition cut_point (cfg : Config) (content : text) (start : Z) : Z :=
  let e := start + CHUNK_SIZE cfg in
  if e <? Py.len content then
    match search_back content e (Z.to_nat (e - search_bound cfg start)) with
    | Some e' => e'
    | None => e
    end
  else e.

(** [if chunk and len(chunk) > 100: chunks.append(chunk)] *)
Definition keep_chunk (chunk : text) (chunks : list text) : list text :=
  if negb (bool_decide (chunk = [])) && (100 <? Py.len chunk)
  then chunks ++ [chunk] else chunks.

(** The [while start < len(content)] loop.  [None] when the fuel is
    exhausted, which stands for a loop that does not terminate. *)
Fixpoint chunk_loop (cfg : Config) (content : text) (fuel : nat)
    (start : Z) (chunks : list text) : option (list text) :=
  match fuel with
  | O => None
  | S fuel' =>
      if start <? Py.len content then
        let e := cut_point cfg content start in
        let chunk := Py.strip (Py.slice content start e) in
        let chunks' := keep_chunk chunk chunks in
        let start' := e - CHUNK_OVERLAP cfg in
        if Py.len content <=? start' then Some chunks'
        else chunk_loop cfg content fuel' start' chunks'
      else Some chunks
  end.

Definition _chunk_content (cfg : Config) (content : text)
  : option (list text) :=
  if Py.len content <=? CHUNK_SIZE cfg then Some [content]
  else chunk_loop cfg content (S (length content)) 0 [].

End Chunker.

(** ** Knowledge store and knowledge-base build: [build_knowledge_base] *)

(** A value stored in a metadata dictionary. *)
Inductive MValue :=
  | MText (t : text)
  | MInt (n : Z).

Global Instance MValue_eq_dec : EqDecision MValue.
Proof. solve_decision. Defined.

(** [str(v)], as an f-string renders a metadata value. *)
Definition MValue_str (v : MValue) : text :=
  match v with
  | MText t => t
  | MInt n => txt (pretty n)
  end.

(** A metadata dictionary. *)
Abbreviation Metadata := (gmap string MValue).

Module KnowledgeBase.

(** One scraped page; a field is [None] when the key is absent. *)
Record Document := {
  doc_content : option text;
  doc_url : option text;
  doc_title : option text;
  doc_category : option text;
  doc_keywords : option (list text)
}.

(** One row handed to [collection.add]: the three parallel lists
    [all_ids], [all_chunks] and [all_metadatas] grow in lockstep and are
    kept here as one list of rows. *)
Record Entry := {
  entry_id : string;
  entry_chunk : text;
  entry_metadata : Metadata
}.

(** The collection: rows keyed by id. *)
Abbreviation Store := (gmap string (text * Metadata)).

(** [f"doc_{doc_idx}_chunk_{chunk_idx}"] *)
Definition chunk_id (doc_idx chunk_idx : nat) : string :=
  "doc_" +:+ pretty doc_idx +:+ "_chunk_" +:+ pretty chunk_idx.

Definition chunk_metadata (doc : Document) (doc_idx chunk_idx total : nat)
  : Metadata :=
  <["source_url" := MText (default [] (doc_url doc))]>
  (<["title" := MText (default (txt "Untitled") (doc_title doc))]>
  (<["category" := MText (default (txt "general") (doc_category doc))]>
  (<["chunk_index" := MInt (Z.of_nat chunk_idx)]>
  (<["total_chunks" := MInt (Z.of_nat total)]>
  (<["keywords" := MText (Py.join (txt ",") (default [] (doc_keywords doc)))]>
  (<["doc_index" := MInt (Z.of_nat doc_idx)]> ∅)))))).

(** The rows of one document: the body of the [enumerate(scraped_data)]
    loop.  [None] only when the chunker does not terminate. *)
Definition doc_entries (cfg : Config) (doc_idx : nat) (doc : Document)
  : option (list Entry) :=
  let content := default [] (doc_content doc) in
  if bool_decide (content = []) || (Py.len content <? 150) then Some []
  else
    match Chunker._chunk_content cfg content with
    | None => None
    | Some chunks =>
        Some (imap (fun chunk_idx chunk =>
                {| entry_id := chunk_id doc_idx chunk_idx;
                   entry_chunk := chunk;
                   entry_metadata :=
                     chunk_metadata doc doc_idx chunk_idx (length chunks) |})
              chunks)
    end.

(** The rows of all documents, [doc_idx] being the index of the first. *)
Fixpoint all_entries (cfg : Config) (doc_idx : nat) (docs : list Document)
  : option (list Entry) :=
  match docs with
  | [] => Some []
  | doc :: rest =>
      match doc_entries cfg doc_idx doc, all_entries cfg (S doc_idx) rest with
      | Some es, Some es' => Some (es ++ es')
      | _, _ => None
      end
  end.

(** What the vector store does with a row whose id it already holds.  The
    store is an external library; the development covers both behaviours
    of a store keyed by id. *)
Inductive OnExisting :=
  | KeepStored      (* the new row is ignored *)
  | Overwrite.      (* the new row replaces the stored one *)

Definition put_row (pol : OnExisting) (s : Store) (e : Entry) : Store :=
  match pol, s !! entry_id e with
  | KeepStored, Some _ => s
  | _, _ => <[entry_id e := (entry_chunk e, entry_metadata e)]> s
  end.

(** The effect of a [collection.add(documents, metadatas, ids)] that
    does not raise. *)
Definition collection_add (pol : OnExisting) (batch : list Entry) (s : Store)
  : Store :=
  foldl (put_row pol) s batch.

Definition batch_size : nat := 50.

(** [(len(all_chunks) + batch_size - 1) // batch_size] *)
Definition total_batches (n : nat) : nat := (n + batch_size - 1) / batch_size.

(** [range(0, len(all_chunks), batch_size)] *)
Definition batch_starts (n : nat) : list nat :=
  map (fun k => (batch_size * k)%nat) (seq 0 (total_batches n)).

(** What the build prints about a batch. *)
Inductive Event :=
  | Added (batch_num total : nat)
  | ErrorAdding (batch_num : nat).

(** State of the insertion loop.  [batch_num] is the local variable of
    that name: it is assigned only after a successful [collection.add],
    so it is unbound ([None]) until the first batch that succeeds. *)
Record LoopState := {
  store : Store;
  batch_num : option nat;
  log : list Event
}.

(** The [for i in range(0, len(all_chunks), batch_size)] loop.  [fails k]
    tells whether [collection.add] raises for the batch of index [k]
    (embedding failure, I/O).  The result is [inr] when
    the loop runs to its end and [inl] when an exception leaves it: the
    handler reads [batch_num], which raises [UnboundLocalError] while the
    variable is unbound. *)
Fixpoint add_batches (pol : OnExisting) (fails : nat -> bool)
    (all : list Entry) (starts : list nat) (st : LoopState)
  : LoopState + LoopState :=
  match starts with
  | [] => inr st
  | i :: rest =>
      let batch := Py.slice all (Z.of_nat i) (Z.of_nat (i + batch_size)) in
      let added :=
        if fails (i / batch_size)%nat then None
        else Some (collection_add pol batch (store st)) in
      match added with
      | Some s' =>
          let bn := (i / batch_size + 1)%nat in
          add_batches pol fails all rest
            {| store := s'; batch_num := Some bn;
               log := log st ++ [Added bn (total_batches (length all))] |}
      | None =>
          match batch_num st with
          | Some bn =>
              add_batches pol fails all rest
                {| store := store st; batch_num := Some bn;
                   log := log st ++ [ErrorAdding bn] |}
          | None => inl st
          end
      end
  end.

(** [build_knowledge_base(scraped_data)] with no progress callback, run
    on the store [s].  The result is the store left behind, the messages
    about batches and the returned boolean; [None] only when the chunker
    does not terminate.  [save_scraped_data_to_db] catches its own errors
    and its result is ignored, so it does not appear. *)
Definition build_knowledge_base (cfg : Config) (pol : OnExisting)
    (fails : nat -> bool) (scraped_data : list Document) (s : Store)
  : option (Store * list Event * bool) :=
  match scraped_data with
  | [] => Some (s, [], false)
  | _ =>
      match all_entries cfg 0 scraped_data with
      | None => None
      | Some all =>
          let st0 := {| store := s; batch_num := None; log := [] |} in
          match add_batches pol fails all (batch_starts (length all)) st0 with
          | inr st => Some (store st, log st, true)
          | inl st => Some (store st, log st, false)
          end
      end
  end.

End KnowledgeBase.

(** ** Retriever: [retrieve_context] *)

Module Retriever.

(** [results['documents'][0]], [results['metadatas'][0]] and
    [results['distances'][0]]; a key that is missing or empty is the
    empty list, as the source reads it.  Every row the build stores has a
    metadata dictionary, so the metadata of a returned document is a
    dictionary. *)
Record QueryResults := {
  documents : list text;
  metadatas : list Metadata;
  distances : list Q
}.

(** What the collection answers to one query. *)
Inductive StoreAnswer :=
  | NoCollection                    (* [not self.collection or count() == 0] *)
  | QueryError                      (* [collection.query] raises *)
  | Results (r : QueryResults).

Record DocInfo := {
  content : text;
  metadata : Metadata;
  similarity_score : Q;
  source_url : MValue;
  title : MValue
}.

Definition DEFAULT_SIMILARITY_THRESHOLD : Q := 3 # 10.

(** [max(0, 1 - (distance / 1.5))] *)
Definition similarity (distance : Q) : Q :=
  let x := (1 - distance / (15 # 10))%Q in
  if Qle_bool x 0 then 0%Q else x.

(** The threshold in force after the check [if threshold > 0.8]. *)
Definition effective_threshold (cfg : Config) : Q :=
  if Qle_bool (SIMILARITY_THRESHOLD cfg) (8 # 10)
  then SIMILARITY_THRESHOLD cfg
  else DEFAULT_SIMILARITY_THRESHOLD.

(** [distances[i] if i < len(distances) else 1.0] *)
Definition distance_at (r : QueryResults) (i : nat) : Q :=
  default 1%Q (distances r !! i).

(** [metadatas[i] if i < len(metadatas) else {}] *)
Definition metadata_at (r : QueryResults) (i : nat) : Metadata :=
  default ∅ (metadatas r !! i).

Definition doc_info (r : QueryResults) (i : nat) (document : text) : DocInfo :=
  let md := metadata_at r i in
  {| content := document;
     metadata := md;
     similarity_score := similarity (distance_at r i);
     source_url := default (MText []) (md !! "source_url");
     title := default (MText (txt "Unknown")) (md !! "title") |}.

(** [f"[Source: {doc_info['title']}]\n{doc_info['content']}\n"] *)
Definition context_part (d : DocInfo) : text :=
  txt "[Source: " ++ MValue_str (title d) ++ txt "]" ++ [Chunker.newline]
  ++ content d ++ [Chunker.newline].

(** The three accumulators of the filter loops. *)
Record Acc := {
  retrieved_docs : list DocInfo;
  context_parts : list text;
  total_relevance : Q
}.

Definition acc0 : Acc :=
  {| retrieved_docs := []; context_parts := []; total_relevance := 0 |}.

(** Body of [for i in range(len(documents))]. *)
Definition visit (r : QueryResults) (threshold : Q) (acc : Acc) (i : nat)
  : Acc :=
  match documents r !! i with
  | None => acc
  | Some document =>
      let d := doc_info r i document in
      if Qle_bool threshold (similarity_score d) then
        {| retrieved_docs := retrieved_docs acc ++ [d];
           context_parts := context_parts acc ++ [context_part d];
           total_relevance := (total_relevance acc + similarity_score d)%Q |}
      else acc
  end.

(** One pass over all returned documents. *)
Definition filter_pass (r : QueryResults) (threshold : Q) (acc : Acc) : Acc :=
  foldl (visit r threshold) acc (seq 0 (length (documents r))).

(** The two passes: the second runs when the first kept nothing and the
    threshold is above [0.1]. *)
Definition filter_passes (r : QueryResults) (threshold : Q) : Acc :=
  let acc := filter_pass r threshold acc0 in
  match retrieved_docs acc with
  | [] =>
      if Qle_bool threshold (1 # 10) then acc
      else filter_pass r (1 # 10) acc
  | _ :: _ => acc
  end.

(** The separator ["\n---\n"]. *)
Definition separator : text :=
  [Chunker.newline] ++ txt "---" ++ [Chunker.newline].

(** [retrieve_context(query)], given what the collection answers.  With
    dictionaries as metadata nothing in the loops raises, so the handlers
    of the per-document [try] blocks are not reached. *)
Definition retrieve_context (cfg : Config) (answer : StoreAnswer)
  : text * list DocInfo * Q :=
  match answer with
  | NoCollection => ([], [], 0%Q)
  | QueryError => ([], [], 0%Q)
  | Results r =>
      match documents r with
      | [] => ([], [], 0%Q)
      | _ :: _ =>
          let acc := filter_passes r (effective_threshold cfg) in
          let full_context := Py.join separator (context_parts acc) in
          let avg_relevance :=
            match retrieved_docs acc with
            | [] => 0%Q
            | _ :: _ =>
                (total_relevance acc
                 / inject_Z (Py.len (retrieved_docs acc)))%Q
            end in
          (full_context, retrieved_docs acc, avg_relevance)
      end
  end.

End Retriever.

(** ** Context budgeter: [_truncate_context] *)

Module Budgeter.

Section WithTokenizer.

(** [_count_tokens]: the tokenizer's count, or the word-count estimate
    when the tokenizer raises; it catches its own exceptions, so it is a
    total function into the non-negative integers. *)
Variable _count_tokens : text -> nat.

(** The [for part in parts] loop with its [break]. *)
Fixpoint accumulate (max_tokens : Z) (parts : list text)
    (truncated_parts : list text) (current_tokens : Z) : list text :=
  match parts with
  | [] => truncated_parts
  | part :: rest =>
      let part_tokens := Z.of_nat (_count_tokens part) in
      if current_tokens + part_tokens <=? max_tokens
      then accumulate max_tokens rest (truncated_parts ++ [part])
             (current_tokens + part_tokens)
      else truncated_parts
  end.

(** [_truncate_context(context, max_tokens)].  Nothing in the [try] block
    raises, so the character-slice fallback of the handler is not
    reached. *)
Definition _truncate_context (context : text) (max_tokens : Z) : text :=
  if Z.of_nat (_count_tokens context) <=? max_tokens then context
  else
    let parts := Py.split Retriever.separator context in
    Py.join Retriever.separator (accumulate max_tokens parts [] 0).

End WithTokenizer.

End Budgeter.

(** ** Answer generator: [generate_response] *)

Module Generator.

Import Retriever.

(** What [openai_client.chat.completions.create] and the reading of its
    first choice give. *)
Inductive LLMOutcome :=
  | LLMError
  | LLMResponse (message : text) (total_tokens : option Z).

Record SourceInfo := {
  src_title : MValue;
  src_url : MValue;
  src_relevance : Q
}.

(** Equality of two [source_info] dictionaries, as [in] tests it. *)
Definition source_eqb (a b : SourceInfo) : bool :=
  bool_decide (src_title a = src_title b)
  && bool_decide (src_url a = src_url b)
  && Qeq_bool (src_relevance a) (src_relevance b).

Definition source_of (doc : DocInfo) : SourceInfo :=
  {| src_title := title doc;
     src_url := source_url doc;
     src_relevance := similarity_score doc |}.

(** Body of [for doc in retrieved_docs]. *)
Definition add_source (sources_used : list SourceInfo) (doc : DocInfo)
  : list SourceInfo :=
  let source_info := source_of doc in
  if existsb (source_eqb source_info) sources_used then sources_used
  else sources_used ++ [source_info].

Definition sources_of (retrieved_docs : list DocInfo) : list SourceInfo :=
  foldl add_source [] retrieved_docs.

Record GenResult := {
  response : text;
  sources : list SourceInfo;
  context_used : Z;
  tokens_used : Z
}.

Definition apology : text :=
  txt "I apologize, but I'm experiencing technical difficulties. Please try again or contact Jupiter customer support for assistance.".

(** The user turn of the prompt. *)
Definition user_prompt (query context : text) : text :=
  txt "Context from Jupiter's website:" ++ [Chunker.newline]
  ++ context ++ [Chunker.newline; Chunker.newline]
  ++ txt "User Question: " ++ query ++ [Chunker.newline; Chunker.newline]
  ++ txt "Please provide a comprehensive and helpful answer based on the context above. Be specific and actionable where possible.".

Section WithServices.

Variable _count_tokens : text -> nat.

(** The language model, called with the user turn; the system turn, the
    model name, the temperature and the output limit are constants. *)
Variable llm : text -> LLMOutcome.

(** [generate_response(query, context, retrieved_docs)] with the default
    budget of 2000 tokens of [_truncate_context]. *)
Definition generate_response (query context : text)
    (retrieved_docs : list DocInfo) : GenResult :=
  let context := Budgeter._truncate_context _count_tokens context 2000 in
  match llm (user_prompt query context) with
  | LLMResponse ai_response total_tokens =>
      {| response := ai_response;
         sources := sources_of retrieved_docs;
         context_used := Py.len context;
         tokens_used := default 0 total_tokens |}
  | LLMError =>
      {| response := apology;
         sources := [];
         context_used := 0;
         tokens_used := 0 |}
  end.

End WithServices.

End Generator.

(** ** Orchestrator: [ask_question] *)

Module Orchestrator.

Import Retriever Generator.

(** A call that returns or raises an exception with a message. *)
Inductive Outcome (A : Type) :=
  | Returned (a : A)
  | Raised (message : text).
Arguments Returned {A} a.
Arguments Raised {A} message.

(** A value of the result dictionary. *)
Inductive Value :=
  | VText (t : text)
  | VFloat (q : Q)
  | VInt (n : Z)
  | VSources (l : list SourceInfo).

(** The result dictionary: its keys in insertion order with their values. *)
Abbreviation Result := (list (string * Value)).

(** The services one call of [ask_question] talks to.  [retrieve k] is
    what [self.retrieve_context(query)] does on attempt [k];
    [elapsed k] is the number of seconds [datetime.now() - start_time]
    read during attempt [k]. *)
Record World := {
  retrieve : nat -> Outcome (text * list DocInfo * Q);
  count_tokens : text -> nat;
  llm : text -> LLMOutcome;
  log_conversation :
    text -> text -> text -> list MValue -> Q -> Q -> Outcome Z;
  elapsed : nat -> Q
}.

Definition max_attempts : nat := 3.

Definition no_context_message : text :=
  txt "I couldn't find relevant information about your question in Jupiter's knowledge base. This might be because the similarity threshold is too high, or the question is outside Jupiter's domain. Please try rephrasing your question or contact Jupiter customer support for assistance.".

Definition technical_error_message : text :=
  txt "I apologize for the technical error. Please try again or contact Jupiter support.".

Definition no_context_result (w : World) (query : text) (attempt : nat)
  : Result :=
  [("query", VText query);
   ("response", VText no_context_message);
   ("sources", VSources []);
   ("relevance_score", VFloat 0);
   ("response_time", VFloat (elapsed w attempt));
   ("context_length", VInt 0)].

Definition error_result (w : World) (query : text) (attempt : nat)
    (e : text) : Result :=
  [("query", VText query);
   ("response", VText technical_error_message);
   ("sources", VSources []);
   ("relevance_score", VFloat 0);
   ("response_time", VFloat (elapsed w attempt));
   ("context_length", VInt 0);
   ("error", VText e)].

Definition unexpected_result (w : World) (query : text) : Result :=
  [("query", VText query);
   ("response", VText (txt "Unexpected error occurred."));
   ("sources", VSources []);
   ("relevance_score", VFloat 0);
   ("response_time", VFloat (elapsed w (S max_attempts)));
   ("context_length", VInt 0)].

(** [if session_id:] *)
Definition truthy (session_id : option text) : option text :=
  match session_id with
  | Some (c :: s) => Some (c :: s)
  | _ => None
  end.

(** The part of an attempt after a non-empty context was retrieved. *)
Definition answer (w : World) (query : text) (session_id : option text)
    (attempt : nat) (context : text) (retrieved_docs : list DocInfo)
    (avg_relevance : Q) : Result :=
  let result :=
    generate_response (count_tokens w) (llm w) query context retrieved_docs in
  let response_time := elapsed w attempt in
  let final_result :=
    [("query", VText query);
     ("response", VText (response result));
     ("sources", VSources (sources result));
     ("relevance_score", VFloat avg_relevance);
     ("response_time", VFloat response_time);
     ("context_length", VInt (context_used result));
     ("tokens_used", VInt (tokens_used result));
     ("num_sources", VInt (Py.len retrieved_docs))] in
  match truthy session_id with
  | Some sid =>
      let source_urls := map src_url (sources result) in
      match log_conversation w sid query (response result) source_urls
              avg_relevance response_time with
      | Returned conversation_id =>
          final_result ++ [("conversation_id", VInt conversation_id)]
      | Raised _ => final_result
      end
  | None => final_result
  end.

(** The [for attempt in range(1, max_attempts + 1)] loop over the
    attempts still to make; [calls] counts the calls of
    [retrieve_context] made so far.  The result is the final count and
    the returned dictionary. *)
Fixpoint attempts (w : World) (query : text) (session_id : option text)
    (todo : list nat) (calls : nat) : nat * Result :=
  match todo with
  | [] => (calls, unexpected_result w query)
  | attempt :: rest =>
      match retrieve w attempt with
      | Returned (context, retrieved_docs, avg_relevance) =>
          match context with
          | [] =>
              if (attempt =? max_attempts)%nat
              then (S calls, no_context_result w query attempt)
              else attempts w query session_id rest (S calls)
          | _ :: _ =>
              (S calls,
               answer w query session_id attempt context retrieved_docs
                 avg_relevance)
          end
      | Raised e =>
          if (attempt =? max_attempts)%nat
          then (S calls, error_result w query attempt e)
          else attempts w query session_id rest (S calls)
      end
  end.

(** [ask_question(query, session_id)]: the number of retrievals made and
    the dictionary returned. *)
Definition ask_question (w : World) (query : text)
    (session_id : option text) : nat * Result :=
  attempts w query session_id (seq 1 max_attempts) 0.

(** [key in result] *)
Definition has_key (key : string) (r : Result) : bool :=
  existsb (fun kv => bool_decide (kv.1 = key)) r.

(** [result.get(key)] *)
Definition get (key : string) (r : Result) : option Value :=
  snd <$> List.find (fun kv => bool_decide (kv.1 = key)) r.

End Orchestrator.

(** ** Display helpers ([utils/helpers.py]) *)

Module Helpers.

(** [a-zA-Z0-9] *)
Definition is_alnum (c : ascii) : bool :=
  let n := nat_of_ascii c in
  ((48 <=? n)%nat && (n <=? 57)%nat)
  || ((65 <=? n)%nat && (n <=? 90)%nat)
  || ((97 <=? n)%nat && (n <=? 122)%nat).

(** The character class [[^a-zA-Z0-9\s]]. *)
Definition is_symbol (c : ascii) : bool :=
  negb (is_alnum c) && negb (Py.isspace c).

(** [re.match(r'^[^a-zA-Z0-9\s]*$', question)] finds a match: the
    question is a run of characters of the class, possibly followed by
    one final newline, before which [$] matches too. *)
Definition only_symbols (question : text) : bool :=
  forallb is_symbol question
  || match reverse question with
     | c :: p => bool_decide (c = Chunker.newline) && forallb is_symbol p
     | [] => false
     end.

(** [validate_question(question)] *)
Definition validate_question (question : text) : bool * text :=
  if bool_decide (question = []) || bool_decide (Py.strip question = [])
  then (false, txt "Please enter a question")
  else if Py.len (Py.strip question) <? 3
  then (false, txt "Question too short (minimum 3 characters)")
  else if 500 <? Py.len question
  then (false, txt "Question too long (maximum 500 characters)")
  else if only_symbols question
  then (false, txt "Please enter a meaningful question")
  else (true, txt "Valid question").

(** [truncate_text(text, max_length)] *)
Definition truncate_text (s : text) (max_length : Z) : text :=
  if Py.len s <=? max_length then s
  else Py.slice s 0 (max_length - 3) ++ txt "...".

(** [s.replace(a, b)] for one-character [a] and [b]. *)
Definition replace_char (a b : ascii) (s : text) : text :=
  map (fun c => if bool_decide (c = a) then b else c) s.

(** One item of the conversation history; a field is [None] when the
    key is absent. *)
Record Conversation := {
  conv_timestamp : option text;
  conv_question : option text;
  conv_response : option text;
  conv_sources : option (list Generator.SourceInfo)
}.

Definition quote : ascii := ascii_of_nat 34.

Definition export_header : text := txt "Timestamp,Question,Response,Sources".

(** The line of one conversation:
    [f'"{timestamp}","{question}","{response}",{sources}']. *)
Definition export_line (conv : Conversation) : text :=
  let timestamp := default [] (conv_timestamp conv) in
  let question :=
    replace_char Chunker.newline " "
      (replace_char "," ";" (default [] (conv_question conv))) in
  let response :=
    replace_char Chunker.newline " "
      (replace_char "," ";" (default [] (conv_response conv))) in
  let sources := length (default [] (conv_sources conv)) in
  [quote] ++ timestamp ++ [quote; ","%char; quote]
  ++ question ++ [quote; ","%char; quote]
  ++ response ++ [quote; ","%char] ++ txt (pretty sources).

(** [create_conversation_export(conversation_history)] *)
Definition create_conversation_export (conversation_history : list Conversation)
  : text :=
  match conversation_history with
  | [] => []
  | _ :: _ =>
      Py.join [Chunker.newline]
        (foldl (fun lines conv => lines ++ [export_line conv])
           [export_header] conversation_history)
  end.

(** [calculate_relevance_color(score)]; the score is an exact number. *)
Definition calculate_relevance_color (score : Q) : text :=
  if Qle_bool (8 # 10) score then txt "#28a745"
  else if Qle_bool (6 # 10) score then txt "#ffc107"
  else txt "#dc3545".

(** [get_response_quality(relevance_score, response_time)]; both are
    exact numbers, and [response_time < 3] is read as "not
    [3 <= response_time]". *)
Definition get_response_quality (relevance_score response_time : Q) : text :=
  if Qle_bool (8 # 10) relevance_score && negb (Qle_bool 3 response_time)
  then txt "Excellent"
  else if Qle_bool (6 # 10) relevance_score
          && negb (Qle_bool 5 response_time)
  then txt "Good"
  else if Qle_bool (4 # 10) relevance_score then txt "Fair"
  else txt "Poor".

End Helpers.

(** ** Web scraper ([utils/scraper.py]) *)

Module Scraper.

(** [c.lower()], for code points below 256: the ASCII capitals and the
    Latin-1 capitals other than the multiplication sign. *)
Definition lower_char (c : ascii) : ascii :=
  let n := nat_of_ascii c in
  if ((65 <=? n)%nat && (n <=? 90)%nat)
     || ((192 <=? n)%nat && (n <=? 222)%nat && negb (n =? 215)%nat)
  then ascii_of_nat (n + 32) else c.

(** [s.lower()] *)
Definition lower (s : text) : text := map lower_char s.

(** [sub in s] *)
Fixpoint contains (sub s : text) : bool :=
  match s with
  | [] => Py.startswith sub []
  | _ :: s' => Py.startswith sub s || contains sub s'
  end.

Definition skip_patterns : list text :=
  [txt "javascript:"; txt "mailto:"; txt "tel:"; txt "#";
   txt ".pdf"; txt ".jpg"; txt ".png"; txt ".gif"; txt ".svg";
   txt "download"; txt "api/"; txt "admin"; txt "login"; txt "register"].

Definition important_keywords : list text :=
  [txt "account"; txt "banking"; txt "savings"; txt "investment";
   txt "credit"; txt "debit"; txt "loan"; txt "insurance"; txt "money";
   txt "payment"; txt "transfer"; txt "jupiter"; txt "app"; txt "digital";
   txt "fintech"; txt "fees"; txt "charges"; txt "kyc"; txt "verification";
   txt "security"; txt "upi"; txt "neft"; txt "rtgs"; txt "fund"].

(** The dictionary [url_categories], in insertion order. *)
Definition url_categories : list (text * list text) :=
  [(txt "faq", [txt "/faq"; txt "/help"; txt "/support"]);
   (txt "legal", [txt "/privacy"; txt "/terms"; txt "/legal"]);
   (txt "product", [txt "/features"; txt "/services"; txt "/products"]);
   (txt "about", [txt "/about"; txt "/company"; txt "/team"]);
   (txt "pricing", [txt "/pricing"; txt "/fees"; txt "/charges"]);
   (txt "security", [txt "/security"; txt "/safety"]);
   (txt "blog", [txt "/blog"; txt "/news"; txt "/article"])].

Definition priority_patterns : list text :=
  [txt "features"; txt "about"; txt "help"; txt "faq"; txt "pricing";
   txt "services"; txt "security"; txt "support"; txt "products";
   txt "banking"].

(** [extract_keywords(title, content)]; [order] is the order in which
    the set [important_keywords] is iterated, which the language leaves
    open. *)
Definition extract_keywords (order : list text) (title content : text)
  : list text :=
  let full_text := lower (title ++ txt " " ++ content) in
  take 10 (List.filter (fun keyword => contains keyword full_text) order).

(** [determine_content_category(url, title, content)] *)
Definition determine_content_category (url title content : text) : text :=
  let url_lower := lower url in
  match List.find
          (fun entry => existsb (fun pattern => contains pattern url_lower)
                          entry.2)
          url_categories with
  | Some entry => entry.1
  | None => txt "general"
  end.

Section WithWeb.

(** [urlparse(url).netloc], [None] when parsing raises; [urljoin]. *)
Variable netloc : text -> option text.
Variable urljoin : text -> text -> text.

(** [is_valid_jupiter_url(url)] *)
Definition is_valid_jupiter_url (url : text) : bool :=
  match netloc url with
  | None => false
  | Some loc =>
      let domain_valid :=
        bool_decide (lower loc ∈ [txt "jupiter.money";
                                  txt "www.jupiter.money"]) in
      let url_clean := lower url in
      let should_skip :=
        existsb (fun pattern => contains pattern url_clean) skip_patterns in
      domain_valid && negb should_skip && (Py.len url <? 200)
  end.

(** An [<a href=...>] element: its [href] and its text. *)
Record Anchor := {
  href : text;
  link_text : text
}.

(** The body of the loop of [find_internal_links] after the [break]
    test. *)
Definition visit_link (url : text) (scraped_urls : gset text)
    (max_links : nat) (links : gset text) (link : Anchor) : gset text :=
  let full_url := urljoin url (href link) in
  if is_valid_jupiter_url full_url
     && negb (bool_decide (full_url ∈ scraped_urls))
  then
    let text_lower := lower (link_text link) in
    let is_priority :=
      existsb (fun pattern =>
                 contains pattern text_lower
                 || contains pattern (lower full_url))
        priority_patterns in
    if is_priority || (size links <? max_links / 2)%nat
    then {[full_url]} ∪ links
    else links
  else links.

Fixpoint links_loop (url : text) (scraped_urls : gset text)
    (max_links : nat) (anchors : list Anchor) (links : gset text)
  : gset text :=
  match anchors with
  | [] => links
  | link :: rest =>
      if (max_links <=? size links)%nat then links
      else links_loop url scraped_urls max_links rest
             (visit_link url scraped_urls max_links links link)
  end.

(** [find_internal_links(url, soup, max_links)]: [anchors] are the
    elements [soup.find_all('a', href=True)]; the result lists the set in
    an order that the language leaves open. *)
Definition find_internal_links (url : text) (scraped_urls : gset text)
    (anchors : list Anchor) (max_links : nat) : list text :=
  elements (links_loop url scraped_urls max_links anchors ∅).

(** What [scrape_single_page] extracts from a page, beside its url. *)
Record PageData := {
  page_title : text;
  page_content : text
}.

(** [scrape_single_page(url)], [None] for a page that is skipped or
    fails; the parsed page fetched again for its links, [None] when that
    raises. *)
Variable scrape_single_page : text -> option PageData.
Variable fetch_anchors : text -> option (list Anchor).

Record CrawlState := {
  urls_to_scrape : list text;
  scraped_urls : gset text;
  scraped_data : list (text * PageData);
  pages_scraped : nat;
  successful_scrapes : nat
}.

Definition JUPITER_BASE_URL : text := txt "https://jupiter.money".

Definition start_urls : list text :=
  [JUPITER_BASE_URL;
   JUPITER_BASE_URL ++ txt "/about-us";
   JUPITER_BASE_URL ++ txt "/fees-rates-charges";
   JUPITER_BASE_URL ++ txt "/contact-us";
   JUPITER_BASE_URL ++ txt "/savings-account";
   JUPITER_BASE_URL ++ txt "/pro-salary-account";
   JUPITER_BASE_URL ++ txt "/edge-csb-rupay-credit-card";
   JUPITER_BASE_URL ++ txt "/edge-plus-upi-rupay-credit-card";
   JUPITER_BASE_URL ++ txt "/edge-visa-credit-card"].

Definition crawl_start : CrawlState :=
  {| urls_to_scrape := start_urls;
     scraped_urls := ∅;
     scraped_data := [];
     pages_scraped := 0;
     successful_scrapes := 0 |}.

(** The [while urls_to_scrape and pages_scraped < max_pages] loop of
    [scrape_jupiter_website]; [None] when the fuel is exhausted. *)
Fixpoint crawl (max_pages : nat) (fuel : nat) (st : CrawlState)
  : option CrawlState :=
  match fuel with
  | O => None
  | S fuel' =>
      match urls_to_scrape st with
      | [] => Some st
      | url :: rest =>
          if (max_pages <=? pages_scraped st)%nat then Some st
          else if bool_decide (url ∈ scraped_urls st) then
            crawl max_pages fuel'
              {| urls_to_scrape := rest;
                 scraped_urls := scraped_urls st;
                 scraped_data := scraped_data st;
                 pages_scraped := pages_scraped st;
                 successful_scrapes := successful_scrapes st |}
          else
            let seen := {[url]} ∪ scraped_urls st in
            match scrape_single_page url with
            | None =>
                crawl max_pages fuel'
                  {| urls_to_scrape := rest;
                     scraped_urls := seen;
                     scraped_data := scraped_data st;
                     pages_scraped := S (pages_scraped st);
                     successful_scrapes := successful_scrapes st |}
            | Some page_data =>
                let new_links :=
                  if (S (successful_scrapes st) <=? 6)%nat then
                    match fetch_anchors url with
                    | Some anchors => find_internal_links url seen anchors 8
                    | None => []
                    end
                  else [] in
                crawl max_pages fuel'
                  {| urls_to_scrape := rest ++ new_links;
                     scraped_urls := seen;
                     scraped_data := scraped_data st ++ [(url, page_data)];
                     pages_scraped := S (pages_scraped st);
                     successful_scrapes := S (successful_scrapes st) |}
            end
      end
  end.

(** The loop of [scrape_jupiter_website] run from its start state.  The
    pauses between requests, the progress callback and the writing of the
    data file are not part of the model. *)
Definition scrape_jupiter_website (max_pages : nat) : option CrawlState :=
  crawl max_pages (S (length start_urls + 8 * 6)) crawl_start.

End WithWeb.

End Scraper.

(** * Vocabulary of the properties *)

(** A configuration under which the chunker advances: the chunk size is
    positive and the overlap is at most half of it. *)
Definition sane (cfg : Config) : Prop :=
  0 < CHUNK_SIZE cfg ∧ CHUNK_OVERLAP cfg ≤ CHUNK_SIZE cfg / 2.

(** What a chunk of the output is expected to be: not empty, equal to its
    own [strip()], and longer than the floor of 100 characters. *)
Definition well_formed_chunk (c : text) : Prop :=
  c ≠ [] ∧ Py.strip c = c ∧ 100 < Py.len c.

(** The reading of the chunker under which the backward search reaches
    [chunk_size / 2] characters back from the nominal cut point [e]: the
    nearest boundary in that range is where the cut falls, and without
    one the cut is nominal. *)
Definition searches_half_chunk_back (cfg : Config) (content : text) : Prop :=
  CHUNK_SIZE cfg < Py.len content →
  ∀ start : Z,
    let e := start + CHUNK_SIZE cfg in
    0 ≤ start → e < Py.len content →
    (∀ i, e - CHUNK_SIZE cfg / 2 ≤ i ≤ e →
          Chunker.is_boundary content i = true →
          (∀ j, i < j ≤ e → Chunker.is_boundary content j = false) →
          Chunker.cut_point cfg content start = i + 1)
    ∧ ((∀ i, e - CHUNK_SIZE cfg / 2 ≤ i ≤ e →
             Chunker.is_boundary content i = false) →
       Chunker.cut_point cfg content start = e).

(** The reading of the chunker under which every output, whatever the
    input, holds only well-formed chunks and no chunk twice. *)
Definition chunks_always_clean (cfg : Config) (content : text) : Prop :=
  ∀ chunks, Chunker._chunk_content cfg content = Some chunks →
    Forall well_formed_chunk chunks ∧ NoDup chunks.

(** Sample contents for the chunker: 1101 characters whose only sentence
    end is at index 599; 1101 characters whose only sentence end is at
    index 900; 2000 times the same letter. *)
Definition content_boundary_at_599 : text :=
  replicate 599 "a"%char ++ txt ". " ++ replicate 500 "a"%char.

Definition content_boundary_at_900 : text :=
  replicate 900 "a"%char ++ txt ". " ++ replicate 199 "a"%char.

Definition content_one_letter : text := replicate 2000 "a"%char.

(** A configuration with a negative chunk size and a negative overlap. *)
Definition config_negative : Config := {|
  CHUNK_SIZE := -1;
  CHUNK_OVERLAP := -1000;
  MAX_RETRIEVED_DOCS := 5;
  SIMILARITY_THRESHOLD := 3 # 10;
  MAX_TOKENS := 1000
|}.

(** A configuration whose overlap is more than half of the chunk size. *)
Definition config_wide_overlap : Config := {|
  CHUNK_SIZE := 1000;
  CHUNK_OVERLAP := 600;
  MAX_RETRIEVED_DOCS := 5;
  SIMILARITY_THRESHOLD := 3 # 10;
  MAX_TOKENS := 1000
|}.

(** A row is in place in a store: under [Overwrite] the store holds
    exactly this row under its id, under [KeepStored] it holds some row
    under that id. *)
Definition in_place (pol : KnowledgeBase.OnExisting)
    (s : KnowledgeBase.Store) (e : KnowledgeBase.Entry) : Prop :=
  match pol with
  | KnowledgeBase.Overwrite =>
      s !! KnowledgeBase.entry_id e
      = Some (KnowledgeBase.entry_chunk e, KnowledgeBase.entry_metadata e)
  | KnowledgeBase.KeepStored => is_Some (s !! KnowledgeBase.entry_id e)
  end.

(** The batch of index [k] of a list of rows. *)
Definition batch_of (all : list KnowledgeBase.Entry) (k : nat)
  : list KnowledgeBase.Entry :=
  Py.slice all (Z.of_nat (KnowledgeBase.batch_size * k))
    (Z.of_nat (KnowledgeBase.batch_size * k + KnowledgeBase.batch_size)).

(** Sample input of the build: 51 pages of 150 characters each, which
    give 51 chunks and so two batches. *)
Definition page_150 : KnowledgeBase.Document :=
  {| KnowledgeBase.doc_content := Some (replicate 150 "a"%char);
     KnowledgeBase.doc_url := Some (txt "https://jupiter.money/");
     KnowledgeBase.doc_title := Some (txt "Jupiter");
     KnowledgeBase.doc_category := None;
     KnowledgeBase.doc_keywords := None |}.

Definition pages_51 : list KnowledgeBase.Document := replicate 51 page_150.

(** A chunk enters the context bundle only with a similarity computed
    from a distance the store returned for it. *)
Definition bundle_needs_returned_distance (cfg : Config)
    (r : Retriever.QueryResults) : Prop :=
  ∀ d, d ∈ (Retriever.retrieve_context cfg (Retriever.Results r)).1.2 →
    ∃ i dist,
      Retriever.documents r !! i = Some (Retriever.content d)
      ∧ Retriever.distances r !! i = Some dist
      ∧ (Retriever.similarity_score d == Retriever.similarity dist)%Q.

(** Sample answer of the store: one document at distance 1.2, whose
    similarity 0.2 lies between 0.1 and the configured threshold 0.3. *)
Definition results_near_miss : Retriever.QueryResults :=
  {| Retriever.documents := [txt "Jupiter accounts have no hidden fees."];
     Retriever.metadatas := [{["title" := MText (txt "Fees")]}];
     Retriever.distances := [12 # 10] |}.

(** The running token total of a list of source units. *)
Definition tokens_of (count : text → nat) (parts : list text) : Z :=
  foldr (fun part total => Z.of_nat (count part) + total) 0 parts.

(** A context of ten units of two characters each, and a tokenizer that
    counts characters. *)
Definition context_ten_units : text :=
  Py.join Retriever.separator
    (map (fun c => [c; c])
       (txt "abcdefghij")).

(** Two sources are the same entry for the deduplication. *)
Definition same_source (a b : Generator.SourceInfo) : Prop :=
  Generator.source_eqb a b = true.

(** No two positions of a list of sources hold the same entry. *)
Definition distinct_sources (l : list Generator.SourceInfo) : Prop :=
  ∀ i j a b, i ≠ j → l !! i = Some a → l !! j = Some b → ¬ same_source a b.

(** [srcs] is the list of the entries of the candidates [docs] with the
    repetitions left out: entries of candidates in the order of the
    candidates, no two of them the same, and one for every candidate. *)
Definition deduplicated (docs : list Retriever.DocInfo)
    (srcs : list Generator.SourceInfo) : Prop :=
  srcs `sublist_of` (Generator.source_of <$> docs)
  ∧ distinct_sources srcs
  ∧ ∀ d, d ∈ docs → ∃ s, s ∈ srcs ∧ same_source (Generator.source_of d) s.

(** Two positions of a list of candidates give the same source entry. *)
Definition repeated_source (docs : list Retriever.DocInfo) : Prop :=
  ∃ i j d1 d2, (i < j)%nat ∧ docs !! i = Some d1 ∧ docs !! j = Some d2
    ∧ same_source (Generator.source_of d1) (Generator.source_of d2).

(** The fields every result record is said to hold, and those that all
    outcomes of [ask_question] do hold. *)
Definition all_fields : list string :=
  ["query"; "response"; "sources"; "relevance_score"; "response_time";
   "context_length"; "tokens_used"; "num_sources"].

Definition core_fields : list string :=
  ["query"; "response"; "sources"; "relevance_score"; "response_time";
   "context_length"].

Definition has_fields (fields : list string) (r : Orchestrator.Result)
  : bool :=
  forallb (fun key => Orchestrator.has_key key r) fields.

(** Sample services: a store that never yields context; a store that
    returns the same page twice at distance 0.3, with a language model
    that answers. *)
Definition world_empty : Orchestrator.World :=
  {| Orchestrator.retrieve := fun _ => Orchestrator.Returned ([], [], 0%Q);
     Orchestrator.count_tokens := fun t => length t;
     Orchestrator.llm := fun _ => Generator.LLMError;
     Orchestrator.log_conversation :=
       fun _ _ _ _ _ _ => Orchestrator.Returned 1;
     Orchestrator.elapsed := fun _ => 0%Q |}.

Definition results_same_page_twice : Retriever.QueryResults :=
  {| Retriever.documents :=
       [txt "Jupiter accounts have no hidden fees.";
        txt "Jupiter debit cards have no joining fee."];
     Retriever.metadatas :=
       [{["title" := MText (txt "Fees")]}; {["title" := MText (txt "Fees")]}];
     Retriever.distances := [3 # 10; 3 # 10] |}.

Definition world_same_page_twice : Orchestrator.World :=
  {| Orchestrator.retrieve := fun _ =>
       Orchestrator.Returned
         (Retriever.retrieve_context Config_values
            (Retriever.Results results_same_page_twice));
     Orchestrator.count_tokens := fun t => length t;
     Orchestrator.llm := fun _ =>
       Generator.LLMResponse (txt "There are no hidden fees.") (Some 42);
     Orchestrator.log_conversation :=
       fun _ _ _ _ _ _ => Orchestrator.Returned 1;
     Orchestrator.elapsed := fun _ => 0%Q |}.

(** The candidates of an answer of the store, in the store's order. *)
Definition candidates (r : Retriever.QueryResults) : list Retriever.DocInfo :=
  imap (Retriever.doc_info r) (Retriever.documents r).

(** The sum of the similarity scores of a list of documents. *)
Definition score_sum (docs : list Retriever.DocInfo) : Q :=
  foldr (fun d s => (Retriever.similarity_score d + s)%Q) 0%Q docs.

(** Sample answer of the store: three documents at distances 0.3, 1.2
    and 0.6, that is at similarities 0.8, 0.2 and 0.6. *)
Definition results_three : Retriever.QueryResults :=
  {| Retriever.documents :=
       [txt "Jupiter accounts have no hidden fees.";
        txt "Jupiter is built on top of a partner bank.";
        txt "Jupiter debit cards have no joining fee."];
     Retriever.metadatas :=
       [{["title" := MText (txt "Fees")]};
        {["title" := MText (txt "About")]};
        {["title" := MText (txt "Cards")]}];
     Retriever.distances := [3 # 10; 12 # 10; 6 # 10] |}.

(** Sample services: the first retrieval raises, the second returns no
    context, the third returns the two sample pages; the conversation log
    raises. *)
Definition world_recovers : Orchestrator.World :=
  {| Orchestrator.retrieve := fun k =>
       match k with
       | 1%nat => Orchestrator.Raised (txt "connection reset")
       | 2%nat => Orchestrator.Returned ([], [], 0%Q)
       | _ =>
           Orchestrator.Returned
             (Retriever.retrieve_context Config_values
                (Retriever.Results results_same_page_twice))
       end;
     Orchestrator.count_tokens := fun t => length t;
     Orchestrator.llm := fun _ =>
       Generator.LLMResponse (txt "There are no hidden fees.") (Some 42);
     Orchestrator.log_conversation :=
       fun _ _ _ _ _ _ => Orchestrator.Raised (txt "database is locked");
     Orchestrator.elapsed := fun _ => 0%Q |}.

(** A first retrieval that is empty, a second one that returns the two
    candidates, and a language model that fails. *)
Definition world_llm_down_late : Orchestrator.World :=
  {| Orchestrator.retrieve := fun k =>
       match k with
       | 1%nat => Orchestrator.Returned ([], [], 0%Q)
       | _ =>
           Orchestrator.Returned
             (Retriever.retrieve_context Config_values
                (Retriever.Results results_same_page_twice))
       end;
     Orchestrator.count_tokens := fun t => length t;
     Orchestrator.llm := fun _ => Generator.LLMError;
     Orchestrator.log_conversation :=
       fun _ _ _ _ _ _ => Orchestrator.Returned 1;
     Orchestrator.elapsed := fun _ => 0%Q |}.

(** A page too short to be indexed, and the answer of a store holding
    the first chunk of the sample page. *)
Definition page_short : KnowledgeBase.Document :=
  {| KnowledgeBase.doc_content := Some (txt "Coming soon.");
     KnowledgeBase.doc_url := Some (txt "https://jupiter.money/soon");
     KnowledgeBase.doc_title := None;
     KnowledgeBase.doc_category := None;
     KnowledgeBase.doc_keywords := None |}.

Definition results_stored_page : Retriever.QueryResults :=
  {| Retriever.documents := [replicate 150 "a"%char];
     Retriever.metadatas := [KnowledgeBase.chunk_metadata page_150 0 0 1];
     Retriever.distances := [3 # 10] |}.

(** The message about the batch of index [k] among [n] that is added. *)
Definition added_message (n k : nat) : KnowledgeBase.Event :=
  KnowledgeBase.Added (S k) n.

(** Sample conversation for the export. *)
Definition conversation_sample : Helpers.Conversation :=
  {| Helpers.conv_timestamp := Some (txt "2025-01-01 10:00:00");
     Helpers.conv_question := Some (txt "Fees, charges?");
     Helpers.conv_response :=
       Some (txt "No fees," ++ [Chunker.newline] ++ txt "no charges.");
     Helpers.conv_sources := Some [] |}.

(** What holds of the state of the crawl all along, for a given parser
    of locations. *)
Definition crawl_invariant (netloc : text → option text) (max_pages : nat)
    (st : Scraper.CrawlState) : Prop :=
  (Scraper.pages_scraped st ≤ max_pages)%nat
  ∧ (Scraper.successful_scrapes st ≤ Scraper.pages_scraped st)%nat
  ∧ length (Scraper.scraped_data st) = Scraper.successful_scrapes st
  ∧ size (Scraper.scraped_urls st) = Scraper.pages_scraped st
  ∧ NoDup (Scraper.scraped_data st).*1
  ∧ (∀ u, u ∈ (Scraper.scraped_data st).*1 → u ∈ Scraper.scraped_urls st)
  ∧ (∀ u, u ∈ Scraper.urls_to_scrape st →
          u ∈ Scraper.start_urls
          ∨ Scraper.is_valid_jupiter_url netloc u = true)
  ∧ (∀ u, u ∈ Scraper.scraped_urls st →
          u ∈ Scraper.start_urls
          ∨ Scraper.is_valid_jupiter_url netloc u = true).

(** The four qualities, from worst to best. *)
Definition quality_rank (quality : text) : nat :=
  if decide (quality = txt "Excellent") then 3
  else if decide (quality = txt "Good") then 2
  else if decide (quality = txt "Fair") then 1
  else 0.

(** A link whose text or url holds one of the priority patterns. *)
Definition priority_link (urljoin : text → text → text) (url : text)
    (a : Scraper.Anchor) : bool :=
  existsb (fun pattern =>
             Scraper.contains pattern (Scraper.lower (Scraper.link_text a))
             || Scraper.contains pattern
                  (Scraper.lower (urljoin url (Scraper.href a))))
    Scraper.priority_patterns.

(** A sample page: every url is on the Jupiter site, every link is
    absolute, and the page links to the help page and to a document. *)
Definition sample_netloc (url : text) : option text :=
  Some (txt "Jupiter.Money").

Definition sample_urljoin (url href : text) : text := href.

Definition help_link : Scraper.Anchor :=
  {| Scraper.href := txt "https://jupiter.money/help";
     Scraper.link_text := txt "Help" |}.

Definition sample_links : list Scraper.Anchor :=
  [ help_link;
    {| Scraper.href := txt "https://jupiter.money/terms.pdf";
       Scraper.link_text := txt "Terms" |} ].

(** * Properties *)

(** ** Python string primitives *)

Section PyFacts.

Import Py.

Lemma lstrip_suffix (s : text) : ∃ p, s = p ++ lstrip s.
Proof.
  induction s as [|c s [p IH]]; simpl.
  - by exists [].
  - destruct (isspace c).
    + exists (c :: p). simpl. by f_equal.
    + by exists [].
Qed.

Lemma lstrip_head (s : text) :
  match lstrip s with
  | [] => True
  | c :: _ => isspace c = false
  end.
Proof.
  induction s as [|c s IH]; simpl; [done|].
  destruct (isspace c) eqn:E; [done|]. by rewrite E.
Qed.

Lemma lstrip_fixed (s : text) :
  match s with [] => True | c :: _ => isspace c = false end → lstrip s = s.
Proof. destruct s as [|c s]; simpl; [done|]. by intros ->. Qed.

Lemma lstrip_idemp (s : text) : lstrip (lstrip s) = lstrip s.
Proof. apply lstrip_fixed, lstrip_head. Qed.

Lemma rstrip_prefix (s : text) : ∃ q, s = rstrip s ++ q.
Proof.
  destruct (lstrip_suffix (reverse s)) as [p Hp].
  exists (reverse p). unfold rstrip.
  rewrite <- reverse_app, <- Hp. by rewrite reverse_involutive.
Qed.

Lemma rstrip_idemp (s : text) : rstrip (rstrip s) = rstrip s.
Proof. unfold rstrip. by rewrite reverse_involutive, lstrip_idemp. Qed.

Lemma lstrip_strip (s : text) : lstrip (strip s) = strip s.
Proof.
  apply lstrip_fixed. unfold strip.
  destruct (rstrip_prefix (lstrip s)) as [q Hq].
  pose proof (lstrip_head s) as Hh.
  destruct (rstrip (lstrip s)) as [|c r]; [done|].
  rewrite Hq in Hh. done.
Qed.

(** A stripped string is a fixed point of [strip]. *)
Lemma strip_idemp (s : text) : strip (strip s) = strip s.
Proof.
  unfold strip at 1. rewrite lstrip_strip. apply rstrip_idemp.
Qed.

(** The first character of a stripped string is not white space. *)
Lemma strip_head (s : text) :
  match strip s with [] => True | c :: _ => isspace c = false end.
Proof.
  pose proof (lstrip_head (strip s)) as Hh. by rewrite lstrip_strip in Hh.
Qed.

(** Nor is its last character. *)
Lemma strip_last (s : text) :
  match reverse (strip s) with [] => True | c :: _ => isspace c = false end.
Proof.
  unfold strip, rstrip. rewrite reverse_involutive. apply lstrip_head.
Qed.

Lemma slice_bound_range (n i : Z) : 0 ≤ n → 0 ≤ slice_bound n i ≤ n.
Proof. unfold slice_bound. destruct (Z.ltb_spec i 0); lia. Qed.

(** Inside the bounds a slice is [take] after [drop]. *)
Lemma slice_in_range {A} (s : list A) (a b : Z) :
  0 ≤ a → a ≤ b →
  slice s a b = take (Z.to_nat (b - a)) (drop (Z.to_nat a) s).
Proof.
  intros Ha Hab. unfold slice, slice_bound.
  destruct (Z.ltb_spec a 0); [lia|].
  destruct (Z.ltb_spec b 0); [lia|].
  destruct (Z.le_gt_cases (Z.of_nat (length s)) a) as [Hl|Hl].
  - rewrite !drop_ge by lia. by rewrite !take_nil.
  - rewrite (Z.min_l a) by lia.
    destruct (Z.le_gt_cases b (Z.of_nat (length s))).
    + by rewrite Z.min_l by lia.
    + rewrite Z.min_r by lia.
      rewrite !take_ge; [done|rewrite length_drop; lia..].
Qed.

Lemma elem_of_slice {A} (s : list A) (a b : Z) (x : A) :
  x ∈ slice s a b → x ∈ s.
Proof.
  unfold slice. intros H.
  apply elem_of_take in H as (i & H & _).
  rewrite lookup_drop in H. by eapply list_elem_of_lookup_2.
Qed.

Lemma split_go_nonempty (sep : text) (s : text) :
  ∀ skip cur, split_go sep skip cur s ≠ [].
Proof.
  induction s as [|c s IH]; intros skip cur; simpl; [done|].
  destruct skip; [|apply IH]. destruct (startswith sep (c :: s)); [done|].
  apply IH.
Qed.

Lemma split_go_skip (sep p rest cur : text) :
  split_go sep (length p) cur (p ++ rest) = split_go sep 0 cur rest.
Proof.
  induction p as [|c p IH]; simpl; [|done].
  destruct rest; done.
Qed.

Lemma startswith_app (p s : text) :
  startswith p s = true → ∃ rest, s = p ++ rest.
Proof.
  revert s. induction p as [|a p IH]; intros s; simpl; [by exists s|].
  destruct s as [|b s]; [done|].
  destruct (bool_decide_reflect (a = b)) as [->|]; simpl; [|done].
  intros H. destruct (IH s H) as [rest ->]. by exists rest.
Qed.

Lemma join_cons (sep p : text) (rest : list text) :
  rest ≠ [] → join sep (p :: rest) = p ++ sep ++ join sep rest.
Proof. by destruct rest. Qed.

Lemma join_split_go (sep : text) (n : nat) :
  sep ≠ [] →
  ∀ s cur, (length s ≤ n)%nat →
    join sep (split_go sep 0 cur s) = reverse cur ++ s.
Proof.
  intros Hsep. induction n as [|n IH]; intros s cur Hn.
  - destruct s; [|simpl in Hn; lia]. simpl. by rewrite app_nil_r.
  - destruct s as [|c s]; [simpl; by rewrite app_nil_r|].
    cbn [split_go]. destruct (startswith sep (c :: s)) eqn:Hst.
    + apply startswith_app in Hst as [rest Hrest].
      destruct sep as [|c' sep']; [done|].
      injection Hrest as <- ->.
      replace (length (c :: sep') - 1)%nat with (length sep')
        by (simpl; lia).
      rewrite split_go_skip, join_cons by apply split_go_nonempty.
      rewrite IH; [done|].
      simpl in Hn. rewrite length_app in Hn. lia.
    + rewrite IH by (simpl in Hn; lia).
      rewrite reverse_cons, <- app_assoc. done.
Qed.

(** Joining the pieces of a split gives the string back. *)
Lemma join_split (sep s : text) : sep ≠ [] → join sep (split sep s) = s.
Proof.
  intros Hsep. unfold split.
  by rewrite (join_split_go sep (length s) Hsep s []).
Qed.

End PyFacts.

(** ** Chunker *)

Section ChunkerFacts.

Import Chunker.

Lemma search_back_spec (content : text) (n : nat) : ∀ i,
  match search_back content i n with
  | Some e' =>
      ∃ k : nat, (k < n)%nat ∧ e' = i - Z.of_nat k + 1
        ∧ is_boundary content (i - Z.of_nat k) = true
        ∧ ∀ j : nat, (j < k)%nat → is_boundary content (i - Z.of_nat j) = false
  | None =>
      ∀ j : nat, (j < n)%nat → is_boundary content (i - Z.of_nat j) = false
  end.
Proof.
  induction n as [|n IH]; intros i; simpl.
  - intros j Hj. lia.
  - destruct (is_boundary content i) eqn:Hb.
    + exists 0%nat. repeat split; [lia|lia|by rewrite Z.sub_0_r|intros; lia].
    + specialize (IH (i - 1)). destruct (search_back content (i - 1) n).
      * destruct IH as (k & Hk & -> & Hbk & Hlt).
        exists (S k). repeat split; [lia|lia| |].
        -- by replace (i - Z.of_nat (S k)) with (i - 1 - Z.of_nat k) by lia.
        -- intros [|j] Hj; [by rewrite Z.sub_0_r|].
           replace (i - Z.of_nat (S j)) with (i - 1 - Z.of_nat j) by lia.
           apply Hlt. lia.
      * intros [|j] Hj; [by rewrite Z.sub_0_r|].
        replace (i - Z.of_nat (S j)) with (i - 1 - Z.of_nat j) by lia.
        apply IH. lia.
Qed.

(** The searched range ends at most 200 positions, and at most half a
    chunk (rounded up), before the nominal cut point. *)
Lemma search_range_width (cfg : Config) (start : Z) :
  start + CHUNK_SIZE cfg - search_bound cfg start
  = Z.min 200 (CHUNK_SIZE cfg - CHUNK_SIZE cfg / 2).
Proof. unfold search_bound. lia. Qed.

Lemma cut_point_found (cfg : Config) (content : text) (start i : Z) :
  let e := start + CHUNK_SIZE cfg in
  e < Py.len content →
  search_bound cfg start < i ≤ e →
  is_boundary content i = true →
  (∀ j, i < j ≤ e → is_boundary content j = false) →
  cut_point cfg content start = i + 1.
Proof.
  intros e He Hi Hb Hnear. unfold cut_point. fold e.
  destruct (Z.ltb_spec e (Py.len content)); [|lia].
  pose proof (search_back_spec content
                (Z.to_nat (e - search_bound cfg start)) e) as Hs.
  destruct (search_back content e _) as [e'|].
  - destruct Hs as (k & Hk & -> & Hbk & Hlt).
    destruct (Z.lt_trichotomy (e - Z.of_nat k) i) as [Hc|[Hc|Hc]]; [|lia|].
    + specialize (Hlt (Z.to_nat (e - i))).
      rewrite Z2Nat.id in Hlt by lia.
      replace (e - (e - i)) with i in Hlt by lia.
      rewrite Hlt in Hb; [done|lia].
    + rewrite Hnear in Hbk; [done|lia].
  - specialize (Hs (Z.to_nat (e - i))).
    rewrite Z2Nat.id in Hs by lia.
    replace (e - (e - i)) with i in Hs by lia.
    rewrite Hs in Hb; [done|lia].
Qed.

Lemma cut_point_not_found (cfg : Config) (content : text) (start : Z) :
  let e := start + CHUNK_SIZE cfg in
  (∀ i, search_bound cfg start < i ≤ e → is_boundary content i = false) →
  cut_point cfg content start = e.
Proof.
  intros e Hno. unfold cut_point. fold e.
  destruct (e <? Py.len content); [|done].
  pose proof (search_back_spec content
                (Z.to_nat (e - search_bound cfg start)) e) as Hs.
  destruct (search_back content e _) as [e'|]; [|done].
  destruct Hs as (k & Hk & -> & Hbk & _).
  rewrite Hno in Hbk; [done|lia].
Qed.

(** Every window ends beyond [start + CHUNK_OVERLAP], so the next start
    is strictly larger. *)
Lemma cut_point_progress (cfg : Config) (content : text) (start : Z) :
  sane cfg → start + CHUNK_OVERLAP cfg < cut_point cfg content start.
Proof.
  intros [Hcs Hov]. unfold cut_point.
  assert (CHUNK_SIZE cfg / 2 < CHUNK_SIZE cfg) by (apply Z.div_lt; lia).
  destruct (_ <? _); [|lia].
  pose proof (search_back_spec content
    (Z.to_nat (start + CHUNK_SIZE cfg - search_bound cfg start))
    (start + CHUNK_SIZE cfg)) as Hs.
  destruct (search_back content _ _) as [e'|]; [|lia].
  destruct Hs as (k & Hk & -> & _). unfold search_bound in Hk. lia.
Qed.

Lemma keep_chunk_Forall (chunk : text) (chunks : list text) :
  Py.strip chunk = chunk →
  Forall well_formed_chunk chunks →
  Forall well_formed_chunk (keep_chunk chunk chunks).
Proof.
  intros Hs Hall. unfold keep_chunk.
  destruct (bool_decide_reflect (chunk = [])) as [|Hne]; simpl; [done|].
  destruct (Z.ltb_spec 100 (Py.len chunk)); [|done].
  apply Forall_app. split; [done|]. by apply Forall_singleton.
Qed.

(** A short piece is dropped: the list of chunks is left as it was. *)
Lemma keep_chunk_drops (chunk : text) (chunks : list text) :
  Py.len chunk ≤ 100 → keep_chunk chunk chunks = chunks.
Proof.
  intros H. unfold keep_chunk.
  destruct (Z.ltb_spec 100 (Py.len chunk)); [lia|].
  by rewrite andb_false_r.
Qed.

Lemma chunk_loop_Forall (cfg : Config) (content : text) (fuel : nat) :
  ∀ start chunks r,
    Forall well_formed_chunk chunks →
    chunk_loop cfg content fuel start chunks = Some r →
    Forall well_formed_chunk r.
Proof.
  induction fuel as [|fuel IH]; intros start chunks r Hall; simpl; [done|].
  destruct (start <? Py.len content); [|by intros [= <-]].
  pose proof (keep_chunk_Forall _ chunks
    (strip_idemp (Py.slice content start (cut_point cfg content start)))
    Hall) as Hk.
  destruct (_ <=? _); [by intros [= <-]|].
  by apply IH.
Qed.

Lemma chunk_loop_total (cfg : Config) (content : text) (fuel : nat) :
  sane cfg →
  ∀ start chunks,
    (Z.to_nat (Py.len content - start) < fuel)%nat →
    is_Some (chunk_loop cfg content fuel start chunks).
Proof.
  intros Hsane. induction fuel as [|fuel IH]; intros start chunks Hf; [lia|].
  simpl. destruct (Z.ltb_spec start (Py.len content)); [|done].
  destruct (Z.leb_spec (Py.len content)
              (cut_point cfg content start - CHUNK_OVERLAP cfg)); [done|].
  apply IH. pose proof (cut_point_progress cfg content start Hsane). lia.
Qed.

End ChunkerFacts.

Section ChunkerClaims.

Import Chunker.

(** A scan of [n] positions from [lo] upward that meets no boundary
    shows that none of them is one. *)
Lemma no_boundary_by_scan (content : text) (lo : Z) (n : nat) :
  forallb (fun k => negb (is_boundary content (lo + Z.of_nat k))) (seq 0 n)
  = true →
  ∀ j, lo ≤ j < lo + Z.of_nat n → is_boundary content j = false.
Proof.
  intros H j Hj. rewrite forallb_forall in H.
  specialize (H (Z.to_nat (j - lo))).
  rewrite Z2Nat.id in H by lia.
  replace (lo + (j - lo)) with j in H by lia.
  apply negb_true_iff, H, in_seq. lia.
Qed.

(** C8, as stated, fails on the configured chunk size: in a content of
    1101 characters whose only sentence end is at index 599, that is 401
    characters before the nominal cut at 1000 and so within half a chunk
    of it, the cut is nominal. *)
Lemma backward_search_misses_boundary_401_back :
  ¬ searches_half_chunk_back Config_values content_boundary_at_599.
Proof.
  intros H.
  destruct (H ltac:(vm_compute; reflexivity) 0 ltac:(lia)
              ltac:(vm_compute; reflexivity)) as [Hfound _].
  specialize (Hfound 599 ltac:(vm_compute; split; discriminate)
                ltac:(vm_compute; reflexivity)).
  assert (cut_point Config_values content_boundary_at_599 0 = 1000) as Hcut
    by (vm_compute; reflexivity).
  rewrite Hfound in Hcut; [discriminate|].
  intros j Hj.
  apply (no_boundary_by_scan content_boundary_at_599 600 401);
    [vm_compute; reflexivity|simpl in *; lia].
Qed.

(** C8 (amended): when a full window [start .. start + chunk_size] lies
    inside the content, the backward search examines the positions from
    the nominal cut point down to just above
    [max(start + chunk_size - 200, start + chunk_size / 2)], that is
    [min(200, chunk_size - chunk_size / 2)] positions; if one of them
    holds a sentence end (one of ['. '], ['! '], ['? '], ['.\n']) the cut
    falls just after the nearest one, otherwise at the nominal cut
    point. *)
Theorem cut_point_search_range (cfg : Config) (content : text) (start : Z) :
  let e := start + CHUNK_SIZE cfg in
  e < Py.len content →
  e - search_bound cfg start
    = Z.min 200 (CHUNK_SIZE cfg - CHUNK_SIZE cfg / 2)
  ∧ (∀ i, search_bound cfg start < i ≤ e →
          is_boundary content i = true →
          (∀ j, i < j ≤ e → is_boundary content j = false) →
          cut_point cfg content start = i + 1)
  ∧ ((∀ i, search_bound cfg start < i ≤ e →
           is_boundary content i = false) →
     cut_point cfg content start = e).
Proof.
  intros e He. split; [apply search_range_width|]. split.
  - intros i Hi Hb Hnear. by apply cut_point_found.
  - intros Hno. by apply cut_point_not_found.
Qed.

Lemma cut_point_search_range_witness :
  1000 - search_bound Config_values 0 = 200
  ∧ cut_point Config_values content_boundary_at_900 0 = 901.
Proof.
  destruct (cut_point_search_range Config_values content_boundary_at_900 0
              ltac:(vm_compute; reflexivity)) as (Hw & Hfound & _).
  split; [exact Hw|].
  apply (Hfound 900).
  - vm_compute. split; [reflexivity|discriminate].
  - vm_compute. reflexivity.
  - intros j Hj.
    apply (no_boundary_by_scan content_boundary_at_900 901 100);
      [vm_compute; reflexivity|simpl in *; lia].
Defined.

(** Identical chunks are not removed: a content of 2000 equal letters
    gives the same chunk twice. *)
Lemma chunker_repeats_chunks :
  _chunk_content Config_values content_one_letter
  = Some [replicate 1000 "a"%char; replicate 1000 "a"%char;
          replicate 400 "a"%char].
Proof. vm_compute. reflexivity. Qed.

(** C9, as stated, fails twice: the empty content is returned as the one
    chunk of the output, which is an empty chunk; and a content of 2000
    equal letters gives two identical chunks. *)
Lemma chunker_returns_empty_and_repeated_chunks :
  ¬ chunks_always_clean Config_values []
  ∧ ¬ chunks_always_clean Config_values content_one_letter.
Proof.
  split.
  - intros H. destruct (H [[]] eq_refl) as [Hall _].
    apply Forall_inv in Hall. by destruct Hall as [Hne _].
  - intros H. destruct (H _ chunker_repeats_chunks) as [_ Hdup].
    apply NoDup_cons in Hdup as [Hnotin _]. apply Hnotin. by left.
Qed.

(** C9 (amended): for a content longer than [chunk_size], every chunk of
    the output of [_chunk_content] is non-empty, equal to its own [strip()]
    and longer than the floor of 100 characters (shorter pieces are
    dropped), and the chunker does return when the chunk size is positive
    and the overlap at most half of it, as configured; a content of at
    most [chunk_size] characters is returned as the single chunk,
    unchanged. *)
Theorem chunk_content_long_is_clean (cfg : Config) (content : text) :
  (CHUNK_SIZE cfg < Py.len content →
   ∀ chunks, _chunk_content cfg content = Some chunks →
             Forall well_formed_chunk chunks)
  ∧ (sane cfg → CHUNK_SIZE cfg < Py.len content →
     ∃ chunks, _chunk_content cfg content = Some chunks
               ∧ Forall well_formed_chunk chunks)
  ∧ (Py.len content ≤ CHUNK_SIZE cfg →
     _chunk_content cfg content = Some [content]).
Proof.
  unfold _chunk_content.
  assert (CHUNK_SIZE cfg < Py.len content →
          ∀ chunks,
            chunk_loop cfg content (S (length content)) 0 [] = Some chunks →
            Forall well_formed_chunk chunks) as Hclean.
  { intros _ chunks Hc. by eapply chunk_loop_Forall. }
  split; [|split].
  - intros Hlen chunks.
    destruct (Z.leb_spec (Py.len content) (CHUNK_SIZE cfg)); [lia|].
    by apply Hclean.
  - intros Hsane Hlen.
    destruct (Z.leb_spec (Py.len content) (CHUNK_SIZE cfg)); [lia|].
    destruct (chunk_loop_total cfg content (S (length content)) Hsane 0 [])
      as [chunks Hc]; [unfold Py.len; lia|].
    exists chunks. split; [done|]. by apply Hclean.
  - intros Hlen.
    by destruct (Z.leb_spec (Py.len content) (CHUNK_SIZE cfg)); [|lia].
Qed.

Lemma chunk_content_long_is_clean_witness :
  Forall well_formed_chunk
    [replicate 1000 "a"%char; replicate 1000 "a"%char;
     replicate 400 "a"%char]
  ∧ (∃ chunks, _chunk_content Config_values content_one_letter = Some chunks
               ∧ Forall well_formed_chunk chunks)
  ∧ _chunk_content Config_values (txt " a ") = Some [txt " a "].
Proof.
  destruct (chunk_content_long_is_clean Config_values content_one_letter)
    as (Hclean & Hlong & _).
  destruct (chunk_content_long_is_clean Config_values (txt " a "))
    as (_ & _ & Hshort).
  split; [|split].
  - apply Hclean; vm_compute; reflexivity.
  - apply Hlong; [split; vm_compute; [reflexivity|discriminate]
                 |vm_compute; reflexivity].
  - apply Hshort. vm_compute. discriminate.
Defined.

End ChunkerClaims.

(** ** Knowledge-base build *)

Section KnowledgeBaseFacts.

Import KnowledgeBase.

(** *** Chunk identifiers *)

Lemma pretty_N_char_not_underscore (x : N) : pretty_N_char x ≠ "_"%char.
Proof. unfold pretty_N_char. by repeat case_match. Qed.

Lemma pretty_N_go_no_underscore (x : N) : ∀ s,
  ¬ In "_"%char (list_ascii_of_string s) →
  ¬ In "_"%char (list_ascii_of_string (pretty_N_go x s)).
Proof.
  induction (N.lt_wf_0 x) as [x _ IH]; intros s Hs.
  assert (x = 0 ∨ 0 < x)%N as [->|Hx] by lia.
  - by rewrite pretty_N_go_0.
  - rewrite pretty_N_go_step by done. apply IH.
    + by apply N.div_lt.
    + simpl. intros [Hc|Hin]; [|done].
      by apply (pretty_N_char_not_underscore (x `mod` 10)%N).
Qed.

Lemma pretty_nat_no_underscore (n : nat) :
  ¬ In "_"%char (list_ascii_of_string (pretty n)).
Proof.
  unfold pretty, pretty_nat, pretty, pretty_N.
  case_decide.
  - simpl. intros [?|[]]. done.
  - apply pretty_N_go_no_underscore. simpl. tauto.
Qed.

(** Two strings without underscore, each followed by an underscore and a
    rest, are equal when the wholes are. *)
Lemma split_at_underscore (a a' r r' : string) :
  ¬ In "_"%char (list_ascii_of_string a) →
  ¬ In "_"%char (list_ascii_of_string a') →
  a +:+ String "_" r = a' +:+ String "_" r' → a = a' ∧ r = r'.
Proof.
  revert a'. induction a as [|c a IH]; intros [|c' a'] Ha Ha'; simpl in *.
  - by intros [= ->].
  - intros [= <- _]. tauto.
  - intros [= -> _]. tauto.
  - intros [= -> Hr]. destruct (IH a') as [-> ->]; [tauto..|done|done].
Qed.

Lemma chunk_id_inj (i j i' j' : nat) :
  chunk_id i j = chunk_id i' j' → i = i' ∧ j = j'.
Proof.
  unfold chunk_id. intros H. simpl in H. injection H as H.
  apply split_at_underscore in H as [Hi Hj];
    [|apply pretty_nat_no_underscore..].
  simpl in Hj. injection Hj as Hj.
  split; by apply (inj pretty).
Qed.

(** *** The rows of a build *)

Lemma chunk_content_total (cfg : Config) (content : text) :
  sane cfg → is_Some (Chunker._chunk_content cfg content).
Proof.
  intros Hsane. unfold Chunker._chunk_content.
  destruct (_ <=? _); [done|].
  apply chunk_loop_total; [done|]. unfold Py.len. lia.
Qed.

Lemma all_entries_total (cfg : Config) (docs : list Document) :
  sane cfg → ∀ k, is_Some (all_entries cfg k docs).
Proof.
  intros Hsane. induction docs as [|doc docs IH]; intros k; simpl; [done|].
  destruct (IH (S k)) as [es' ->].
  unfold doc_entries. destruct (_ || _); [done|].
  by destruct (chunk_content_total cfg (default [] (doc_content doc)) Hsane)
    as [chunks ->].
Qed.

(** Every row comes from one chunk of one document and is determined by
    the index of the document and the index of the chunk. *)
Lemma all_entries_origin (cfg : Config) (docs : list Document) :
  ∀ k all e,
    all_entries cfg k docs = Some all → e ∈ all →
    ∃ i j doc chunks chunk,
      docs !! i = Some doc
      ∧ Chunker._chunk_content cfg (default [] (doc_content doc))
        = Some chunks
      ∧ chunks !! j = Some chunk
      ∧ e = {| entry_id := chunk_id (k + i) j;
               entry_chunk := chunk;
               entry_metadata :=
                 chunk_metadata doc (k + i) j (length chunks) |}.
Proof.
  induction docs as [|doc docs IH]; intros k all e; simpl.
  - intros [= <-] He. by apply elem_of_nil in He.
  - destruct (doc_entries cfg k doc) as [es|] eqn:Hes; [|done].
    destruct (all_entries cfg (S k) docs) as [es'|] eqn:Hes'; [|done].
    intros [= <-] He. apply elem_of_app in He as [He|He].
    + unfold doc_entries in Hes. destruct (_ || _).
      { injection Hes as <-. by apply elem_of_nil in He. }
      destruct (Chunker._chunk_content cfg _) as [chunks|] eqn:Hc; [|done].
      injection Hes as <-.
      apply elem_of_lookup_imap_1 in He as (j & chunk & -> & Hj).
      exists 0%nat, j, doc, chunks, chunk.
      rewrite Nat.add_0_r. done.
    + destruct (IH (S k) es' e Hes' He)
        as (i & j & d & chunks & chunk & Hd & Hc & Hj & ->).
      exists (S i), j, d, chunks, chunk.
      replace (k + S i)%nat with (S k + i)%nat by lia. done.
Qed.

(** Rows of one build with the same id are the same row. *)
Lemma all_entries_unique_ids (cfg : Config) (docs : list Document)
    (all : list Entry) :
  all_entries cfg 0 docs = Some all →
  ∀ e1 e2, e1 ∈ all → e2 ∈ all → entry_id e1 = entry_id e2 → e1 = e2.
Proof.
  intros Hall e1 e2 H1 H2 Hid.
  destruct (all_entries_origin cfg docs 0 all e1 Hall H1)
    as (i1 & j1 & d1 & c1 & x1 & Hd1 & Hc1 & Hj1 & ->).
  destruct (all_entries_origin cfg docs 0 all e2 Hall H2)
    as (i2 & j2 & d2 & c2 & x2 & Hd2 & Hc2 & Hj2 & ->).
  simpl in Hid. apply chunk_id_inj in Hid as [Hi ->].
  simpl in Hi. subst i2. by simplify_eq.
Qed.

(** *** Batches *)

Lemma slice_nat {A} (l : list A) (i n : nat) :
  Py.slice l (Z.of_nat i) (Z.of_nat (i + n)) = take n (drop i l).
Proof.
  rewrite slice_in_range by lia. f_equal; [lia|f_equal; lia].
Qed.

Lemma elem_of_batch_of (all : list Entry) (k : nat) (e : Entry) :
  e ∈ batch_of all k → e ∈ all.
Proof. apply elem_of_slice. Qed.

(** Every row lies in one of the batches the loop visits. *)
Lemma batch_cover (all : list Entry) (e : Entry) :
  e ∈ all →
  ∃ k, (batch_size * k)%nat ∈ batch_starts (length all) ∧ e ∈ batch_of all k.
Proof.
  intros He. apply list_elem_of_lookup_1 in He as [p Hp].
  pose proof (lookup_lt_Some _ _ _ Hp) as Hlt.
  exists (p / batch_size)%nat. unfold batch_size in *. split.
  - unfold batch_starts. apply list_elem_of_fmap.
    exists (p / 50)%nat. split; [done|].
    apply elem_of_seq. unfold total_batches, batch_size.
    pose proof (Nat.div_mod_eq p 50).
    pose proof (Nat.mod_upper_bound p 50 ltac:(lia)).
    pose proof (Nat.div_mod_eq (length all + 50 - 1) 50).
    pose proof (Nat.mod_upper_bound (length all + 50 - 1) 50 ltac:(lia)).
    split; lia.
  - unfold batch_of, batch_size. rewrite slice_nat.
    apply elem_of_take. exists (p - 50 * (p / 50))%nat.
    rewrite lookup_drop.
    pose proof (Nat.div_mod_eq p 50).
    pose proof (Nat.mod_upper_bound p 50 ltac:(lia)).
    split; [|lia]. rewrite <- Hp. f_equal. lia.
Qed.

Lemma batch_index (k : nat) : (batch_size * k / batch_size)%nat = k.
Proof. unfold batch_size. rewrite Nat.mul_comm. by apply Nat.div_mul. Qed.

Lemma batch_starts_nonempty (n : nat) :
  (0 < n)%nat → ∃ rest, batch_starts n = 0%nat :: rest.
Proof.
  intros Hn. unfold batch_starts.
  assert (0 < total_batches n)%nat as Ht.
  { unfold total_batches, batch_size.
    pose proof (Nat.div_mod_eq (n + 50 - 1) 50).
    pose proof (Nat.mod_upper_bound (n + 50 - 1) 50 ltac:(lia)). lia. }
  destruct (total_batches n) as [|t]; [lia|]. simpl. eauto.
Qed.

End KnowledgeBaseFacts.

(** *** Insertion of rows *)

Section Rows.

Import KnowledgeBase.

Variable pol : OnExisting.
Variable all : list Entry.
Hypothesis unique_ids :
  ∀ e1 e2, e1 ∈ all → e2 ∈ all → entry_id e1 = entry_id e2 → e1 = e2.

Lemma put_row_in_place_self (s : Store) (e : Entry) :
  in_place pol (put_row pol s e) e.
Proof.
  unfold put_row, in_place. destruct pol.
  - destruct (s !! entry_id e) eqn:E; [by rewrite E|].
    rewrite lookup_insert_eq. eauto.
  - by rewrite lookup_insert_eq.
Qed.

Lemma put_row_in_place_other (s : Store) (e e' : Entry) :
  e ∈ all → e' ∈ all →
  in_place pol s e → in_place pol (put_row pol s e') e.
Proof.
  intros He He' Hin.
  destruct (decide (entry_id e' = entry_id e)) as [Heq|Hne].
  - rewrite (unique_ids e' e He' He Heq). apply put_row_in_place_self.
  - unfold put_row, in_place in *. destruct pol.
    + destruct (s !! entry_id e'); [done|]. by rewrite lookup_insert_ne.
    + by rewrite lookup_insert_ne.
Qed.

Lemma put_row_fixed (s : Store) (e : Entry) :
  in_place pol s e → put_row pol s e = s.
Proof.
  unfold put_row, in_place. destruct pol.
  - by intros [x ->].
  - intros H. by apply insert_id.
Qed.

Lemma collection_add_in_place (batch : list Entry) : ∀ (s : Store) e,
  (∀ x, x ∈ batch → x ∈ all) → e ∈ all →
  in_place pol s e ∨ e ∈ batch →
  in_place pol (collection_add pol batch s) e.
Proof.
  unfold collection_add.
  induction batch as [|x batch IH]; intros s e Hsub He Hor; simpl.
  - destruct Hor as [?|Hin]; [done|]. by apply elem_of_nil in Hin.
  - apply IH; [intros y Hy; apply Hsub; by right|done|].
    destruct Hor as [Hs|Hin].
    + left. apply put_row_in_place_other; [done|apply Hsub; by left|done].
    + apply elem_of_cons in Hin as [->|Hin]; [|by right].
      left. apply put_row_in_place_self.
Qed.

Lemma collection_add_fixed (batch : list Entry) (s : Store) :
  (∀ e, e ∈ batch → in_place pol s e) → collection_add pol batch s = s.
Proof.
  unfold collection_add. induction batch as [|x batch IH]; intros H; simpl.
  - done.
  - rewrite put_row_fixed by (apply H; by left).
    apply IH. intros e He. apply H. by right.
Qed.

(** When every row is in place already, the loop leaves the store as it
    is, whichever batches fail. *)
Lemma add_batches_fixed (fails : nat → bool) (starts : list nat) :
  ∀ st, (∀ e, e ∈ all → in_place pol (store st) e) →
    match add_batches pol fails all starts st with
    | inl st' | inr st' => store st' = store st
    end.
Proof.
  induction starts as [|i starts IH]; intros st Hst; [reflexivity|].
  cbn [add_batches].
  destruct (fails (i `div` batch_size)%nat).
  - destruct (batch_num st) as [bn|]; [|done].
    by apply (IH {| store := store st; batch_num := Some bn;
                    log := log st ++ [ErrorAdding bn] |}).
  - rewrite collection_add_fixed
      by (intros e He; apply Hst; by eapply elem_of_slice).
    match goal with |- context [add_batches _ _ _ _ ?st0] =>
      by apply (IH st0) end.
Qed.

(** Once [batch_num] is bound the loop runs to its end, and puts in place
    the rows of every batch that does not fail. *)
Lemma add_batches_bound (fails : nat → bool) (starts : list nat) :
  ∀ st, is_Some (batch_num st) →
    ∃ st', add_batches pol fails all starts st = inr st'
      ∧ ∀ e, e ∈ all →
          in_place pol (store st) e
          ∨ (∃ i, i ∈ starts ∧ fails (i `div` batch_size)%nat = false
                  ∧ e ∈ Py.slice all (Z.of_nat i)
                          (Z.of_nat (i + batch_size))) →
          in_place pol (store st') e.
Proof.
  induction starts as [|i starts IH]; intros st [bn Hbn]; cbn [add_batches].
  - exists st. split; [done|]. intros e He [?|(i & Hi & _)]; [done|].
    by apply elem_of_nil in Hi.
  - destruct (fails (i `div` batch_size)%nat) eqn:Hf.
    + rewrite Hbn.
      destruct (IH {| store := store st; batch_num := Some bn;
                      log := log st ++ [ErrorAdding bn] |})
        as (st' & -> & Hst'); [by eexists|].
      exists st'. split; [done|]. intros e He Hor. apply Hst'; [done|].
      destruct Hor as [?|(i' & Hi' & Hf' & Hin)]; [by left|].
      apply elem_of_cons in Hi' as [->|Hi']; [congruence|].
      right. eauto.
    + match goal with |- context [add_batches _ _ _ _ ?st0] =>
        destruct (IH st0) as (st' & -> & Hst'); [by eexists|] end.
      exists st'. split; [done|]. intros e He Hor. apply Hst'; [done|].
      cbn [store]. destruct Hor as [?|(i' & Hi' & Hf' & Hin)].
      * left. apply collection_add_in_place;
          [intros x Hx; by eapply elem_of_slice|done|by left].
      * apply elem_of_cons in Hi' as [->|Hi']; [|right; eauto].
        left. apply collection_add_in_place;
          [intros x Hx; by eapply elem_of_slice|done|by right].
Qed.

(** The same from the initial state, when the first batch does not
    fail. *)
Lemma add_batches_first_ok (fails : nat → bool) (starts : list nat)
    (s : Store) :
  match starts with
  | [] => True
  | i :: _ => fails (i `div` batch_size)%nat = false
  end →
  ∃ st', add_batches pol fails all starts
           {| store := s; batch_num := None; log := [] |} = inr st'
    ∧ ∀ e, e ∈ all →
        in_place pol s e
        ∨ (∃ i, i ∈ starts ∧ fails (i `div` batch_size)%nat = false
                ∧ e ∈ Py.slice all (Z.of_nat i) (Z.of_nat (i + batch_size))) →
        in_place pol (store st') e.
Proof.
  destruct starts as [|i starts]; intros Hf.
  - eexists. split; [done|]. intros e He [?|(i & Hi & _)]; [done|].
    by apply elem_of_nil in Hi.
  - cbn [add_batches store batch_num]. rewrite Hf.
    match goal with |- context [add_batches _ _ _ _ ?st0] =>
      destruct (add_batches_bound fails starts st0)
        as (st' & -> & Hst'); [by eexists|] end.
    exists st'. split; [done|]. intros e He Hor. apply Hst'; [done|].
    cbn [store]. destruct Hor as [?|(i' & Hi' & Hf' & Hin)].
    + left. apply collection_add_in_place;
        [intros x Hx; by eapply elem_of_slice|done|by left].
    + apply elem_of_cons in Hi' as [->|Hi']; [|right; eauto].
      left. apply collection_add_in_place;
        [intros x Hx; by eapply elem_of_slice|done|by right].
Qed.

End Rows.

(** *** The build as a whole *)

Section KnowledgeBaseClaims.

Import KnowledgeBase.

Lemma all_entries_nonempty_docs (cfg : Config) (docs : list Document)
    (all : list Entry) :
  all_entries cfg 0 docs = Some all → all ≠ [] → docs ≠ [].
Proof. intros H Hne ->. simpl in H. by injection H as <-. Qed.

Lemma batch_of_start (all : list Entry) (k : nat) (e : Entry) :
  e ∈ batch_of all k → (batch_size * k)%nat ∈ batch_starts (length all).
Proof.
  unfold batch_of. rewrite slice_nat. intros He.
  apply elem_of_take in He as (j & Hj & _). rewrite lookup_drop in Hj.
  apply lookup_lt_Some in Hj.
  unfold batch_starts. apply list_elem_of_fmap. exists k. split; [done|].
  apply elem_of_seq. unfold total_batches, batch_size in *.
  pose proof (Nat.div_mod_eq (length all + 50 - 1) 50).
  pose proof (Nat.mod_upper_bound (length all + 50 - 1) 50 ltac:(lia)).
  split; lia.
Qed.

Lemma Config_values_sane : sane Config_values.
Proof. split; vm_compute; [reflexivity|discriminate]. Qed.

(** The 51 sample pages give 51 rows. *)
Lemma pages_51_entries :
  length <$> all_entries Config_values 0 pages_51 = Some 51%nat.
Proof. vm_compute. reflexivity. Qed.

(** C3 (the code departs from the claim): when the insertion of the
    first batch fails, the handler reads [batch_num] before any batch has
    bound it; the error it raises leaves the loop and the build returns
    [False] with the store untouched: the failure is not logged and no
    later batch is inserted. *)
Theorem first_batch_failure_aborts_build (cfg : Config) (pol : OnExisting)
    (fails : nat → bool) (docs : list Document) (s : Store)
    (all : list Entry) :
  all_entries cfg 0 docs = Some all →
  all ≠ [] →
  fails 0%nat = true →
  build_knowledge_base cfg pol fails docs s = Some (s, [], false).
Proof.
  intros Hall Hne Hf.
  pose proof (all_entries_nonempty_docs cfg docs all Hall Hne) as Hdocs.
  unfold build_knowledge_base. destruct docs as [|doc docs]; [done|].
  rewrite Hall.
  destruct (batch_starts_nonempty (length all)) as [rest ->].
  { destruct all; [done|simpl; lia]. }
  cbn [add_batches store batch_num]. 
  replace (0 `div` batch_size)%nat with 0%nat by done.
  by rewrite Hf.
Qed.

Lemma first_batch_failure_aborts_build_witness :
  build_knowledge_base Config_values Overwrite (fun k => (k =? 0)%nat)
    pages_51 ∅
  = Some (∅, [], false).
Proof.
  pose proof pages_51_entries as Hlen.
  destruct (all_entries_total Config_values pages_51 Config_values_sane 0)
    as [all Hall].
  rewrite Hall in Hlen. injection Hlen as Hlen.
  apply (first_batch_failure_aborts_build _ _ _ _ _ all Hall);
    [|reflexivity].
  intros ->. discriminate Hlen.
Defined.

(** For comparison, the same build when the second batch is the one that
    fails: the first fifty rows are stored, the failure is logged (under
    the number of the last batch that succeeded) and the build returns
    [True]. *)
Lemma second_batch_failure_is_skipped :
  (fun r : Store * list Event * bool => (size r.1.1, r.1.2, r.2))
    <$> build_knowledge_base Config_values Overwrite
          (fun k => (k =? 1)%nat) pages_51 ∅
  = Some (50%nat, [Added 1 2; ErrorAdding 1], true).
Proof. vm_compute. reflexivity. Qed.

(** When the first batch is inserted, the build is a partial success:
    it returns [True] and the rows of every batch whose insertion does
    not fail are in place. *)
Lemma later_batch_failures_are_skipped (cfg : Config) (pol : OnExisting)
    (fails : nat → bool) (docs : list Document) (s : Store)
    (all : list Entry) :
  all_entries cfg 0 docs = Some all →
  all ≠ [] →
  fails 0%nat = false →
  ∃ s' log,
    build_knowledge_base cfg pol fails docs s = Some (s', log, true)
    ∧ ∀ k e, fails k = false → e ∈ batch_of all k → in_place pol s' e.
Proof.
  intros Hall Hne Hf.
  pose proof (all_entries_nonempty_docs cfg docs all Hall Hne) as Hdocs.
  pose proof (all_entries_unique_ids cfg docs all Hall) as Huniq.
  unfold build_knowledge_base. destruct docs as [|doc docs]; [done|].
  rewrite Hall.
  destruct (add_batches_first_ok pol all Huniq fails
              (batch_starts (length all)) s) as (st' & -> & Hst').
  { destruct (batch_starts_nonempty (length all)) as [rest ->]; [|done].
    destruct all; [done|simpl; lia]. }
  exists (store st'), (log st'). split; [done|].
  intros k e Hk He. apply Hst'; [by eapply elem_of_batch_of|].
  right. exists (batch_size * k)%nat. rewrite batch_index.
  split; [by eapply batch_of_start|]. split; [done|].
  unfold batch_of in He. by rewrite Nat2Z.inj_add in *.
Qed.

(** C7: building the knowledge base twice from the same documents
    computes the same rows both times, each under the identifier
    [doc_<i>_chunk_<j>] of its document and chunk, and rows with the same
    identifier are the same row; after a first build in which no insertion
    fails every row is in place, and the second build, whichever of its
    insertions fail, leaves the store, and so its count, as it was.  The
    rows exist whenever the chunk size is positive and the overlap at most
    half of it, as configured. *)
Theorem rebuild_leaves_store_unchanged (cfg : Config) (pol : OnExisting)
    (fails2 : nat → bool) (docs : list Document) (s0 : Store) :
  (sane cfg → is_Some (all_entries cfg 0 docs))
  ∧ (∀ all, all_entries cfg 0 docs = Some all →
     (∀ e, e ∈ all →
        ∃ i j, (i < length docs)%nat ∧ entry_id e = chunk_id i j)
     ∧ (∀ e1 e2, e1 ∈ all → e2 ∈ all → entry_id e1 = entry_id e2 → e1 = e2)
     ∧ ∃ s1 log1 ok1 s2 log2 ok2,
         build_knowledge_base cfg pol (fun _ => false) docs s0
         = Some (s1, log1, ok1)
         ∧ (∀ e, e ∈ all → in_place pol s1 e)
         ∧ build_knowledge_base cfg pol fails2 docs s1 = Some (s2, log2, ok2)
         ∧ s2 = s1
         ∧ size s2 = size s1).
Proof.
  split; [intros Hsane; by apply all_entries_total|].
  intros all Hall.
  pose proof (all_entries_unique_ids cfg docs all Hall) as Huniq.
  split; [|split; [done|]].
  { intros e He.
    destruct (all_entries_origin cfg docs 0 all e Hall He)
      as (i & j & d & c & x & Hd & _ & _ & ->).
    exists i, j. split; [by eapply lookup_lt_Some|done]. }
  unfold build_knowledge_base. rewrite Hall.
  destruct docs as [|doc docs].
  - injection Hall as <-.
    exists s0, [], false, s0, [], false.
    repeat split; try done. intros e He. by apply elem_of_nil in He.
  - destruct (add_batches_first_ok pol all Huniq (fun _ => false)
                (batch_starts (length all)) s0) as (st1 & -> & Hst1).
    { by destruct (batch_starts (length all)). }
    assert (∀ e, e ∈ all → in_place pol (store st1) e) as Hplace.
    { intros e He. apply Hst1; [done|]. right.
      destruct (batch_cover all e He) as (k & Hk & Hin).
      exists (batch_size * k)%nat. split; [done|]. split; [done|].
      unfold batch_of in Hin. by rewrite Nat2Z.inj_add in *. }
    pose proof (add_batches_fixed pol all fails2
                  (batch_starts (length all))
                  {| store := store st1; batch_num := None; log := [] |}
                  Hplace) as Hfix.
    exists (store st1), (log st1), true.
    destruct (add_batches pol fails2 all _ _) as [st2|st2];
      cbn [store] in Hfix.
    + exists (store st2), (log st2), false.
      rewrite Hfix. repeat split; auto.
    + exists (store st2), (log st2), true.
      rewrite Hfix. repeat split; auto.
Qed.

Lemma rebuild_leaves_store_unchanged_witness :
  ∃ all,
    all_entries Config_values 0 pages_51 = Some all
    ∧ (∀ e, e ∈ all →
         ∃ i j, (i < length pages_51)%nat ∧ entry_id e = chunk_id i j)
    ∧ (∀ e1 e2, e1 ∈ all → e2 ∈ all → entry_id e1 = entry_id e2 → e1 = e2)
    ∧ ∃ s1 log1 ok1 s2 log2 ok2,
        build_knowledge_base Config_values Overwrite (fun _ => false)
          pages_51 ∅ = Some (s1, log1, ok1)
        ∧ (∀ e, e ∈ all → in_place Overwrite s1 e)
        ∧ build_knowledge_base Config_values Overwrite
            (fun k => (k =? 1)%nat) pages_51 s1 = Some (s2, log2, ok2)
        ∧ s2 = s1
        ∧ size s2 = size s1.
Proof.
  destruct (rebuild_leaves_store_unchanged Config_values Overwrite
              (fun k => (k =? 1)%nat) pages_51 ∅) as [Hrows Hsame].
  destruct (Hrows Config_values_sane) as [all Hall].
  exists all. split; [exact Hall|]. exact (Hsame all Hall).
Defined.

(** The store after one build of the 51 sample pages holds 51 rows, and
    still 51 after a second build. *)
Lemma rebuild_count_51 :
  (fun r : Store * list Event * bool => size r.1.1)
    <$> (build_knowledge_base Config_values Overwrite (fun _ => false)
           pages_51 ∅
         ≫= fun r => build_knowledge_base Config_values Overwrite
                       (fun _ => false) pages_51 r.1.1)
  = Some 51%nat
  ∧ (fun r : Store * list Event * bool => size r.1.1)
      <$> build_knowledge_base Config_values Overwrite (fun _ => false)
            pages_51 ∅
    = Some 51%nat.
Proof. split; vm_compute; reflexivity. Qed.

End KnowledgeBaseClaims.

(** ** Retriever *)

Section RetrieverFacts.

Import Retriever.

Lemma Qle_bool_false (x y : Q) : Qle_bool x y = false → (y < x)%Q.
Proof.
  intros H. apply Qnot_le_lt. intros Hle.
  apply Qle_bool_iff in Hle. congruence.
Qed.

(** [similarity] is the non-negative part of [1 - d / 1.5]. *)
Lemma similarity_max (d : Q) :
  (similarity d == Qmax 0 (1 - d / (3 # 2)))%Q.
Proof.
  unfold similarity.
  assert ((15 # 10) == (3 # 2))%Q as E by reflexivity.
  destruct (Qle_bool (1 - d / (15 # 10)) 0) eqn:Hb.
  - apply Qle_bool_iff in Hb. rewrite E in Hb.
    symmetry. apply Q.max_l. exact Hb.
  - apply Qle_bool_false in Hb. rewrite E in Hb |- *.
    symmetry. apply Q.max_r. by apply Qlt_le_weak.
Qed.

Lemma similarity_nonneg (d : Q) : (0 <= similarity d)%Q.
Proof.
  unfold similarity.
  destruct (Qle_bool (1 - d / (15 # 10)) 0) eqn:Hb.
  - apply Qle_refl.
  - apply Qlt_le_weak. by apply Qle_bool_false.
Qed.

Lemma similarity_le_1 (d : Q) : (0 <= d)%Q → (similarity d <= 1)%Q.
Proof.
  intros Hd. unfold similarity.
  destruct (Qle_bool (1 - d / (15 # 10)) 0) eqn:Hb; [done|].
  assert (0 <= d / (15 # 10))%Q.
  { apply Qle_shift_div_l; [done|]. by rewrite Qmult_0_l. }
  lra.
Qed.

(** *** The filter loops *)

Lemma visit_cases (r : QueryResults) (t : Q) (acc : Acc) (i : nat) :
  visit r t acc i = acc
  ∨ ∃ doc, documents r !! i = Some doc
      ∧ (t <= similarity_score (doc_info r i doc))%Q
      ∧ visit r t acc i
        = {| retrieved_docs := retrieved_docs acc ++ [doc_info r i doc];
             context_parts :=
               context_parts acc ++ [context_part (doc_info r i doc)];
             total_relevance :=
               (total_relevance acc
                + similarity_score (doc_info r i doc))%Q |}.
Proof.
  unfold visit. destruct (documents r !! i) as [doc|]; [|by left].
  destruct (Qle_bool t _) eqn:Hb; [|by left].
  right. exists doc. split; [done|]. split; [|done].
  by apply Qle_bool_iff.
Qed.

(** The documents a pass keeps are those already kept and the candidates
    at or above the threshold. *)
Lemma filter_loop_docs (r : QueryResults) (t : Q) (l : list nat) :
  ∀ acc d,
    d ∈ retrieved_docs (foldl (visit r t) acc l)
    ↔ d ∈ retrieved_docs acc
      ∨ ∃ i doc, i ∈ l ∧ documents r !! i = Some doc
          ∧ d = doc_info r i doc ∧ (t <= similarity_score d)%Q.
Proof.
  induction l as [|i l IH]; intros acc d; simpl.
  - split; [by left|]. intros [?|(i & doc & Hi & _)]; [done|].
    by apply elem_of_nil in Hi.
  - rewrite IH. split.
    + intros [Hd|(j & doc & Hj & Hdoc & -> & Ht)].
      * destruct (visit_cases r t acc i) as [Hv|(doc & Hdoc & Ht & Hv)];
          rewrite Hv in Hd; [by left|].
        simpl in Hd. apply elem_of_app in Hd as [Hd|Hd]; [by left|].
        apply list_elem_of_singleton in Hd as ->.
        right. exists i, doc. split; [by left|done].
      * right. exists j, doc. split; [by right|done].
    + intros [Hd|(j & doc & Hj & Hdoc & -> & Ht)].
      * left.
        destruct (visit_cases r t acc i) as [->|(doc & Hdoc & Ht & ->)];
          [done|].
        simpl. apply elem_of_app. by left.
      * apply elem_of_cons in Hj as [->|Hj].
        -- left. unfold visit. rewrite Hdoc.
           apply Qle_bool_iff in Ht. rewrite Ht. simpl.
           apply elem_of_app. right. by apply list_elem_of_singleton.
        -- right. exists j, doc. done.
Qed.

Lemma filter_pass_docs (r : QueryResults) (t : Q) (acc : Acc)
    (d : DocInfo) :
  d ∈ retrieved_docs (filter_pass r t acc)
  ↔ d ∈ retrieved_docs acc
    ∨ ∃ i doc, documents r !! i = Some doc
        ∧ d = doc_info r i doc ∧ (t <= similarity_score d)%Q.
Proof.
  unfold filter_pass. rewrite filter_loop_docs. split.
  - intros [?|(i & doc & _ & H)]; [by left|]. right. eauto.
  - intros [?|(i & doc & Hdoc & H)]; [by left|].
    right. exists i, doc. split; [|done].
    apply elem_of_seq. apply lookup_lt_Some in Hdoc. lia.
Qed.

(** A pass that ends with no document kept has changed nothing. *)
Lemma filter_loop_empty (r : QueryResults) (t : Q) (l : list nat) :
  ∀ acc, retrieved_docs (foldl (visit r t) acc l) = [] →
         foldl (visit r t) acc l = acc.
Proof.
  induction l as [|i l IH]; intros acc H; simpl in *; [done|].
  rewrite (IH _ H) in H |- *.
  destruct (visit_cases r t acc i) as [->|(doc & _ & _ & Hv)]; [done|].
  rewrite Hv in H. simpl in H. by destruct (retrieved_docs acc).
Qed.

Lemma filter_pass_empty (r : QueryResults) (t : Q) (acc : Acc) :
  retrieved_docs (filter_pass r t acc) = [] → filter_pass r t acc = acc.
Proof. apply filter_loop_empty. Qed.

(** The context parts are the rendered kept documents, in order. *)
Lemma filter_loop_parts (r : QueryResults) (t : Q) (l : list nat) :
  ∀ acc, context_parts acc = context_part <$> retrieved_docs acc →
    context_parts (foldl (visit r t) acc l)
    = context_part <$> retrieved_docs (foldl (visit r t) acc l).
Proof.
  induction l as [|i l IH]; intros acc H; simpl; [done|].
  apply IH.
  destruct (visit_cases r t acc i) as [->|(doc & _ & _ & ->)]; [done|].
  simpl. by rewrite fmap_app, H.
Qed.

Lemma filter_passes_parts (r : QueryResults) (t : Q) :
  context_parts (filter_passes r t)
  = context_part <$> retrieved_docs (filter_passes r t).
Proof.
  assert (context_parts (filter_pass r t acc0)
          = context_part <$> retrieved_docs (filter_pass r t acc0)) as H1
    by by apply filter_loop_parts.
  unfold filter_passes.
  destruct (retrieved_docs (filter_pass r t acc0)) eqn:E; [|by rewrite E].
  destruct (Qle_bool t (1 # 10)); [by rewrite E|].
  apply filter_loop_parts. by rewrite E.
Qed.

(** Every kept document is a candidate of the answer. *)
Lemma filter_passes_docs (r : QueryResults) (t : Q) (d : DocInfo) :
  d ∈ retrieved_docs (filter_passes r t) →
  ∃ i doc, documents r !! i = Some doc ∧ d = doc_info r i doc.
Proof.
  unfold filter_passes.
  destruct (retrieved_docs (filter_pass r t acc0)) eqn:E.
  - destruct (Qle_bool t (1 # 10)).
    + rewrite E. intros H. by apply elem_of_nil in H.
    + rewrite filter_pass_docs, E.
      intros [H|(i & doc & Hdoc & -> & _)]; [by apply elem_of_nil in H|].
      eauto.
  - rewrite filter_pass_docs. simpl.
    intros [H|(i & doc & Hdoc & -> & _)]; [by apply elem_of_nil in H|].
    eauto.
Qed.

Lemma join_nonempty (sep p : text) (rest : list text) :
  p ≠ [] → Py.join sep (p :: rest) ≠ [].
Proof. destruct p, rest; simpl; done. Qed.

End RetrieverFacts.

Section RetrieverClaims.

Import Retriever.

Lemma context_part_nonempty (d : DocInfo) : context_part d ≠ [].
Proof. done. Qed.

(** A candidate above 0.1 makes the two passes keep something. *)
Lemma filter_passes_keep (r : QueryResults) (t : Q) (i : nat) (doc : text) :
  documents r !! i = Some doc →
  (1 # 10 < similarity (distance_at r i))%Q →
  retrieved_docs (filter_passes r t) ≠ [].
Proof.
  intros Hdoc Hsim. unfold filter_passes.
  destruct (retrieved_docs (filter_pass r t acc0)) eqn:E; [|by rewrite E].
  assert (∀ t', (t' <= 1 # 10)%Q →
            doc_info r i doc ∈ retrieved_docs (filter_pass r t' acc0))
    as Hin.
  { intros t' Ht'. apply filter_pass_docs. right. exists i, doc.
    split; [done|]. split; [done|]. simpl. lra. }
  destruct (Qle_bool t (1 # 10)) eqn:Hb.
  - apply Qle_bool_iff in Hb. specialize (Hin t Hb).
    rewrite E in Hin. by apply elem_of_nil in Hin.
  - rewrite (filter_pass_empty r t acc0 E).
    specialize (Hin (1 # 10) ltac:(lra)).
    intros Hnil. rewrite Hnil in Hin. by apply elem_of_nil in Hin.
Qed.



(** With the distance of every returned document at hand, every chunk
    of the bundle has its similarity computed from the distance returned
    for it. *)
Lemma bundle_scored_from_distances (cfg : Config) (r : QueryResults) :
  (length (documents r) ≤ length (distances r))%nat →
  bundle_needs_returned_distance cfg r.
Proof.
  intros Hlen d Hd. unfold retrieve_context in Hd.
  destruct (documents r) eqn:Hdocs; simpl in Hd;
    [by apply elem_of_nil in Hd|].
  apply filter_passes_docs in Hd as (i & doc & Hdoc & ->).
  rewrite <- Hdocs in Hlen |- *.
  pose proof (lookup_lt_Some _ _ _ Hdoc) as Hi.
  assert (i < length (distances r))%nat as Hlt by lia.
  destruct (lookup_lt_is_Some_2 _ _ Hlt) as [dist Hdist].
  exists i, dist. split; [done|]. split; [done|].
  cbn [similarity_score doc_info]. unfold distance_at. rewrite Hdist.
  reflexivity.
Qed.

(** C4: for every distance [d >= 0] the similarity is
    [max(0, 1 - d / 1.5)] and lies in [0, 1]; every chunk of the context
    bundle is a returned document whose similarity was computed by that
    formula before it entered, from the distance at its index (the
    default distance 1.0 where the answer holds none); and for an answer
    of the store that holds a distance for each of its documents, as the
    query with distances included gives, the similarity of every chunk of
    the bundle is computed from the distance returned for it. *)
Theorem similarity_range_and_bundle (cfg : Config) :
  (∀ d, (0 <= d)%Q →
        (similarity d == Qmax 0 (1 - d / (3 # 2)))%Q
        ∧ (0 <= similarity d)%Q ∧ (similarity d <= 1)%Q)
  ∧ (∀ ans d, d ∈ (retrieve_context cfg ans).1.2 →
       ∃ r i doc,
         ans = Results r
         ∧ documents r !! i = Some doc
         ∧ content d = doc
         ∧ similarity_score d = similarity (default 1%Q (distances r !! i))
         ∧ (0 <= similarity_score d)%Q)
  ∧ (∀ r, (length (documents r) ≤ length (distances r))%nat →
          bundle_needs_returned_distance cfg r).
Proof.
  split; [|split].
  - intros d Hd. split; [apply similarity_max|].
    split; [apply similarity_nonneg|by apply similarity_le_1].
  - intros ans d Hd. unfold retrieve_context in Hd.
    destruct ans as [| |r]; simpl in Hd; try by apply elem_of_nil in Hd.
    destruct (documents r) eqn:Hdocs; simpl in Hd;
      [by apply elem_of_nil in Hd|].
    apply filter_passes_docs in Hd as (i & doc & Hdoc & ->).
    exists r, i, doc.
    split; [done|]. split; [done|]. split; [done|]. split; [done|].
    apply similarity_nonneg.
  - intros r. apply bundle_scored_from_distances.
Qed.

Lemma similarity_range_and_bundle_witness :
  ((similarity (12 # 10) == Qmax 0 (1 - (12 # 10) / (3 # 2)))%Q
   ∧ (0 <= similarity (12 # 10))%Q ∧ (similarity (12 # 10) <= 1)%Q)
  ∧ (retrieve_context Config_values (Results results_near_miss)).1.2
    = [doc_info results_near_miss 0
         (txt "Jupiter accounts have no hidden fees.")]
  ∧ bundle_needs_returned_distance Config_values results_near_miss.
Proof.
  destruct (similarity_range_and_bundle Config_values)
    as (Hrange & _ & Hbundle).
  split; [apply Hrange; discriminate|].
  split; [reflexivity|].
  apply Hbundle. simpl. lia.
Defined.

End RetrieverClaims.

(** ** Context budgeter *)

Section BudgeterFacts.

Import Budgeter.

Variable count : text → nat.

Lemma tokens_of_nonneg (parts : list text) : 0 ≤ tokens_of count parts.
Proof. induction parts; simpl; lia. Qed.

(** The loop stops somewhere: it keeps a prefix that fits the budget and
    whose extension by the next unit does not. *)
Lemma accumulate_stops (max_tokens : Z) (parts : list text) :
  ∀ truncated current,
    ∃ k, (k ≤ length parts)%nat
      ∧ accumulate count max_tokens parts truncated current
        = truncated ++ take k parts
      ∧ (current ≤ max_tokens →
         current + tokens_of count (take k parts) ≤ max_tokens)
      ∧ ((k < length parts)%nat →
         max_tokens < current + tokens_of count (take (S k) parts)).
Proof.
  induction parts as [|p parts IH]; intros truncated current.
  - exists 0%nat. simpl. rewrite app_nil_r.
    repeat split; [lia|lia|lia].
  - cbn [accumulate].
    destruct (Z.leb_spec (current + Z.of_nat (count p)) max_tokens) as [Hle|Hgt].
    + destruct (IH (truncated ++ [p]) (current + Z.of_nat (count p)))
        as (k & Hk & -> & Hfit & Hnext).
      exists (S k). simpl. rewrite <- app_assoc.
      repeat split; [lia|lia|].
      intros Hlt. specialize (Hnext ltac:(lia)). simpl in Hnext. lia.
    + exists 0%nat. simpl. rewrite app_nil_r.
      repeat split; [lia|lia|lia].
Qed.

(** The prefix it keeps is the one whose units fit and whose next unit
    does not. *)
Lemma accumulate_prefix (max_tokens : Z) (parts : list text) :
  ∀ n truncated current,
    current + tokens_of count (take n parts) ≤ max_tokens →
    ((n < length parts)%nat →
     max_tokens < current + tokens_of count (take (S n) parts)) →
    accumulate count max_tokens parts truncated current
    = truncated ++ take n parts.
Proof.
  induction parts as [|p parts IH]; intros n truncated current Hfit Hnext.
  - simpl. by rewrite take_nil, app_nil_r.
  - cbn [accumulate]. destruct n as [|n].
    + specialize (Hnext ltac:(simpl; lia)). simpl in Hnext.
      destruct (Z.leb_spec (current + Z.of_nat (count p)) max_tokens);
        [lia|]. by rewrite take_0, app_nil_r.
    + simpl in Hfit. pose proof (tokens_of_nonneg (take n parts)).
      destruct (Z.leb_spec (current + Z.of_nat (count p)) max_tokens);
        [|lia].
      rewrite (IH n); [by rewrite <- app_assoc|lia|].
      intros Hlt. specialize (Hnext ltac:(simpl; lia)).
      simpl in Hnext. lia.
Qed.

End BudgeterFacts.

Section BudgeterClaims.

Import Budgeter.

Lemma separator_nonempty : Retriever.separator ≠ [].
Proof. done. Qed.

(** C5: [_truncate_context] returns the context unchanged when its token
    count is within the budget.  Otherwise the context is split at the
    separator into units whose join is the context, and the result is the
    join of the first [k] units, where those [k] fit the budget and the
    next unit, if there is one, would exceed it; so whenever the first [n]
    units fit and the next one does not, exactly the first [n] units are
    returned, in particular the first 4 of 10. *)
Theorem truncate_context_keeps_whole_units (count : text → nat)
    (context : text) (max_tokens : Z) :
  let parts := Py.split Retriever.separator context in
  let result := _truncate_context count context max_tokens in
  (Z.of_nat (count context) ≤ max_tokens → result = context)
  ∧ (max_tokens < Z.of_nat (count context) →
     Py.join Retriever.separator parts = context
     ∧ (∃ k, (k ≤ length parts)%nat
          ∧ result = Py.join Retriever.separator (take k parts)
          ∧ (0 ≤ max_tokens → tokens_of count (take k parts) ≤ max_tokens)
          ∧ ((k < length parts)%nat →
             max_tokens < tokens_of count (take (S k) parts)))
     ∧ (∀ n, tokens_of count (take n parts) ≤ max_tokens →
             ((n < length parts)%nat →
              max_tokens < tokens_of count (take (S n) parts)) →
             result = Py.join Retriever.separator (take n parts))
     ∧ (length parts = 10%nat →
        tokens_of count (take 4 parts) ≤ max_tokens →
        max_tokens < tokens_of count (take 5 parts) →
        result = Py.join Retriever.separator (take 4 parts))).
Proof.
  intros parts result. unfold result, _truncate_context. fold parts. split.
  - intros H. by destruct (Z.leb_spec (Z.of_nat (count context)) max_tokens);
      [|lia].
  - intros H.
    destruct (Z.leb_spec (Z.of_nat (count context)) max_tokens); [lia|].
    split; [apply join_split, separator_nonempty|].
    assert (∀ n, tokens_of count (take n parts) ≤ max_tokens →
              ((n < length parts)%nat →
               max_tokens < tokens_of count (take (S n) parts)) →
              Py.join Retriever.separator
                (accumulate count max_tokens parts [] 0)
              = Py.join Retriever.separator (take n parts)) as Hprefix.
    { intros n Hfit Hnext.
      by rewrite (accumulate_prefix count max_tokens parts n [] 0). }
    split; [|split; [done|]].
    + destruct (accumulate_stops count max_tokens parts [] 0)
        as (k & Hk & -> & Hfit & Hnext).
      exists k. split; [done|]. split; [done|]. split; [lia|done].
    + intros Hlen Hfit Hnext. apply Hprefix; [done|].
      intros _. exact Hnext.
Qed.

Lemma truncate_context_keeps_whole_units_witness :
  _truncate_context (fun t => length t) (txt "no fees") 2000 = txt "no fees"
  ∧ _truncate_context (fun t => length t) context_ten_units 9
    = Py.join Retriever.separator
        (take 4 (Py.split Retriever.separator context_ten_units)).
Proof.
  split.
  - destruct (truncate_context_keeps_whole_units (fun t => length t)
                (txt "no fees") 2000) as [Hwithin _].
    apply Hwithin. vm_compute. discriminate.
  - destruct (truncate_context_keeps_whole_units (fun t => length t)
                context_ten_units 9) as [_ Hover].
    destruct Hover as (_ & _ & _ & Hten); [vm_compute; reflexivity|].
    apply Hten; vm_compute; [reflexivity|discriminate|reflexivity].
Defined.

End BudgeterClaims.

(** ** Answer generator *)

Section GeneratorFacts.

Import Retriever Generator.

Lemma source_eqb_refl (a : SourceInfo) : source_eqb a a = true.
Proof.
  unfold source_eqb. rewrite !bool_decide_eq_true_2 by done. simpl.
  apply Qeq_bool_iff. reflexivity.
Qed.

Lemma source_eqb_spec (a b : SourceInfo) :
  source_eqb a b = true
  ↔ src_title a = src_title b ∧ src_url a = src_url b
    ∧ (src_relevance a == src_relevance b)%Q.
Proof.
  unfold source_eqb. rewrite !andb_true_iff, !bool_decide_eq_true.
  rewrite Qeq_bool_iff. tauto.
Qed.

Lemma source_eqb_sym (a b : SourceInfo) :
  source_eqb a b = true → source_eqb b a = true.
Proof.
  rewrite !source_eqb_spec. intros (-> & -> & H). by rewrite H.
Qed.

Lemma source_eqb_trans (a b c : SourceInfo) :
  source_eqb a b = true → source_eqb b c = true → source_eqb a c = true.
Proof.
  rewrite !source_eqb_spec. intros (-> & -> & H1) (-> & -> & H2).
  by rewrite H1, H2.
Qed.

(** An entry equal to [a] is in the list. *)
Lemma listed_iff (a : SourceInfo) (l : list SourceInfo) :
  existsb (source_eqb a) l = true ↔ ∃ x, x ∈ l ∧ source_eqb a x = true.
Proof.
  rewrite existsb_exists. by setoid_rewrite list_elem_of_In.
Qed.

Lemma add_source_cases (acc : list SourceInfo) (doc : DocInfo) :
  (existsb (source_eqb (source_of doc)) acc = true
   ∧ add_source acc doc = acc)
  ∨ (existsb (source_eqb (source_of doc)) acc = false
     ∧ add_source acc doc = acc ++ [source_of doc]).
Proof.
  unfold add_source. destruct (existsb _ acc); [by left|by right].
Qed.

Lemma add_source_listed (acc : list SourceInfo) (doc : DocInfo)
    (a : SourceInfo) :
  existsb (source_eqb a) acc = true →
  existsb (source_eqb a) (add_source acc doc) = true.
Proof.
  intros H. destruct (add_source_cases acc doc) as [[_ ->]|[_ ->]]; [done|].
  rewrite existsb_app, H. done.
Qed.

Lemma add_source_self (acc : list SourceInfo) (doc : DocInfo) :
  existsb (source_eqb (source_of doc)) (add_source acc doc) = true.
Proof.
  destruct (add_source_cases acc doc) as [[H ->]|[_ ->]]; [done|].
  rewrite existsb_app. simpl. rewrite source_eqb_refl.
  by rewrite orb_true_r.
Qed.

Lemma add_source_length (acc : list SourceInfo) (doc : DocInfo) :
  (length (add_source acc doc) ≤ S (length acc))%nat.
Proof.
  destruct (add_source_cases acc doc) as [[_ ->]|[_ ->]]; [lia|].
  rewrite length_app. simpl. lia.
Qed.

Lemma sources_length (docs : list DocInfo) : ∀ acc,
  (length (foldl add_source acc docs) ≤ length acc + length docs)%nat.
Proof.
  induction docs as [|d docs IH]; intros acc; simpl; [lia|].
  specialize (IH (add_source acc d)).
  pose proof (add_source_length acc d). lia.
Qed.

(** A candidate whose entry is already listed adds nothing. *)
Lemma sources_length_listed (docs : list DocInfo) : ∀ acc d,
  d ∈ docs →
  existsb (source_eqb (source_of d)) acc = true →
  (length (foldl add_source acc docs) < length acc + length docs)%nat.
Proof.
  induction docs as [|d0 docs IH]; intros acc d Hd Hl.
  - by apply elem_of_nil in Hd.
  - simpl. apply elem_of_cons in Hd as [->|Hd].
    + destruct (add_source_cases acc d0) as [[_ ->]|[Hf _]];
        [|congruence].
      pose proof (sources_length docs acc). lia.
    + specialize (IH (add_source acc d0) d Hd
                    (add_source_listed acc d0 _ Hl)).
      pose proof (add_source_length acc d0). lia.
Qed.

(** Two candidates with the same entry make the list of sources shorter
    than the list of candidates. *)
Lemma sources_length_repeated (docs : list DocInfo) : ∀ acc,
  repeated_source docs →
  (length (foldl add_source acc docs) < length acc + length docs)%nat.
Proof.
  induction docs as [|d0 docs IH];
    intros acc (i & j & d1 & d2 & Hij & H1 & H2 & Hsame).
  - by rewrite lookup_nil in H1.
  - simpl. destruct i as [|i].
    + destruct j as [|j]; [lia|]. simpl in H1, H2. injection H1 as ->.
      pose proof (add_source_self acc d1) as Hself.
      apply listed_iff in Hself as (x & Hx & Hd1x).
      assert (existsb (source_eqb (source_of d2)) (add_source acc d1)
              = true) as Hl.
      { apply listed_iff. exists x. split; [done|].
        eapply source_eqb_trans; [|exact Hd1x]. by apply source_eqb_sym. }
      pose proof (sources_length_listed docs (add_source acc d1) d2
                    (list_elem_of_lookup_2 _ _ _ H2) Hl).
      pose proof (add_source_length acc d1). lia.
    + destruct j as [|j]; [lia|]. simpl in H1, H2.
      assert (repeated_source docs) as Hrep.
      { exists i, j, d1, d2. split; [lia|done]. }
      specialize (IH (add_source acc d0) Hrep).
      pose proof (add_source_length acc d0). lia.
Qed.

(** The loop keeps the list free of repeated entries. *)
Lemma sources_distinct (docs : list DocInfo) : ∀ acc,
  distinct_sources acc → distinct_sources (foldl add_source acc docs).
Proof.
  induction docs as [|d docs IH]; intros acc Hacc; simpl; [done|].
  apply IH.
  destruct (add_source_cases acc d) as [[_ ->]|[Hf ->]]; [done|].
  assert (∀ x, x ∈ acc → source_eqb (source_of d) x = false) as Hnew.
  { intros x Hx. destruct (source_eqb (source_of d) x) eqn:E; [|done].
    assert (existsb (source_eqb (source_of d)) acc = true) as Ht
      by (apply listed_iff; eauto).
    congruence. }
  intros i j a b Hij Ha Hb Hsame. unfold same_source in Hsame.
  apply lookup_app_Some in Ha as [Ha|[Hia Ha]];
    apply lookup_app_Some in Hb as [Hb|[Hjb Hb]].
  - by apply (Hacc i j a b).
  - apply list_lookup_singleton_Some in Hb as [_ <-].
    apply source_eqb_sym in Hsame.
    rewrite Hnew in Hsame by by eapply list_elem_of_lookup_2. done.
  - apply list_lookup_singleton_Some in Ha as [_ <-].
    rewrite Hnew in Hsame by by eapply list_elem_of_lookup_2. done.
  - apply list_lookup_singleton_Some in Ha as [Hi _].
    apply list_lookup_singleton_Some in Hb as [Hj _]. lia.
Qed.

(** Every candidate has its entry in the list. *)
Lemma docs_in_sources (docs : list DocInfo) : ∀ acc d,
  d ∈ docs →
  existsb (source_eqb (source_of d)) (foldl add_source acc docs) = true.
Proof.
  assert (∀ docs acc a,
            existsb (source_eqb a) acc = true →
            existsb (source_eqb a) (foldl add_source acc docs) = true)
    as Hkeep.
  { induction docs0 as [|d0 docs0 IH]; intros acc a Ha; simpl; [done|].
    apply IH. by apply add_source_listed. }
  induction docs as [|d0 docs IH]; intros acc d Hd; simpl.
  - by apply elem_of_nil in Hd.
  - apply elem_of_cons in Hd as [->|Hd]; [|by apply IH].
    apply Hkeep, add_source_self.
Qed.

(** The list is made of entries of the candidates, in their order. *)
Lemma sources_sublist (docs : list DocInfo) : ∀ acc,
  ∃ l, foldl add_source acc docs = acc ++ l
       ∧ l `sublist_of` (source_of <$> docs).
Proof.
  induction docs as [|d docs IH]; intros acc; simpl.
  - exists []. by rewrite app_nil_r.
  - destruct (IH (add_source acc d)) as (l & -> & Hl).
    destruct (add_source_cases acc d) as [[_ ->]|[_ ->]].
    + exists l. split; [done|]. by apply sublist_cons.
    + exists (source_of d :: l). rewrite <- app_assoc.
      split; [done|]. by apply sublist_skip.
Qed.

End GeneratorFacts.

(** ** Orchestrator *)

Section OrchestratorFacts.

Import Retriever Generator Orchestrator.

Variable w : World.
Variable query : text.
Variable session_id : option text.

Lemma generate_response_sources (context : text) (docs : list DocInfo) :
  sources (generate_response (count_tokens w) (llm w) query context docs)
  = sources_of docs
  ∨ sources (generate_response (count_tokens w) (llm w) query context docs)
    = [].
Proof.
  unfold generate_response. destruct (llm w _); [by right|by left].
Qed.

(** The dictionary of a success: eight fields, and [conversation_id]
    after them when the conversation was logged. *)
Lemma answer_shape (attempt : nat) (context : text) (docs : list DocInfo)
    (avg : Q) :
  let g := generate_response (count_tokens w) (llm w) query context docs in
  ∃ extra,
    answer w query session_id attempt context docs avg
    = [("query", VText query);
       ("response", VText (response g));
       ("sources", VSources (sources g));
       ("relevance_score", VFloat avg);
       ("response_time", VFloat (elapsed w attempt));
       ("context_length", VInt (context_used g));
       ("tokens_used", VInt (tokens_used g));
       ("num_sources", VInt (Py.len docs))] ++ extra.
Proof.
  intros g. unfold answer. fold g.
  destruct (truthy session_id) as [sid|]; [|by exists []].
  destruct (log_conversation w _ _ _ _ _ _) as [cid|e];
    [by eexists [_]|by exists []].
Qed.

(** Every result is a success built on some attempt from a non-empty
    context, or one of the three fixed fallbacks. *)
Lemma attempts_cases (todo : list nat) : ∀ calls,
  let r := (attempts w query session_id todo calls).2 in
  (∃ k context docs avg,
      k ∈ todo ∧ retrieve w k = Returned (context, docs, avg)
      ∧ context ≠ []
      ∧ r = answer w query session_id k context docs avg)
  ∨ (∃ k, r = no_context_result w query k)
  ∨ (∃ k e, r = error_result w query k e)
  ∨ r = unexpected_result w query.
Proof.
  induction todo as [|attempt todo IH]; intros calls; cbn [attempts].
  - right. right. by right.
  - assert (∀ c,
      (let r := (attempts w query session_id todo c).2 in
       (∃ k context docs avg,
           k ∈ attempt :: todo
           ∧ retrieve w k = Returned (context, docs, avg)
           ∧ context ≠ []
           ∧ r = answer w query session_id k context docs avg)
       ∨ (∃ k, r = no_context_result w query k)
       ∨ (∃ k e, r = error_result w query k e)
       ∨ r = unexpected_result w query)) as IH'.
    { intros c. destruct (IH c) as [(k & ctx & docs & avg & Hk & H)|H].
      - left. exists k, ctx, docs, avg. split; [by right|done].
      - by right. }
    destruct (retrieve w attempt) as [[[context docs] avg]|e] eqn:Hr.
    + destruct context as [|c context].
      * destruct (attempt =? max_attempts)%nat; [|apply IH'].
        right. left. by exists attempt.
      * left. exists attempt, (c :: context), docs, avg.
        split; [by left|done].
    + destruct (attempt =? max_attempts)%nat; [|apply IH'].
      right. right. left. by exists attempt, e.
Qed.

Lemma answer_fields (attempt : nat) (context : text) (docs : list DocInfo)
    (avg : Q) :
  let r := answer w query session_id attempt context docs avg in
  has_fields core_fields r = true
  ∧ has_key "tokens_used" r = true
  ∧ has_key "num_sources" r = true.
Proof.
  intros r. unfold r.
  destruct (answer_shape attempt context docs avg) as [extra ->].
  repeat split; reflexivity.
Qed.

(** The three fallbacks hold the six core fields and neither
    [tokens_used] nor [num_sources]. *)
Lemma fallback_fields (r : Result) :
  (∃ k, r = no_context_result w query k)
  ∨ (∃ k e, r = error_result w query k e)
  ∨ r = unexpected_result w query →
  has_fields core_fields r = true
  ∧ has_key "tokens_used" r = false
  ∧ has_key "num_sources" r = false.
Proof.
  intros [[k ->]|[(k & e & ->)| ->]]; repeat split; reflexivity.
Qed.

(** A result with [num_sources] is a success. *)
Lemma num_sources_success :
  let r := (ask_question w query session_id).2 in
  has_key "num_sources" r = true →
  ∃ k context docs avg,
    retrieve w k = Returned (context, docs, avg)
    ∧ context ≠ []
    ∧ r = answer w query session_id k context docs avg.
Proof.
  intros r Hkey. unfold r, ask_question in *.
  destruct (attempts_cases (seq 1 max_attempts) 0)
    as [(k & ctx & docs & avg & _ & Hr & Hne & Heq)|Hfb].
  - by exists k, ctx, docs, avg.
  - apply fallback_fields in Hfb as (_ & _ & Hno). congruence.
Qed.

(** The number of retrievals and the three results that are returned:
    the answer built on the context of the last retrieval, or, after the
    third retrieval only, one of two fallbacks. *)
Lemma outcome_cases :
  let n := (ask_question w query session_id).1 in
  let r := (ask_question w query session_id).2 in
  (1 ≤ n ≤ 3)%nat
  ∧ ((∃ context docs avg,
        retrieve w n = Returned (context, docs, avg) ∧ context ≠ []
        ∧ r = answer w query session_id n context docs avg)
     ∨ (n = 3%nat
        ∧ (∃ docs avg, retrieve w 3 = Returned ([], docs, avg))
        ∧ r = no_context_result w query 3)
     ∨ (n = 3%nat
        ∧ ∃ e, retrieve w 3 = Raised e ∧ r = error_result w query 3 e)).
Proof.
  unfold ask_question. cbn [seq max_attempts attempts].
  destruct (retrieve w 1) as [[[c1 d1] a1]|e1] eqn:H1;
    [destruct c1 as [|x1 c1]|];
    cbn [Nat.eqb max_attempts attempts].
  2: { cbn [fst snd]. split; [lia|]. left. exists (x1 :: c1), d1, a1.
       rewrite ?H1. split; [reflexivity|]. split; [discriminate|reflexivity]. }
  all: destruct (retrieve w 2) as [[[c2 d2] a2]|e2] eqn:H2;
    [destruct c2 as [|x2 c2]|];
    cbn [Nat.eqb max_attempts attempts].
  2, 5: cbn [fst snd]; (split; [lia|]); left; exists (x2 :: c2), d2, a2;
    rewrite ?H2; (split; [reflexivity|]);
    (split; [discriminate|reflexivity]).
  all: destruct (retrieve w 3) as [[[c3 d3] a3]|e3] eqn:H3;
    [destruct c3 as [|x3 c3]|];
    cbn [fst snd Nat.eqb max_attempts attempts]; (split; [lia|]).
  2, 5, 8, 11: left; exists (x3 :: c3), d3, a3; rewrite ?H3;
    (split; [reflexivity|]); (split; [discriminate|reflexivity]).
  1, 3, 5, 7: right; left; (split; [reflexivity|]);
    (split; [exists d3, a3; by rewrite ?H3|reflexivity]).
  all: right; right; (split; [reflexivity|]); exists e3;
    (split; [by rewrite ?H3|reflexivity]).
Qed.

End OrchestratorFacts.

Section OrchestratorClaims.

Import Retriever Generator Orchestrator.

(** C1: when every retrieval returns an empty context, [ask_question]
    makes exactly 3 retrievals and returns the fixed result of the
    no-context outcome, whose relevance score is 0.0 and whose sources are
    empty; and on an attempt that is not the last, an empty context sends
    the loop to the next retrieval. *)
Theorem empty_context_ends_after_three_attempts (w : World) (query : text)
    (session_id : option text) :
  ((∀ k, ∃ docs avg, retrieve w k = Returned ([], docs, avg)) →
   ask_question w query session_id = (3%nat, no_context_result w query 3)
   ∧ get "response" (ask_question w query session_id).2
     = Some (VText no_context_message)
   ∧ get "relevance_score" (ask_question w query session_id).2
     = Some (VFloat 0)
   ∧ get "sources" (ask_question w query session_id).2
     = Some (VSources []))
  ∧ (∀ attempt rest calls docs avg,
       retrieve w attempt = Returned ([], docs, avg) →
       attempt ≠ max_attempts →
       attempts w query session_id (attempt :: rest) calls
       = attempts w query session_id rest (S calls)).
Proof.
  split.
  - intros Hempty.
    assert (ask_question w query session_id
            = (3%nat, no_context_result w query 3)) as Heq.
    { unfold ask_question. cbn [seq max_attempts attempts].
      destruct (Hempty 1%nat) as (d1 & a1 & ->).
      destruct (Hempty 2%nat) as (d2 & a2 & ->).
      destruct (Hempty 3%nat) as (d3 & a3 & ->).
      reflexivity. }
    rewrite Heq. repeat split; reflexivity.
  - intros attempt rest calls docs avg Hr Hne. cbn [attempts]. rewrite Hr.
    destruct (Nat.eqb_spec attempt max_attempts); [done|reflexivity].
Qed.

Lemma empty_context_ends_after_three_attempts_witness :
  (ask_question world_empty (txt "What are the fees?") None
   = (3%nat, no_context_result world_empty (txt "What are the fees?") 3)
   ∧ get "response" (ask_question world_empty (txt "What are the fees?")
                       None).2
     = Some (VText no_context_message)
   ∧ get "relevance_score"
       (ask_question world_empty (txt "What are the fees?") None).2
     = Some (VFloat 0)
   ∧ get "sources"
       (ask_question world_empty (txt "What are the fees?") None).2
     = Some (VSources []))
  ∧ attempts world_empty (txt "What are the fees?") None [1; 2; 3]%nat 0
    = attempts world_empty (txt "What are the fees?") None [2; 3]%nat 1.
Proof.
  destruct (empty_context_ends_after_three_attempts world_empty
              (txt "What are the fees?") None) as [Hall Hloop].
  split.
  - apply Hall. intros k. by exists [], 0%Q.
  - apply (Hloop 1%nat [2; 3]%nat 0%nat [] 0%Q); [reflexivity|].
    unfold max_attempts. lia.
Defined.

(** C6, as stated, fails on the no-context outcome: the result returned
    when no context is found has neither [tokens_used] nor
    [num_sources]. *)
Lemma no_context_result_lacks_fields :
  ¬ has_fields all_fields
      (ask_question world_empty (txt "What are the fees?") None).2 = true.
Proof. vm_compute. discriminate. Qed.

(** C6 (amended): [ask_question] returns a result for every behaviour of
    the services it calls, and every result holds the fields [query],
    [response], [sources], [relevance_score], [response_time] and
    [context_length]; [tokens_used] and [num_sources] are present
    together, and exactly in the results of the success outcome. *)
Theorem results_hold_core_fields (w : World) (query : text)
    (session_id : option text) :
  let r := (ask_question w query session_id).2 in
  has_fields core_fields r = true
  ∧ has_key "tokens_used" r = has_key "num_sources" r
  ∧ (has_key "num_sources" r = true
     ↔ ∃ k context docs avg,
         retrieve w k = Returned (context, docs, avg)
         ∧ context ≠ []
         ∧ r = answer w query session_id k context docs avg).
Proof.
  intros r. unfold r, ask_question.
  destruct (attempts_cases w query session_id (seq 1 max_attempts) 0)
    as [(k & ctx & docs & avg & _ & Hr & Hne & Heq)|Hfb].
  - rewrite Heq.
    destruct (answer_fields w query session_id k ctx docs avg)
      as (Hcore & -> & ->).
    split; [done|]. split; [done|]. split; [|done].
    intros _. by exists k, ctx, docs, avg.
  - apply fallback_fields in Hfb as (Hcore & Hno1 & Hno2).
    rewrite Hno1, Hno2. split; [done|]. split; [done|]. split; [done|].
    intros (k & ctx & docs & avg & Hr & Hne & Heq).
    rewrite Heq in Hno2.
    destruct (answer_fields w query session_id k ctx docs avg)
      as (_ & _ & Hyes).
    cbv zeta in Hyes. congruence.
Qed.

Lemma results_hold_core_fields_witness :
  has_fields core_fields
    (ask_question world_same_page_twice (txt "What are the fees?")
       (Some (txt "session-1"))).2 = true
  ∧ has_key "tokens_used"
      (ask_question world_same_page_twice (txt "What are the fees?")
         (Some (txt "session-1"))).2
    = has_key "num_sources"
        (ask_question world_same_page_twice (txt "What are the fees?")
           (Some (txt "session-1"))).2
  ∧ ∃ k context docs avg,
      retrieve world_same_page_twice k = Returned (context, docs, avg)
      ∧ context ≠ []
      ∧ (ask_question world_same_page_twice (txt "What are the fees?")
           (Some (txt "session-1"))).2
        = answer world_same_page_twice (txt "What are the fees?")
            (Some (txt "session-1")) k context docs avg.
Proof.
  destruct (results_hold_core_fields world_same_page_twice
              (txt "What are the fees?") (Some (txt "session-1")))
    as (Hcore & Hboth & Hiff).
  split; [exact Hcore|]. split; [exact Hboth|].
  apply Hiff. vm_compute. reflexivity.
Defined.



(** In that sample the two candidates give one source: [num_sources] is 2
    and the list of sources has one entry. *)
Lemma same_page_twice_counts :
  get "num_sources"
    (ask_question world_same_page_twice (txt "What are the fees?") None).2
  = Some (VInt 2)
  ∧ (fun v => match v with VSources l => length l | _ => 0%nat end)
      <$> get "sources"
            (ask_question world_same_page_twice (txt "What are the fees?")
               None).2
    = Some 1%nat.
Proof. split; vm_compute; reflexivity. Qed.

End OrchestratorClaims.

(** * Further properties of the engine *)

(** ** Chunker: size and origin of the chunks *)

Section ChunkerMore.

Import Chunker.

Lemma strip_infix (s : text) : ∃ p q, s = p ++ Py.strip s ++ q.
Proof.
  destruct (lstrip_suffix s) as [p Hp].
  destruct (rstrip_prefix (Py.lstrip s)) as [q Hq].
  exists p, q. unfold Py.strip. by rewrite <- Hq.
Qed.

Lemma strip_length (s : text) : (length (Py.strip s) ≤ length s)%nat.
Proof.
  destruct (strip_infix s) as (p & q & H).
  rewrite H at 2. rewrite !length_app. lia.
Qed.

Lemma slice_infix {A} (s : list A) (a b : Z) :
  ∃ p q, s = p ++ Py.slice s a b ++ q.
Proof.
  unfold Py.slice.
  set (m := Z.to_nat _). set (n := Z.to_nat _).
  exists (take n s), (drop m (drop n s)).
  by rewrite take_drop, take_drop.
Qed.

Lemma slice_length {A} (s : list A) (a b : Z) :
  0 ≤ a → a ≤ b → Py.len (Py.slice s a b) ≤ b - a.
Proof.
  intros Ha Hb. unfold Py.len, Py.slice, Py.slice_bound.
  destruct (Z.ltb_spec a 0); [lia|].
  destruct (Z.ltb_spec b 0); [lia|].
  rewrite length_take, length_drop. lia.
Qed.

(** With a positive chunk size the cut lies after the start. *)
Lemma cut_point_after_start (cfg : Config) (content : text) (start : Z) :
  0 < CHUNK_SIZE cfg → start < cut_point cfg content start.
Proof.
  intros Hcs. unfold cut_point.
  assert (0 ≤ CHUNK_SIZE cfg / 2) by (apply Z.div_pos; lia).
  destruct (_ <? _); [|lia].
  pose proof (search_back_spec content
    (Z.to_nat (start + CHUNK_SIZE cfg - search_bound cfg start))
    (start + CHUNK_SIZE cfg)) as Hs.
  destruct (search_back content _ _) as [e'|]; [|lia].
  destruct Hs as (k & Hk & -> & _). unfold search_bound in Hk. lia.
Qed.

(** The cut is never more than one character beyond the nominal one. *)
Lemma cut_point_upper (cfg : Config) (content : text) (start : Z) :
  cut_point cfg content start ≤ start + CHUNK_SIZE cfg + 1.
Proof.
  unfold cut_point. destruct (_ <? _); [|lia].
  pose proof (search_back_spec content
    (Z.to_nat (start + CHUNK_SIZE cfg - search_bound cfg start))
    (start + CHUNK_SIZE cfg)) as Hs.
  destruct (search_back content _ _) as [e'|]; [|lia].
  destruct Hs as (k & _ & -> & _). lia.
Qed.

(** A property of the pieces, kept along the starts the loop visits. *)
Lemma chunk_loop_pieces (cfg : Config) (content : text)
    (P : text → Prop) (I : Z → Prop) :
  (∀ start, I start →
     P (Py.strip (Py.slice content start (cut_point cfg content start)))
     ∧ I (cut_point cfg content start - CHUNK_OVERLAP cfg)) →
  ∀ fuel start chunks r,
    I start → Forall P chunks →
    chunk_loop cfg content fuel start chunks = Some r → Forall P r.
Proof.
  intros Hstep. induction fuel as [|fuel IH]; intros start chunks r HI Hall;
    simpl; [done|].
  destruct (start <? Py.len content); [|by intros [= <-]].
  destruct (Hstep start HI) as [HP HI'].
  assert (Forall P (keep_chunk
            (Py.strip (Py.slice content start (cut_point cfg content start)))
            chunks)) as Hk.
  { unfold keep_chunk. destruct (_ && _); [|done].
    apply Forall_app. split; [done|by apply Forall_singleton]. }
  destruct (_ <=? _); [by intros [= <-]|].
  by apply IH.
Qed.

(** A slice is never longer than the distance between its bounds, but
    for a start counted from the left and an end counted from the right. *)
Lemma slice_length_max {A} (s : list A) (a b : Z) :
  a < 0 ∨ 0 ≤ b → Py.len (Py.slice s a b) ≤ Z.max 0 (b - a).
Proof.
  intros Hab. unfold Py.len, Py.slice, Py.slice_bound.
  destruct (Z.ltb_spec a 0); destruct (Z.ltb_spec b 0);
    rewrite length_take, length_drop; lia.
Qed.

(** With a chunk size that is not negative the cut is not before the
    start. *)
Lemma cut_point_not_before_start (cfg : Config) (content : text)
    (start : Z) :
  0 ≤ CHUNK_SIZE cfg → start ≤ cut_point cfg content start.
Proof.
  intros Hcs. unfold cut_point.
  assert (0 ≤ CHUNK_SIZE cfg / 2) by (apply Z.div_pos; lia).
  destruct (_ <? _); [|lia].
  pose proof (search_back_spec content
    (Z.to_nat (start + CHUNK_SIZE cfg - search_bound cfg start))
    (start + CHUNK_SIZE cfg)) as Hs.
  destruct (search_back content _ _) as [e'|]; [|lia].
  destruct Hs as (k & Hk & -> & _). unfold search_bound in Hk. lia.
Qed.

(** A property of the chunks that are kept, those of more than 100
    characters. *)
Lemma chunk_loop_kept (cfg : Config) (content : text) (P : text → Prop) :
  (∀ start,
     100 < Py.len (Py.strip (Py.slice content start
                               (cut_point cfg content start))) →
     P (Py.strip (Py.slice content start (cut_point cfg content start)))) →
  ∀ fuel start chunks r,
    Forall P chunks →
    chunk_loop cfg content fuel start chunks = Some r → Forall P r.
Proof.
  intros Hstep. induction fuel as [|fuel IH]; intros start chunks r Hall;
    simpl; [done|].
  destruct (start <? Py.len content); [|by intros [= <-]].
  assert (Forall P (keep_chunk
            (Py.strip (Py.slice content start (cut_point cfg content start)))
            chunks)) as Hk.
  { unfold keep_chunk.
    destruct (negb _ && (100 <? _)) eqn:Hkeep; [|done].
    apply andb_true_iff in Hkeep as [_ Hlong%Z.ltb_lt].
    apply Forall_app. split; [done|].
    apply Forall_singleton. by apply Hstep. }
  destruct (_ <=? _); [by intros [= <-]|].
  by apply IH.
Qed.

(** With a chunk size that is not negative, and whatever the overlap, no
    chunk is longer than the chunk size plus one character. *)
Theorem chunk_length_bound (cfg : Config) (content : text)
    (chunks : list text) :
  0 ≤ CHUNK_SIZE cfg →
  _chunk_content cfg content = Some chunks →
  Forall (fun c => Py.len c ≤ CHUNK_SIZE cfg + 1) chunks.
Proof.
  intros Hcs. unfold _chunk_content.
  destruct (Z.leb_spec (Py.len content) (CHUNK_SIZE cfg)).
  - intros [= <-]. apply Forall_singleton. lia.
  - apply (chunk_loop_kept cfg content); [|done].
    intros start Hlong.
    pose proof (strip_length
      (Py.slice content start (cut_point cfg content start))).
    pose proof (cut_point_not_before_start cfg content start Hcs).
    pose proof (slice_length_max content start
                  (cut_point cfg content start) ltac:(lia)).
    pose proof (cut_point_upper cfg content start).
    unfold Py.len in *. lia.
Qed.

Lemma chunk_length_bound_witness :
  Forall (fun c => Py.len c ≤ CHUNK_SIZE config_wide_overlap + 1)
    [replicate 1000 "a"%char; replicate 1000 "a"%char;
     replicate 1000 "a"%char; replicate 800 "a"%char;
     replicate 400 "a"%char].
Proof.
  apply (chunk_length_bound config_wide_overlap content_one_letter).
  - vm_compute. discriminate.
  - vm_compute. reflexivity.
Defined.

(** The bound needs the chunk size not to be negative: with the size -1
    the end of the first slice counts from the right, and the chunk is
    the content without its last character. *)
Lemma negative_chunk_size_exceeds_bound :
  _chunk_content config_negative (replicate 200 "a"%char)
  = Some [replicate 199 "a"%char].
Proof. vm_compute. reflexivity. Qed.

(** Every chunk is a run of consecutive characters of the content. *)
Theorem chunk_is_piece_of_content (cfg : Config) (content : text)
    (chunks : list text) :
  _chunk_content cfg content = Some chunks →
  Forall (fun c => ∃ p q, content = p ++ c ++ q) chunks.
Proof.
  unfold _chunk_content. destruct (_ <=? _).
  - intros [= <-]. apply Forall_singleton. exists [], [].
    by rewrite app_nil_r.
  - apply (chunk_loop_pieces cfg content _ (fun _ => True)); [|done|done].
    intros start _. split; [|done].
    destruct (slice_infix content start (cut_point cfg content start))
      as (p & q & Hs).
    destruct (strip_infix
                (Py.slice content start (cut_point cfg content start)))
      as (p' & q' & Hst).
    exists (p ++ p'), (q' ++ q).
    rewrite Hs at 1. rewrite Hst at 1. by rewrite <- !app_assoc.
Qed.

Lemma chunk_is_piece_of_content_witness :
  Forall (fun c => ∃ p q, content_boundary_at_900 = p ++ c ++ q)
    [replicate 900 "a"%char ++ ["."%char];
     replicate 199 "a"%char ++ txt ". " ++ replicate 199 "a"%char].
Proof.
  apply (chunk_is_piece_of_content Config_values).
  vm_compute. reflexivity.
Defined.

End ChunkerMore.

(** ** Retriever: order, thresholds and aggregate relevance *)

Section RetrieverMore.

Import Retriever.

Lemma omap_seq_imap {A B} (g : nat → A → B) (l : list A) :
  ∀ k (h : nat → option B),
    (∀ i x, l !! i = Some x → h (k + i)%nat = Some (g (k + i)%nat x)) →
    omap h (seq k (length l)) = imap (fun i => g (k + i)%nat) l.
Proof.
  induction l as [|x l IH]; intros k h Hh; [done|].
  pose proof (Hh 0%nat x eq_refl) as H0. rewrite Nat.add_0_r in H0.
  simpl. rewrite H0, Nat.add_0_r. f_equal.
  transitivity (imap (fun i => g (S k + i)%nat) l).
  - apply (IH (S k) h). intros i y Hy. specialize (Hh (S i) y Hy).
    by replace (k + S i)%nat with (S k + i)%nat in Hh by lia.
  - apply imap_ext. intros i y _. simpl. f_equal. lia.
Qed.

(** The documents a loop keeps, as a filter of the candidates it
    visits. *)
Lemma filter_loop_filter (r : QueryResults) (t : Q) (l : list nat) :
  ∀ acc,
    retrieved_docs (foldl (visit r t) acc l)
    = retrieved_docs acc
      ++ List.filter (fun d => Qle_bool t (similarity_score d))
           (omap (fun i => doc_info r i <$> documents r !! i) l).
Proof.
  induction l as [|i l IH]; intros acc; simpl; [by rewrite app_nil_r|].
  rewrite IH. unfold visit.
  destruct (documents r !! i) as [doc|]; simpl; [|done].
  destruct (Qle_bool t (similarity (distance_at r i))); simpl; [|done].
  by rewrite <- app_assoc.
Qed.

(** One pass keeps the candidates at or above the threshold, in the
    store's order. *)
Lemma filter_pass_filter (r : QueryResults) (t : Q) :
  retrieved_docs (filter_pass r t acc0)
  = List.filter (fun d => Qle_bool t (similarity_score d)) (candidates r).
Proof.
  unfold filter_pass. rewrite filter_loop_filter. simpl. f_equal.
  unfold candidates.
  rewrite (omap_seq_imap (doc_info r) (documents r) 0); [done|].
  intros i x Hx. simpl. by rewrite Hx.
Qed.

Lemma filter_sublist {A} (p : A → bool) (l : list A) :
  sublist (List.filter p l) l.
Proof.
  induction l as [|x l IH]; simpl; [constructor|].
  destruct (p x); by constructor.
Qed.

Lemma filter_sublist_mono {A} (p q : A → bool) (l : list A) :
  (∀ x, p x = true → q x = true) →
  sublist (List.filter p l) (List.filter q l).
Proof.
  intros Hpq. induction l as [|x l IH]; simpl; [constructor|].
  destruct (p x) eqn:Hp.
  - rewrite (Hpq x Hp). by constructor.
  - destruct (q x); [by constructor|done].
Qed.

(** The retrieved documents are candidates of the store, in the order
    in which the store ranked them. *)
Theorem retrieved_docs_keep_store_order (cfg : Config) (r : QueryResults) :
  sublist (retrieve_context cfg (Results r)).1.2 (candidates r).
Proof.
  unfold retrieve_context.
  destruct (documents r) eqn:Hdocs; [apply sublist_nil_l|]. cbn [fst snd].
  unfold filter_passes.
  destruct (retrieved_docs (filter_pass r (effective_threshold cfg) acc0))
    eqn:E.
  - destruct (Qle_bool _ _); [rewrite E; apply sublist_nil_l|].
    rewrite (filter_pass_empty r _ acc0 E), filter_pass_filter.
    apply filter_sublist.
  - rewrite filter_pass_filter. apply filter_sublist.
Qed.

(** Within one pass, lowering the threshold never loses a candidate. *)
Theorem filter_pass_monotone (r : QueryResults) (t1 t2 : Q) :
  (t2 <= t1)%Q →
  sublist (retrieved_docs (filter_pass r t1 acc0))
    (retrieved_docs (filter_pass r t2 acc0)).
Proof.
  intros Ht. rewrite !filter_pass_filter. apply filter_sublist_mono.
  intros d Hd. apply Qle_bool_iff in Hd. apply Qle_bool_iff. lra.
Qed.

Lemma filter_pass_monotone_witness :
  sublist (retrieved_docs (filter_pass results_three (8 # 10) acc0))
    (retrieved_docs (filter_pass results_three (3 # 10) acc0)).
Proof. apply filter_pass_monotone. discriminate. Defined.

(** The two passes together do lose candidates when the threshold is
    lowered: at 0.9 the relaxation keeps all three sample documents, at
    0.5 the first pass keeps two. *)
Lemma filter_passes_not_monotone :
  length (retrieved_docs (filter_passes results_three (9 # 10))) = 3%nat
  ∧ length (retrieved_docs (filter_passes results_three (5 # 10))) = 2%nat.
Proof. split; vm_compute; reflexivity. Qed.

(** Every retrieved document reaches the effective threshold, or the
    relaxed threshold 0.1 in case no candidate reaches the effective
    one. *)
Theorem retrieved_docs_reach_threshold (cfg : Config) (r : QueryResults)
    (d : DocInfo) :
  d ∈ (retrieve_context cfg (Results r)).1.2 →
  (effective_threshold cfg <= similarity_score d)%Q
  ∨ ((1 # 10 <= similarity_score d)%Q
     ∧ (1 # 10 < effective_threshold cfg)%Q
     ∧ ∀ c, c ∈ candidates r →
            (similarity_score c < effective_threshold cfg)%Q).
Proof.
  unfold retrieve_context.
  destruct (documents r) eqn:Hdocs; cbn [fst snd];
    [intros H; by apply elem_of_nil in H|].
  unfold filter_passes.
  destruct (retrieved_docs (filter_pass r (effective_threshold cfg) acc0))
    eqn:E.
  - destruct (Qle_bool _ (1 # 10)) eqn:Hb;
      [rewrite E; intros H; by apply elem_of_nil in H|].
    rewrite (filter_pass_empty r _ acc0 E), filter_pass_filter.
    intros Hd. apply list_elem_of_In, filter_In in Hd as [_ Hd].
    right. split; [by apply Qle_bool_iff|]. split; [by apply Qle_bool_false|].
    intros c Hc. rewrite filter_pass_filter in E.
    destruct (Qle_bool (effective_threshold cfg) (similarity_score c))
      eqn:Hcb; [|by apply Qle_bool_false].
    assert (In c (List.filter
                    (fun d => Qle_bool (effective_threshold cfg)
                                (similarity_score d)) (candidates r))) as Hin
      by (apply filter_In; split; [by apply list_elem_of_In|done]).
    rewrite E in Hin. done.
  - rewrite filter_pass_filter.
    intros Hd. apply list_elem_of_In, filter_In in Hd as [_ Hd].
    left. by apply Qle_bool_iff.
Qed.

Lemma retrieved_docs_reach_threshold_witness :
  (effective_threshold Config_values
   <= similarity_score
        (doc_info results_near_miss 0
           (txt "Jupiter accounts have no hidden fees.")))%Q
  ∨ ((1 # 10 <= similarity_score
                  (doc_info results_near_miss 0
                     (txt "Jupiter accounts have no hidden fees.")))%Q
     ∧ (1 # 10 < effective_threshold Config_values)%Q
     ∧ ∀ c, c ∈ candidates results_near_miss →
            (similarity_score c < effective_threshold Config_values)%Q).
Proof.
  apply (retrieved_docs_reach_threshold Config_values results_near_miss).
  vm_compute. apply list_elem_of_singleton. reflexivity.
Defined.

(** The context is the join of the rendered retrieved documents, and it
    is empty exactly when no document was retrieved. *)
Theorem context_renders_retrieved_docs (cfg : Config) (answer : StoreAnswer) :
  (retrieve_context cfg answer).1.1
  = Py.join separator (context_part <$> (retrieve_context cfg answer).1.2)
  ∧ ((retrieve_context cfg answer).1.1 = []
     ↔ (retrieve_context cfg answer).1.2 = []).
Proof.
  assert ((retrieve_context cfg answer).1.1
          = Py.join separator
              (context_part <$> (retrieve_context cfg answer).1.2)) as Hctx.
  { unfold retrieve_context. destruct answer as [| |r]; try done.
    destruct (documents r); [done|]. cbn [fst snd].
    by rewrite filter_passes_parts. }
  split; [done|]. rewrite Hctx.
  destruct ((retrieve_context cfg answer).1.2) as [|d ds]; [done|].
  rewrite fmap_cons. split; [|done].
  intros H. by apply join_nonempty in H; [|apply context_part_nonempty].
Qed.

Lemma score_sum_snoc (docs : list DocInfo) (d : DocInfo) :
  (score_sum (docs ++ [d]) == score_sum docs + similarity_score d)%Q.
Proof.
  induction docs as [|x docs IH]; simpl; [lra|]. rewrite IH. lra.
Qed.

(** The running total is the sum of the scores of the kept documents. *)
Lemma filter_loop_total (r : QueryResults) (t : Q) (l : list nat) :
  ∀ acc,
    (total_relevance acc == score_sum (retrieved_docs acc))%Q →
    (total_relevance (foldl (visit r t) acc l)
     == score_sum (retrieved_docs (foldl (visit r t) acc l)))%Q.
Proof.
  induction l as [|i l IH]; intros acc H; simpl; [done|].
  apply IH.
  destruct (visit_cases r t acc i) as [->|(doc & _ & _ & ->)]; [done|].
  simpl. rewrite score_sum_snoc, H. reflexivity.
Qed.

Lemma filter_passes_total (r : QueryResults) (t : Q) :
  (total_relevance (filter_passes r t)
   == score_sum (retrieved_docs (filter_passes r t)))%Q.
Proof.
  assert (total_relevance (filter_pass r t acc0)
          == score_sum (retrieved_docs (filter_pass r t acc0)))%Q as H1
    by (apply filter_loop_total; reflexivity).
  unfold filter_passes.
  destruct (retrieved_docs (filter_pass r t acc0)) eqn:E; [|by rewrite E].
  destruct (Qle_bool t (1 # 10)); [by rewrite E|].
  apply filter_loop_total. by rewrite E.
Qed.

Lemma score_sum_bounds (docs : list DocInfo) :
  Forall (fun d => (0 <= similarity_score d)%Q
                   ∧ (similarity_score d <= 1)%Q) docs →
  (0 <= score_sum docs)%Q ∧ (score_sum docs <= inject_Z (Py.len docs))%Q.
Proof.
  induction 1 as [|d docs [Hd0 Hd1] _ [IH0 IH1]]; simpl.
  - split; apply Qle_refl.
  - split; [lra|]. unfold Py.len in *. simpl length.
    rewrite Nat2Z.inj_succ. unfold Z.succ. rewrite inject_Z_plus.
    change (inject_Z 1) with 1%Q. lra.
Qed.

Lemma score_sum_nonneg (docs : list DocInfo) :
  Forall (fun d => (0 <= similarity_score d)%Q) docs →
  (0 <= score_sum docs)%Q.
Proof. induction 1 as [|d docs Hd _ IH]; simpl; lra. Qed.

(** The aggregate relevance is the mean of the similarity scores of the
    retrieved documents (0 when there is none); it is never negative, and
    at most 1 when no returned distance is negative. *)
Theorem aggregate_relevance_is_mean (cfg : Config) (r : QueryResults) :
  let docs := (retrieve_context cfg (Results r)).1.2 in
  let avg := (retrieve_context cfg (Results r)).2 in
  (docs = [] → avg = 0%Q)
  ∧ (docs ≠ [] → (avg == score_sum docs / inject_Z (Py.len docs))%Q)
  ∧ (0 <= avg)%Q
  ∧ (Forall (fun x => (0 <= x)%Q) (distances r) → (avg <= 1)%Q).
Proof.
  intros docs avg. unfold docs, avg, retrieve_context.
  destruct (documents r) eqn:Hdocs; cbn [fst snd].
  { repeat split; try done. }
  pose proof (filter_passes_total r (effective_threshold cfg)) as Htot.
  assert (∀ d, d ∈ retrieved_docs (filter_passes r (effective_threshold cfg))
             → (0 <= similarity_score d)%Q
               ∧ (Forall (fun x => (0 <= x)%Q) (distances r) →
                  (similarity_score d <= 1)%Q)) as Hscore.
  { intros d Hd. apply filter_passes_docs in Hd as (i & doc & _ & ->).
    split; [apply similarity_nonneg|]. intros Hpos.
    apply similarity_le_1. unfold distance_at.
    destruct (distances r !! i) as [x|] eqn:Hx; simpl; [|discriminate].
    rewrite Forall_forall in Hpos. apply Hpos.
    by eapply list_elem_of_lookup_2. }
  destruct (retrieved_docs (filter_passes r (effective_threshold cfg)))
    as [|d ds] eqn:E.
  { repeat split; try done. }
  assert (0 < inject_Z (Py.len (d :: ds)))%Q as Hn.
  { unfold Py.len. simpl length. rewrite Nat2Z.inj_succ.
    change 0%Q with (inject_Z 0). rewrite <- Zlt_Qlt. lia. }
  split; [done|]. split; [intros _; by rewrite Htot|].
  split.
  - rewrite Htot. apply Qle_shift_div_l; [done|]. rewrite Qmult_0_l.
    apply score_sum_nonneg. apply Forall_forall. intros x Hx.
    by apply Hscore.
  - intros Hpos. rewrite Htot. apply Qle_shift_div_r; [done|].
    rewrite Qmult_1_l.
    apply score_sum_bounds. apply Forall_forall. intros x Hx.
    destruct (Hscore x Hx) as [H0 H1]. split; [done|by apply H1].
Qed.

Lemma aggregate_relevance_is_mean_witness :
  ((retrieve_context Config_values (Results results_three)).2
   == score_sum (retrieve_context Config_values (Results results_three)).1.2
      / inject_Z
          (Py.len (retrieve_context Config_values
                     (Results results_three)).1.2))%Q
  ∧ ((retrieve_context Config_values (Results results_three)).2 <= 1)%Q.
Proof.
  destruct (aggregate_relevance_is_mean Config_values results_three)
    as (_ & Hmean & _ & Hle).
  split.
  - apply Hmean. vm_compute. discriminate.
  - apply Hle. repeat constructor; discriminate.
Defined.

End RetrieverMore.

(** ** Context budgeter: the result is a prefix *)

Section BudgeterMore.

Import Budgeter.

Lemma join_take_prefix (sep : text) (parts : list text) :
  ∀ k, ∃ rest, Py.join sep parts = Py.join sep (take k parts) ++ rest.
Proof.
  induction parts as [|p parts IH]; intros k.
  - exists []. by rewrite take_nil.
  - destruct k as [|k]; [by exists (Py.join sep (p :: parts))|].
    destruct parts as [|p' parts].
    { exists []. cbn [take]. rewrite take_nil. simpl. by rewrite app_nil_r. }
    destruct (IH k) as [rest Hrest].
    rewrite join_cons by done. rewrite Hrest.
    cbn [take]. destruct (take k (p' :: parts)) as [|x xs] eqn:E.
    + exists (sep ++ rest). simpl. reflexivity.
    + exists rest. rewrite (join_cons sep p (x :: xs)) by done.
      by rewrite <- !app_assoc.
Qed.

Lemma truncate_context_prefix (count : text → nat) (context : text)
    (max_tokens : Z) :
  ∃ rest, context = _truncate_context count context max_tokens ++ rest.
Proof.
  unfold _truncate_context. destruct (_ <=? _).
  - exists []. by rewrite app_nil_r.
  - destruct (accumulate_stops count max_tokens
                (Py.split Retriever.separator context) [] 0)
      as (k & _ & -> & _). simpl.
    destruct (join_take_prefix Retriever.separator
                (Py.split Retriever.separator context) k) as [rest Hrest].
    exists rest. rewrite <- Hrest.
    symmetry. apply join_split, separator_nonempty.
Qed.

Lemma truncate_context_len (count : text → nat) (context : text)
    (max_tokens : Z) :
  Py.len (_truncate_context count context max_tokens) ≤ Py.len context.
Proof.
  destruct (truncate_context_prefix count context max_tokens)
    as [rest Hrest].
  rewrite Hrest at 2. unfold Py.len. rewrite length_app. lia.
Qed.

(** Truncation only removes text from the end: the result is a prefix of
    the context, hence never longer than it. *)
Theorem truncated_context_is_prefix (count : text → nat) (context : text)
    (max_tokens : Z) :
  (∃ rest, context = _truncate_context count context max_tokens ++ rest)
  ∧ Py.len (_truncate_context count context max_tokens) ≤ Py.len context.
Proof.
  split; [apply truncate_context_prefix|apply truncate_context_len].
Qed.

End BudgeterMore.

(** ** Answer generator: attribution of the sources *)

Section GeneratorMore.

Import Retriever Generator.

(** The entries of the list come from the candidates. *)
Lemma sources_from_docs (docs : list DocInfo) : ∀ acc s,
  s ∈ foldl add_source acc docs →
  s ∈ acc ∨ ∃ d, d ∈ docs ∧ s = source_of d.
Proof.
  induction docs as [|d0 docs IH]; intros acc s Hs; simpl in *; [by left|].
  apply IH in Hs as [Hs|(d & Hd & ->)].
  - destruct (add_source_cases acc d0) as [[_ Heq]|[_ Heq]];
      rewrite Heq in Hs; [by left|].
    apply elem_of_app in Hs as [Hs|Hs]; [by left|].
    apply list_elem_of_singleton in Hs as ->.
    right. exists d0. split; [by left|done].
  - right. exists d. split; [by right|done].
Qed.

(** The sources of a generated answer are entries of retrieved
    candidates, no more of them than candidates; when the language model
    answers, every candidate has its entry among them; and the context
    length reported is at most the length of the context retrieved. *)
Theorem sources_attribute_retrieved_docs (count : text → nat)
    (llm : text → LLMOutcome) (query context : text)
    (docs : list DocInfo) :
  let g := generate_response count llm query context docs in
  (∀ s, s ∈ sources g → ∃ d, d ∈ docs ∧ s = source_of d)
  ∧ (length (sources g) ≤ length docs)%nat
  ∧ (llm (user_prompt query
            (Budgeter._truncate_context count context 2000)) ≠ LLMError →
     ∀ d, d ∈ docs → ∃ s, s ∈ sources g ∧ same_source (source_of d) s)
  ∧ 0 ≤ context_used g ≤ Py.len context.
Proof.
  intros g. unfold g, generate_response.
  pose proof (truncate_context_len count context 2000) as Hlen.
  destruct (llm _) as [|msg tokens]; cbn [sources context_used].
  - split; [intros s Hs; by apply elem_of_nil in Hs|].
    split; [simpl; lia|]. split; [done|]. unfold Py.len. lia.
  - split.
    { intros s Hs. apply sources_from_docs in Hs as [Hs|Hs]; [|done].
      by apply elem_of_nil in Hs. }
    split; [pose proof (sources_length docs []); simpl in *; done|].
    split; [|unfold Py.len in *; lia].
    intros _ d Hd. pose proof (docs_in_sources docs [] d Hd) as Hin.
    apply listed_iff in Hin as (s & Hs & Hsame). by exists s.
Qed.

Lemma sources_attribute_retrieved_docs_witness :
  Forall (fun d =>
    ∃ s, s ∈ sources
               (generate_response (fun t => length t)
                  (fun _ => LLMResponse (txt "There are no hidden fees.")
                              (Some 42))
                  (txt "What are the fees?")
                  (retrieve_context Config_values
                     (Results results_same_page_twice)).1.1
                  (retrieve_context Config_values
                     (Results results_same_page_twice)).1.2)
         ∧ same_source (source_of d) s)
    (retrieve_context Config_values (Results results_same_page_twice)).1.2.
Proof.
  apply Forall_forall.
  destruct (sources_attribute_retrieved_docs (fun t => length t)
              (fun _ => LLMResponse (txt "There are no hidden fees.")
                          (Some 42))
              (txt "What are the fees?")
              (retrieve_context Config_values
                 (Results results_same_page_twice)).1.1
              (retrieve_context Config_values
                 (Results results_same_page_twice)).1.2)
    as (_ & _ & Hall & _).
  apply Hall. discriminate.
Defined.

End GeneratorMore.

(** ** Orchestrator: outcomes, recovery and logging *)

Section OrchestratorMore.

Import Retriever Generator Orchestrator.

Variable w : World.
Variable query : text.

(** [ask_question] makes between one and three retrievals; it returns
    either the answer built on the context of its last retrieval, or,
    after the third retrieval only, the no-context result (that retrieval
    was empty) or the technical-error result carrying the message of the
    exception that retrieval raised.  The result after the loop is never
    returned. *)
Theorem ask_question_outcomes (session_id : option text) :
  let n := (ask_question w query session_id).1 in
  let r := (ask_question w query session_id).2 in
  (1 ≤ n ≤ 3)%nat
  ∧ ((∃ context docs avg,
        retrieve w n = Returned (context, docs, avg) ∧ context ≠ []
        ∧ r = answer w query session_id n context docs avg)
     ∨ (n = 3%nat
        ∧ (∃ docs avg, retrieve w 3 = Returned ([], docs, avg))
        ∧ r = no_context_result w query 3)
     ∨ (n = 3%nat
        ∧ ∃ e, retrieve w 3 = Raised e ∧ r = error_result w query 3 e)).
Proof.
  apply outcome_cases.
Qed.

Lemma context_at_attempt (session_id : option text) (k : nat)
    (context : text) (docs : list DocInfo) (avg : Q) :
  (1 ≤ k ≤ 3)%nat →
  (∀ j c d a, (1 ≤ j < k)%nat → retrieve w j = Returned (c, d, a) → c = []) →
  retrieve w k = Returned (context, docs, avg) →
  context ≠ [] →
  ask_question w query session_id
  = (k, answer w query session_id k context docs avg).
Proof.
  intros Hk Hbefore Hret Hne.
  destruct context as [|x context]; [done|].
  unfold ask_question. cbn [seq max_attempts attempts].
  assert (k = 1 ∨ k = 2 ∨ k = 3)%nat as [->|[->| ->]] by lia.
  - by rewrite Hret.
  - destruct (retrieve w 1) as [[[c1 d1] a1]|e1] eqn:H1.
    + rewrite (Hbefore 1%nat c1 d1 a1 ltac:(lia) H1).
      cbn [Nat.eqb max_attempts attempts]. by rewrite Hret.
    + cbn [Nat.eqb max_attempts attempts]. by rewrite Hret.
  - destruct (retrieve w 1) as [[[c1 d1] a1]|e1] eqn:H1;
      [rewrite (Hbefore 1%nat c1 d1 a1 ltac:(lia) H1)|]; cbn [Nat.eqb max_attempts attempts].
    all: destruct (retrieve w 2) as [[[c2 d2] a2]|e2] eqn:H2;
      [rewrite (Hbefore 2%nat c2 d2 a2 ltac:(lia) H2)|]; cbn [Nat.eqb max_attempts attempts].
    all: by rewrite Hret.
Qed.

(** The first retrieval that returns a context decides the answer:
    earlier retrievals that were empty or raised are retried, and the
    number of retrievals is the number of that attempt. *)
Theorem first_context_wins (session_id : option text) (k : nat)
    (context : text) (docs : list DocInfo) (avg : Q) :
  (1 ≤ k ≤ 3)%nat →
  (∀ j c d a, (1 ≤ j < k)%nat → retrieve w j = Returned (c, d, a) → c = []) →
  retrieve w k = Returned (context, docs, avg) →
  context ≠ [] →
  ask_question w query session_id
  = (k, answer w query session_id k context docs avg).
Proof. apply context_at_attempt. Qed.

Lemma get_app_other (key key' : string) (v : Value) (l : Result) :
  key ≠ key' → get key (l ++ [(key', v)]) = get key l.
Proof.
  intros Hne. unfold get. f_equal.
  induction l as [|[k x] l IH]; simpl.
  - rewrite bool_decide_eq_false_2; [done|]. by intros ->.
  - destruct (bool_decide (k = key)); [done|apply IH].
Qed.

(** What the log does to a success: nothing, or one more field. *)
Lemma answer_with_session (session_id : option text) (attempt : nat)
    (context : text) (docs : list DocInfo) (avg : Q) :
  answer w query session_id attempt context docs avg
  = answer w query None attempt context docs avg
  ∨ ∃ cid,
      answer w query session_id attempt context docs avg
      = answer w query None attempt context docs avg
        ++ [("conversation_id", VInt cid)].
Proof.
  unfold answer. cbn [truthy].
  destruct (truthy session_id) as [sid|]; [|by left].
  destruct (log_conversation w _ _ _ _ _ _) as [cid|e]; [|by left].
  right. by exists cid.
Qed.

Lemma attempts_with_session (session_id : option text) (key : string)
    (todo : list nat) :
  key ≠ "conversation_id" →
  ∀ calls,
    (attempts w query session_id todo calls).1
    = (attempts w query None todo calls).1
    ∧ get key (attempts w query session_id todo calls).2
      = get key (attempts w query None todo calls).2.
Proof.
  intros Hkey. induction todo as [|attempt todo IH]; intros calls;
    cbn [attempts]; [done|].
  destruct (retrieve w attempt) as [[[c d] a]|e].
  - destruct c as [|x c].
    + destruct (attempt =? max_attempts)%nat; [done|apply IH].
    + cbn [fst snd]. split; [done|].
      destruct (answer_with_session session_id attempt (x :: c) d a)
        as [->|[cid ->]]; [done|].
      by apply get_app_other.
  - destruct (attempt =? max_attempts)%nat; [done|apply IH].
Qed.

(** Logging the conversation has no influence on the answer: with or
    without a session, and whether the log succeeds or raises, the number
    of retrievals and every field other than [conversation_id] are the
    same. *)
Theorem logging_leaves_answer_unchanged (session_id : option text)
    (key : string) :
  key ≠ "conversation_id" →
  (ask_question w query session_id).1 = (ask_question w query None).1
  ∧ get key (ask_question w query session_id).2
    = get key (ask_question w query None).2.
Proof. intros Hkey. by apply attempts_with_session. Qed.

(** When the language model fails on the context that is retrieved,
    at whichever of the three attempts that is, the result has the shape
    of a success: the apology as response, no sources, no tokens and no
    context length, beside the relevance and the number of the retrieved
    candidates; no further retrieval is made. *)
Theorem llm_failure_gives_apology (session_id : option text) (k : nat)
    (context : text) (docs : list DocInfo) (avg : Q) :
  (1 ≤ k ≤ 3)%nat →
  (∀ j c d a, (1 ≤ j < k)%nat → retrieve w j = Returned (c, d, a) → c = []) →
  retrieve w k = Returned (context, docs, avg) →
  context ≠ [] →
  llm w (user_prompt query
           (Budgeter._truncate_context (count_tokens w) context 2000))
  = LLMError →
  let r := (ask_question w query session_id).2 in
  (ask_question w query session_id).1 = k
  ∧ get "response" r = Some (VText apology)
  ∧ get "sources" r = Some (VSources [])
  ∧ get "tokens_used" r = Some (VInt 0)
  ∧ get "context_length" r = Some (VInt 0)
  ∧ get "relevance_score" r = Some (VFloat avg)
  ∧ get "num_sources" r = Some (VInt (Py.len docs)).
Proof.
  intros Hk Hbefore Hret Hne Hllm r. unfold r.
  rewrite (context_at_attempt session_id k context docs avg) by done.
  cbn [fst snd].
  destruct (answer_shape w query session_id k context docs avg)
    as [extra ->].
  unfold generate_response. rewrite Hllm.
  repeat split; reflexivity.
Qed.

End OrchestratorMore.

Lemma first_context_wins_witness :
  Orchestrator.ask_question world_recovers (txt "What are the fees?") None
  = (3%nat,
     Orchestrator.answer world_recovers (txt "What are the fees?") None 3
       (Retriever.retrieve_context Config_values
          (Retriever.Results results_same_page_twice)).1.1
       (Retriever.retrieve_context Config_values
          (Retriever.Results results_same_page_twice)).1.2
       (Retriever.retrieve_context Config_values
          (Retriever.Results results_same_page_twice)).2).
Proof.
  apply (first_context_wins world_recovers (txt "What are the fees?")
           None 3).
  - lia.
  - intros j c d a Hj. assert (j = 1 ∨ j = 2)%nat as [->| ->] by lia.
    + discriminate.
    + by intros [= <- _ _].
  - reflexivity.
  - vm_compute. discriminate.
Defined.


Lemma logging_leaves_answer_unchanged_witness :
  (Orchestrator.ask_question world_recovers (txt "What are the fees?")
     (Some (txt "session-1"))).1
  = (Orchestrator.ask_question world_recovers (txt "What are the fees?")
       None).1
  ∧ Orchestrator.get "response"
      (Orchestrator.ask_question world_recovers (txt "What are the fees?")
         (Some (txt "session-1"))).2
    = Orchestrator.get "response"
        (Orchestrator.ask_question world_recovers
           (txt "What are the fees?") None).2.
Proof.
  apply (logging_leaves_answer_unchanged world_recovers
           (txt "What are the fees?") (Some (txt "session-1")) "response").
  discriminate.
Defined.

Lemma llm_failure_gives_apology_witness :
  (Orchestrator.ask_question world_llm_down_late (txt "What are the fees?")
     None).1 = 2%nat
  ∧ Orchestrator.get "response"
      (Orchestrator.ask_question world_llm_down_late
         (txt "What are the fees?") None).2
    = Some (Orchestrator.VText Generator.apology)
  ∧ Orchestrator.get "sources"
      (Orchestrator.ask_question world_llm_down_late
         (txt "What are the fees?") None).2
    = Some (Orchestrator.VSources [])
  ∧ Orchestrator.get "tokens_used"
      (Orchestrator.ask_question world_llm_down_late
         (txt "What are the fees?") None).2
    = Some (Orchestrator.VInt 0)
  ∧ Orchestrator.get "context_length"
      (Orchestrator.ask_question world_llm_down_late
         (txt "What are the fees?") None).2
    = Some (Orchestrator.VInt 0)
  ∧ Orchestrator.get "relevance_score"
      (Orchestrator.ask_question world_llm_down_late
         (txt "What are the fees?") None).2
    = Some (Orchestrator.VFloat
              (Retriever.retrieve_context Config_values
                 (Retriever.Results results_same_page_twice)).2)
  ∧ Orchestrator.get "num_sources"
      (Orchestrator.ask_question world_llm_down_late
         (txt "What are the fees?") None).2
    = Some (Orchestrator.VInt
              (Py.len (Retriever.retrieve_context Config_values
                         (Retriever.Results results_same_page_twice)).1.2)).
Proof.
  apply (llm_failure_gives_apology world_llm_down_late
           (txt "What are the fees?") None 2
           (Retriever.retrieve_context Config_values
              (Retriever.Results results_same_page_twice)).1.1
           (Retriever.retrieve_context Config_values
              (Retriever.Results results_same_page_twice)).1.2
           (Retriever.retrieve_context Config_values
              (Retriever.Results results_same_page_twice)).2).
  - lia.
  - intros j c d a Hj. assert (j = 1)%nat as -> by lia.
    by intros [= <- _ _].
  - reflexivity.
  - vm_compute. discriminate.
  - reflexivity.
Defined.

(** ** Knowledge-base build: what a build stores *)

Section KnowledgeBaseMore.

Import KnowledgeBase.

Lemma all_entries_short (cfg : Config) (docs : list Document) :
  Forall (fun d => Py.len (default [] (doc_content d)) < 150) docs →
  ∀ k, all_entries cfg k docs = Some [].
Proof.
  induction 1 as [|d docs Hd _ IH]; intros k; simpl; [done|].
  rewrite IH. unfold doc_entries.
  destruct (Z.ltb_spec (Py.len (default [] (doc_content d))) 150); [|lia].
  by rewrite orb_true_r.
Qed.

(** When every page is shorter than 150 characters nothing is indexed,
    the store is left as it is, and the build still returns [True]. *)
Theorem build_of_short_pages_succeeds (cfg : Config) (pol : OnExisting)
    (fails : nat → bool) (docs : list Document) (s : Store) :
  docs ≠ [] →
  Forall (fun d => Py.len (default [] (doc_content d)) < 150) docs →
  build_knowledge_base cfg pol fails docs s = Some (s, [], true).
Proof.
  intros Hne Hshort. unfold build_knowledge_base.
  destruct docs as [|d docs]; [done|].
  by rewrite (all_entries_short cfg (d :: docs) Hshort 0).
Qed.

Lemma build_of_short_pages_succeeds_witness :
  build_knowledge_base Config_values Overwrite (fun _ => true)
    [page_short; page_short] ∅
  = Some (∅, [], true).
Proof.
  apply build_of_short_pages_succeeds; [discriminate|].
  repeat constructor.
Defined.

(** *** The batches *)

Lemma concat_batches {A} (n : nat) : ∀ l : list A,
  (length l ≤ batch_size * n)%nat →
  concat ((fun k => take batch_size (drop (batch_size * k) l)) <$> seq 0 n)
  = l.
Proof.
  unfold batch_size. induction n as [|n IH]; intros l Hl.
  - destruct l; [done|simpl in Hl; lia].
  - rewrite <- cons_seq, fmap_cons, concat_cons, <- fmap_S_seq.
    rewrite <- list_fmap_compose.
    etrans; [|apply (take_drop 50 l)]. f_equal.
    etrans; [|apply (IH (drop 50 l)); rewrite length_drop; lia].
    f_equal. apply list_fmap_ext. intros _ k _. simpl.
    rewrite drop_drop. do 2 f_equal. lia.
Qed.

Lemma batches_cover_rows (all : list Entry) :
  concat ((fun i => Py.slice all (Z.of_nat i) (Z.of_nat (i + batch_size)))
          <$> batch_starts (length all)) = all.
Proof.
  unfold batch_starts. rewrite <- list_fmap_compose.
  etrans; [|apply (concat_batches (total_batches (length all)) all)].
  - f_equal. apply list_fmap_ext. intros _ k _. simpl. apply slice_nat.
  - unfold total_batches, batch_size.
    pose proof (Nat.div_mod_eq (length all + 50 - 1) 50).
    pose proof (Nat.mod_upper_bound (length all + 50 - 1) 50 ltac:(lia)).
    lia.
Qed.

(** The batches the loop hands to the store are, put end to end, the
    list of all rows: every row is in one batch, once, in order; and no
    batch is empty or holds more than 50 rows. *)
Theorem batches_partition_rows (all : list Entry) :
  concat ((fun i => Py.slice all (Z.of_nat i) (Z.of_nat (i + batch_size)))
          <$> batch_starts (length all)) = all
  ∧ Forall (fun i =>
              (0 < length (Py.slice all (Z.of_nat i)
                             (Z.of_nat (i + batch_size))) ≤ 50)%nat)
      (batch_starts (length all)).
Proof.
  split; [apply batches_cover_rows|].
  - apply Forall_forall. intros i Hi. unfold batch_starts in Hi.
    apply list_elem_of_fmap in Hi as (k & -> & Hk).
    apply elem_of_seq in Hk. rewrite slice_nat, length_take, length_drop.
    unfold total_batches, batch_size in *.
    pose proof (Nat.div_mod_eq (length all + 50 - 1) 50).
    pose proof (Nat.mod_upper_bound (length all + 50 - 1) 50 ltac:(lia)).
    lia.
Qed.

(** *** A build in which no insertion fails *)

Lemma add_batches_no_failure (pol : OnExisting) (all : list Entry)
    (starts : list nat) : ∀ st,
  ∃ bn,
    add_batches pol (fun _ => false) all starts st
    = inr {| store :=
               foldl (put_row pol) (store st)
                 (concat ((fun i => Py.slice all (Z.of_nat i)
                                      (Z.of_nat (i + batch_size)))
                          <$> starts));
             batch_num := bn;
             log :=
               log st
               ++ ((fun i => Added (i `div` batch_size + 1)
                               (total_batches (length all))) <$> starts) |}.
Proof.
  induction starts as [|i starts IH]; intros st.
  - exists (batch_num st). simpl. rewrite app_nil_r. by destruct st.
  - cbn [add_batches].
    match goal with |- context [add_batches _ _ _ _ ?st0] =>
      destruct (IH st0) as [bn ->] end.
    exists bn. cbn [store batch_num log]. f_equal. f_equal.
    + unfold collection_add. by rewrite fmap_cons, concat_cons, foldl_app.
    + by rewrite fmap_cons, <- app_assoc.
Qed.

Lemma put_row_other (pol : OnExisting) (s : Store) (e : Entry)
    (id : string) :
  entry_id e ≠ id → put_row pol s e !! id = s !! id.
Proof.
  intros Hne. unfold put_row.
  destruct pol; [destruct (s !! entry_id e)|]; [done|..];
    by rewrite lookup_insert_ne.
Qed.

Lemma put_rows_other (pol : OnExisting) (l : list Entry) (id : string) :
  ∀ s, (∀ e, e ∈ l → entry_id e ≠ id) →
       foldl (put_row pol) s l !! id = s !! id.
Proof.
  induction l as [|e l IH]; intros s Hl; simpl; [done|].
  rewrite IH by (intros x Hx; apply Hl; by right).
  apply put_row_other, Hl. by left.
Qed.

(** Rows with fresh, pairwise distinct ids are all stored. *)
Lemma put_rows_fresh (pol : OnExisting) (l : list Entry) : ∀ s,
  NoDup (entry_id <$> l) →
  (∀ e, e ∈ l → s !! entry_id e = None) →
  size (foldl (put_row pol) s l) = (size s + length l)%nat
  ∧ ∀ e, e ∈ l →
      foldl (put_row pol) s l !! entry_id e
      = Some (entry_chunk e, entry_metadata e).
Proof.
  induction l as [|x l IH]; intros s Hnd Hfresh; simpl.
  - split; [lia|]. intros e He. by apply elem_of_nil in He.
  - rewrite fmap_cons in Hnd. apply NoDup_cons in Hnd as [Hx Hnd].
    assert (put_row pol s x
            = <[entry_id x := (entry_chunk x, entry_metadata x)]> s) as Hput.
    { unfold put_row. rewrite (Hfresh x) by by left. by destruct pol. }
    assert (∀ e, e ∈ l → entry_id e ≠ entry_id x) as Hother.
    { intros e He Heq. apply Hx. rewrite <- Heq.
      by apply list_elem_of_fmap_2. }
    destruct (IH (put_row pol s x) Hnd) as [Hsize Hlook].
    { intros e He. rewrite Hput, lookup_insert_ne by (symmetry; by apply Hother).
      apply Hfresh. by right. }
    split.
    + rewrite Hsize, Hput, map_size_insert_None by (apply Hfresh; by left).
      lia.
    + intros e He. apply elem_of_cons in He as [->|He]; [|by apply Hlook].
      rewrite put_rows_other by (intros e He; by apply Hother).
      rewrite Hput. apply lookup_insert_eq.
Qed.

(** The ids of the rows of a build are pairwise distinct. *)
Lemma all_entries_NoDup (cfg : Config) (docs : list Document) :
  ∀ k all, all_entries cfg k docs = Some all → NoDup (entry_id <$> all).
Proof.
  induction docs as [|doc docs IH]; intros k all; simpl.
  - intros [= <-]. constructor.
  - destruct (doc_entries cfg k doc) as [es|] eqn:Hes; [|done].
    destruct (all_entries cfg (S k) docs) as [es'|] eqn:Hes'; [|done].
    intros [= <-]. rewrite fmap_app. apply NoDup_app.
    assert (∀ e, e ∈ es → ∃ j, entry_id e = chunk_id k j) as Hk.
    { intros e He.
      destruct (all_entries_origin cfg [doc] k es e) as
        (i & j & d & c & x & Hd & _ & _ & ->).
      { simpl. rewrite Hes. by rewrite app_nil_r. }
      { done. }
      destruct i as [|i]; [|simpl in Hd; by rewrite lookup_nil in Hd].
      exists j. simpl. by rewrite Nat.add_0_r. }
    split; [|split].
    + unfold doc_entries in Hes. destruct (_ || _).
      { injection Hes as <-. constructor. }
      destruct (Chunker._chunk_content cfg _) as [chunks|]; [|done].
      injection Hes as <-. apply NoDup_alt. intros i j id Hi Hj.
      rewrite list_lookup_fmap, list_lookup_imap in Hi, Hj.
      destruct (chunks !! i); [|done]. destruct (chunks !! j); [|done].
      simpl in Hi, Hj. injection Hi as Hi. injection Hj as Hj.
      rewrite <- Hj in Hi. by apply chunk_id_inj in Hi as [_ ?].
    + intros id Hid Hid'.
      apply list_elem_of_fmap in Hid as (e & -> & He).
      apply list_elem_of_fmap in Hid' as (e' & Heq & He').
      destruct (Hk e He) as [j Hj].
      destruct (all_entries_origin cfg docs (S k) es' e' Hes' He')
        as (i' & j' & d & c & x & _ & _ & _ & ->).
      simpl in Heq. rewrite Hj in Heq.
      apply chunk_id_inj in Heq as [Hi _]. lia.
    + by apply (IH (S k)).
Qed.

(** A build in which no insertion fails stores the rows one after the
    other, whatever the batching, prints one message per batch, numbered
    from 1, and returns [True]; on an empty store it leaves exactly one
    row per chunk, each under its identifier. *)
Theorem complete_build_stores_every_row (cfg : Config) (pol : OnExisting)
    (docs : list Document) (s : Store) (all : list Entry) :
  all_entries cfg 0 docs = Some all →
  docs ≠ [] →
  build_knowledge_base cfg pol (fun _ => false) docs s
  = Some (foldl (put_row pol) s all,
          added_message (total_batches (length all))
            <$> seq 0 (total_batches (length all)),
          true)
  ∧ size (foldl (put_row pol) ∅ all) = length all
  ∧ ∀ e, e ∈ all →
      foldl (put_row pol) ∅ all !! entry_id e
      = Some (entry_chunk e, entry_metadata e).
Proof.
  intros Hall Hne. split.
  - unfold build_knowledge_base. destruct docs as [|d docs]; [done|].
    rewrite Hall.
    destruct (add_batches_no_failure pol all (batch_starts (length all))
                {| store := s; batch_num := None; log := [] |}) as [bn ->].
    cbn [store log].
    rewrite (batches_cover_rows all).
    unfold batch_starts. rewrite <- list_fmap_compose, app_nil_l.
    do 3 f_equal. apply list_fmap_ext. intros _ k _. unfold compose.
    rewrite batch_index. unfold added_message. f_equal. lia.
  - destruct (put_rows_fresh pol all ∅ (all_entries_NoDup cfg docs 0 all Hall))
      as [Hsize Hlook]; [intros e _; apply lookup_empty|].
    split; [|done]. rewrite Hsize, map_size_empty. lia.
Qed.

Lemma complete_build_stores_every_row_witness :
  ∃ all,
    build_knowledge_base Config_values KeepStored (fun _ => false)
      pages_51 ∅
    = Some (foldl (put_row KeepStored) ∅ all,
            [Added 1 2; Added 2 2], true)
    ∧ size (foldl (put_row KeepStored) ∅ all) = 51%nat.
Proof.
  pose proof pages_51_entries as Hlen.
  destruct (all_entries_total Config_values pages_51 Config_values_sane 0)
    as [all Hall].
  rewrite Hall in Hlen. injection Hlen as Hlen.
  destruct (complete_build_stores_every_row Config_values KeepStored
              pages_51 ∅ all Hall ltac:(discriminate))
    as (Hbuild & Hsize & _).
  exists all. rewrite Hlen in Hbuild, Hsize. split; [exact Hbuild|exact Hsize].
Defined.

(** *** What a build leaves alone *)

Lemma put_row_is_Some (pol : OnExisting) (s : Store) (e : Entry)
    (id : string) :
  is_Some (s !! id) → is_Some (put_row pol s e !! id).
Proof.
  intros His. destruct (decide (entry_id e = id)) as [<-|Hne].
  - unfold put_row. destruct pol.
    + destruct His as [x Hx]. rewrite Hx, Hx. by eexists.
    + rewrite lookup_insert_eq. by eexists.
  - by rewrite put_row_other.
Qed.

Lemma put_row_keep_subseteq (s : Store) (e : Entry) :
  s ⊆ put_row KeepStored s e.
Proof.
  unfold put_row. destruct (s !! entry_id e) eqn:E; [done|].
  by apply insert_subseteq.
Qed.

(** What every row insertion preserves, the loop preserves. *)
Lemma add_batches_preserves (pol : OnExisting) (fails : nat → bool)
    (all : list Entry) (I : Store → Prop) :
  (∀ s e, e ∈ all → I s → I (put_row pol s e)) →
  ∀ starts st, I (store st) →
    match add_batches pol fails all starts st with
    | inl st' | inr st' => I (store st')
    end.
Proof.
  intros Hput.
  assert (∀ batch s, (∀ e, e ∈ batch → e ∈ all) → I s →
            I (collection_add pol batch s)) as Hadd.
  { unfold collection_add. induction batch as [|e batch IH];
      intros s Hsub Hs; simpl; [done|].
    apply IH; [intros x Hx; apply Hsub; by right|].
    apply Hput; [apply Hsub; by left|done]. }
  induction starts as [|i starts IH]; intros st Hst; [done|].
  cbn [add_batches]. destruct (fails _).
  - destruct (batch_num st) as [bn|]; [|done].
    by apply (IH {| store := store st; batch_num := Some bn;
                    log := log st ++ [ErrorAdding bn] |}).
  - match goal with |- context [add_batches _ _ _ _ ?st0] =>
      apply (IH st0) end.
    cbn [store]. apply Hadd; [|done].
    intros e He. by eapply elem_of_slice.
Qed.

(** Whatever fails, a build removes no row and leaves every row whose id
    is not the id of one of its own rows as it was; with a store that
    keeps stored rows, no row already stored changes at all. *)
Theorem build_keeps_other_rows (cfg : Config) (pol : OnExisting)
    (fails : nat → bool) (docs : list Document) (s : Store)
    (all : list Entry) :
  all_entries cfg 0 docs = Some all →
  ∃ s' log ok,
    build_knowledge_base cfg pol fails docs s = Some (s', log, ok)
    ∧ (∀ id, (∀ e, e ∈ all → entry_id e ≠ id) → s' !! id = s !! id)
    ∧ (∀ id, is_Some (s !! id) → is_Some (s' !! id))
    ∧ (pol = KeepStored → s ⊆ s').
Proof.
  intros Hall. unfold build_knowledge_base. rewrite Hall.
  destruct docs as [|d docs].
  { exists s, [], false. repeat split; done. }
  pose proof (add_batches_preserves pol fails all
    (fun s' => (∀ id, (∀ e, e ∈ all → entry_id e ≠ id) → s' !! id = s !! id)
               ∧ (∀ id, is_Some (s !! id) → is_Some (s' !! id))
               ∧ (pol = KeepStored → s ⊆ s'))) as Hpres.
  specialize (Hpres ltac:(
    intros s1 e He (H1 & H2 & H3); split; [|split];
    [intros id Hid; rewrite put_row_other by (by apply Hid); by apply H1
    |intros id Hid; by apply put_row_is_Some, H2
    |intros ->; etrans; [by apply H3|apply put_row_keep_subseteq]])).
  specialize (Hpres (batch_starts (length all))
                {| store := s; batch_num := None; log := [] |}
                ltac:(by repeat split)).
  destruct (add_batches pol fails all _ _) as [st'|st'].
  - by exists (store st'), (log st'), false.
  - by exists (store st'), (log st'), true.
Qed.

Lemma build_keeps_other_rows_witness :
  ∃ s' log ok,
    build_knowledge_base Config_values Overwrite (fun k => (k =? 1)%nat)
      pages_51 {["legacy" := (txt "old row", ∅)]} = Some (s', log, ok)
    ∧ s' !! "legacy" = Some (txt "old row", ∅).
Proof.
  destruct (all_entries_total Config_values pages_51 Config_values_sane 0)
    as [all Hall].
  destruct (build_keeps_other_rows Config_values Overwrite
              (fun k => (k =? 1)%nat) pages_51
              {["legacy" := (txt "old row", ∅)]} all Hall)
    as (s' & log & ok & Hbuild & Hother & _).
  exists s', log, ok. split; [exact Hbuild|].
  rewrite Hother; [reflexivity|].
  intros e He Hid.
  destruct (all_entries_origin Config_values pages_51 0 all e Hall He)
    as (i & j & d & c & x & _ & _ & _ & ->).
  discriminate Hid.
Defined.

(** *** From the build to the retriever *)

(** The title and the url attributed to a retrieved chunk are those of
    the page it was cut from, with ["Untitled"] and the empty url for a
    page that has none; the retriever's own default ["Unknown"] is not
    used for a chunk the build has stored. *)
Theorem stored_chunk_keeps_page_title (doc : Document)
    (doc_idx chunk_idx total : nat) (r : Retriever.QueryResults)
    (i : nat) (document : text) :
  Retriever.metadatas r !! i
  = Some (chunk_metadata doc doc_idx chunk_idx total) →
  Retriever.title (Retriever.doc_info r i document)
  = MText (default (txt "Untitled") (doc_title doc))
  ∧ Retriever.source_url (Retriever.doc_info r i document)
    = MText (default [] (doc_url doc)).
Proof.
  intros Hmd. unfold Retriever.doc_info, Retriever.metadata_at.
  rewrite Hmd. cbn [Retriever.title Retriever.source_url default].
  unfold chunk_metadata. split; by simplify_map_eq.
Qed.

Lemma stored_chunk_keeps_page_title_witness :
  Retriever.title
    (Retriever.doc_info results_stored_page 0 (replicate 150 "a"%char))
  = MText (txt "Jupiter")
  ∧ Retriever.source_url
      (Retriever.doc_info results_stored_page 0 (replicate 150 "a"%char))
    = MText (txt "https://jupiter.money/").
Proof.
  apply (stored_chunk_keeps_page_title page_150 0 0 1 results_stored_page 0).
  reflexivity.
Defined.

End KnowledgeBaseMore.

(** * Properties of the display helpers *)

Section HelpersFacts.

Import Helpers.

Lemma forallb_symbol_false (q : text) (c : ascii) :
  c ∈ q → is_symbol c = false → forallb is_symbol q = false.
Proof.
  intros Hc Hs. destruct (forallb is_symbol q) eqn:E; [|done].
  rewrite forallb_forall in E.
  rewrite E in Hs by by apply list_elem_of_In. done.
Qed.

Lemma forallb_symbol_witness (q : text) :
  forallb is_symbol q = false → ∃ c, c ∈ q ∧ is_symbol c = false.
Proof.
  induction q as [|c q IH]; simpl; [done|].
  destruct (is_symbol c) eqn:E; simpl.
  - intros H. destruct (IH H) as (x & Hx & Hs). exists x. split; [by right|done].
  - intros _. exists c. split; [by left|done].
Qed.

(** A question is accepted only if its stripped form has at least 3
    characters, it has at most 500 characters and it holds a character
    that is a letter, a digit or white space; and every question within
    these lengths that holds an ASCII letter or digit is accepted. *)
Theorem validate_question_accepts (question : text) :
  ((validate_question question).1 = true →
   3 ≤ Py.len (Py.strip question) ∧ Py.len question ≤ 500
   ∧ ∃ c, c ∈ question ∧ (is_alnum c = true ∨ Py.isspace c = true))
  ∧ (3 ≤ Py.len (Py.strip question) → Py.len question ≤ 500 →
     (∃ c, c ∈ question ∧ is_alnum c = true) →
     validate_question question = (true, txt "Valid question")).
Proof.
  unfold validate_question. split.
  - destruct (_ || _); [done|].
    destruct (Z.ltb_spec (Py.len (Py.strip question)) 3); [done|].
    destruct (Z.ltb_spec 500 (Py.len question)); [done|].
    destruct (only_symbols question) eqn:Hsym; [done|]. intros _.
    split; [lia|]. split; [lia|].
    unfold only_symbols in Hsym. apply orb_false_iff in Hsym as [Hall _].
    apply forallb_symbol_witness in Hall as (c & Hc & Hs).
    exists c. split; [done|]. unfold is_symbol in Hs.
    destruct (is_alnum c); [by left|]. destruct (Py.isspace c); [by right|done].
  - intros Hstrip Hlen (c & Hc & Halnum).
    assert (is_symbol c = false) as Hs by (unfold is_symbol; by rewrite Halnum).
    assert (question ≠ []) as Hq by (intros ->; by apply elem_of_nil in Hc).
    assert (Py.strip question ≠ []) as Hsq
      by (intros E; rewrite E in Hstrip; unfold Py.len in Hstrip;
          simpl in Hstrip; lia).
    rewrite !bool_decide_eq_false_2 by done. simpl.
    destruct (Z.ltb_spec (Py.len (Py.strip question)) 3); [lia|].
    destruct (Z.ltb_spec 500 (Py.len question)); [lia|].
    assert (only_symbols question = false) as ->; [|done].
    unfold only_symbols. rewrite (forallb_symbol_false question c Hc Hs).
    simpl. destruct (reverse question) as [|x p] eqn:Hrev; [done|].
    destruct (bool_decide_reflect (x = Chunker.newline)) as [->|]; [|done].
    simpl. apply (forallb_symbol_false p c); [|done].
    assert (c ∈ reverse question) as Hin by by apply elem_of_reverse.
    rewrite Hrev in Hin. apply elem_of_cons in Hin as [->|Hin]; [|done].
    by vm_compute in Halnum.
Qed.

Lemma validate_question_accepts_witness :
  (3 ≤ Py.len (Py.strip (txt "What are the fees?"))
   ∧ Py.len (txt "What are the fees?") ≤ 500
   ∧ ∃ c, c ∈ txt "What are the fees?"
          ∧ (is_alnum c = true ∨ Py.isspace c = true))
  ∧ validate_question (txt "Is UPI free?") = (true, txt "Valid question").
Proof.
  destruct (validate_question_accepts (txt "What are the fees?"))
    as [Honly _].
  destruct (validate_question_accepts (txt "Is UPI free?")) as [_ Hif].
  split.
  - apply Honly. reflexivity.
  - apply Hif; [vm_compute; discriminate|vm_compute; discriminate|].
    exists "I"%char. split; [by left|reflexivity].
Defined.

(** Questions made of punctuation only are refused, also when they end
    with a newline; with a blank between the marks they are accepted. *)
Lemma validate_question_punctuation :
  (validate_question (txt "???")).1 = false
  ∧ (validate_question (txt "???" ++ [Chunker.newline])).1 = false
  ∧ (validate_question (txt "? ? ?")).1 = true.
Proof. repeat split; reflexivity. Qed.

Lemma slice_from_0_length {A} (s : list A) (b : Z) :
  Py.len (Py.slice s 0 b)
  = if b <? 0 then Z.max 0 (b + Py.len s) else Z.min b (Py.len s).
Proof.
  unfold Py.len, Py.slice, Py.slice_bound.
  change (0 <? 0) with false. cbv iota.
  rewrite length_take, length_drop.
  destruct (Z.ltb_spec b 0); lia.
Qed.

(** For a maximum of at least 3 the result of [truncate_text] has at most
    that many characters, and is the text itself or the first
    [max_length - 3] characters of it followed by three dots.  For a
    smaller maximum the result of a text that exceeds it is longer than
    the maximum. *)
Theorem truncate_text_bound (s : text) (max_length : Z) :
  (3 ≤ max_length →
   Py.len (truncate_text s max_length) ≤ max_length
   ∧ (truncate_text s max_length = s
      ∨ truncate_text s max_length
        = take (Z.to_nat (max_length - 3)) s ++ txt "..."))
  ∧ (max_length < 3 → max_length < Py.len s →
     max_length < Py.len (truncate_text s max_length)).
Proof.
  unfold truncate_text. split.
  - intros Hm. destruct (Z.leb_spec (Py.len s) max_length).
    + split; [done|by left].
    + split.
      * pose proof (slice_from_0_length s (max_length - 3)) as Hl.
        destruct (Z.ltb_spec (max_length - 3) 0); [lia|].
        unfold Py.len in *. rewrite length_app. simpl length. lia.
      * right. f_equal. rewrite slice_in_range by lia.
        rewrite drop_0. f_equal. lia.
  - intros Hm Hlen. destruct (Z.leb_spec (Py.len s) max_length); [lia|].
    pose proof (slice_from_0_length s (max_length - 3)) as Hl.
    destruct (Z.ltb_spec (max_length - 3) 0); [|lia].
    unfold Py.len in *. rewrite length_app. simpl length. lia.
Qed.

Lemma truncate_text_bound_witness :
  (Py.len (truncate_text (txt "Jupiter savings account") 10) ≤ 10
   ∧ (truncate_text (txt "Jupiter savings account") 10
      = txt "Jupiter savings account"
      ∨ truncate_text (txt "Jupiter savings account") 10
        = take (Z.to_nat (10 - 3)) (txt "Jupiter savings account")
          ++ txt "..."))
  ∧ 2 < Py.len (truncate_text (txt "Jupiter") 2).
Proof.
  destruct (truncate_text_bound (txt "Jupiter savings account") 10)
    as [Hbound _].
  destruct (truncate_text_bound (txt "Jupiter") 2) as [_ Hedge].
  split; [apply Hbound; lia|apply Hedge; [lia|vm_compute; reflexivity]].
Defined.

(** *** The conversation export *)

Lemma split_go_single (c : ascii) (p : text) : ∀ cur,
  c ∉ p → Py.split_go [c] 0 cur p = [reverse cur ++ p].
Proof.
  induction p as [|x p IH]; intros cur Hc; simpl.
  - by rewrite app_nil_r.
  - apply not_elem_of_cons in Hc as [Hx Hp].
    rewrite bool_decide_eq_false_2 by done. simpl.
    rewrite IH by done. by rewrite reverse_cons, <- app_assoc.
Qed.

Lemma split_go_single_sep (c : ascii) (p rest : text) : ∀ cur,
  c ∉ p →
  Py.split_go [c] 0 cur (p ++ c :: rest)
  = (reverse cur ++ p) :: Py.split_go [c] 0 [] rest.
Proof.
  induction p as [|x p IH]; intros cur Hc; simpl.
  - rewrite bool_decide_eq_true_2 by done. simpl. by rewrite app_nil_r.
  - apply not_elem_of_cons in Hc as [Hx Hp].
    rewrite bool_decide_eq_false_2 by done. simpl.
    rewrite IH by done. by rewrite reverse_cons, <- app_assoc.
Qed.

(** Splitting at a character what was joined with it gives the pieces
    back, when no piece holds the character. *)
Lemma split_join_single (c : ascii) (l : list text) :
  l ≠ [] → Forall (fun p => c ∉ p) l →
  Py.split [c] (Py.join [c] l) = l.
Proof.
  intros Hne Hall. unfold Py.split.
  induction Hall as [|p l Hp Hall IH]; [done|].
  destruct l as [|q l].
  - simpl. by rewrite split_go_single.
  - rewrite join_cons by done. simpl app.
    rewrite split_go_single_sep by done. simpl. f_equal. by apply IH.
Qed.

Lemma replace_char_no (a b : ascii) (s : text) :
  a ≠ b → a ∉ replace_char a b s.
Proof.
  intros Hab Hin. unfold replace_char in Hin.
  apply list_elem_of_In, in_map_iff in Hin as (x & Hx & _).
  destruct (bool_decide_reflect (x = a)); congruence.
Qed.

Lemma replace_char_keeps_out (a b c : ascii) (s : text) :
  c ≠ b → c ∉ s → c ∉ replace_char a b s.
Proof.
  intros Hcb Hs Hin. unfold replace_char in Hin.
  apply list_elem_of_In, in_map_iff in Hin as (x & Hx & Hxs).
  destruct (bool_decide_reflect (x = a)); [congruence|].
  subst x. by apply Hs, list_elem_of_In.
Qed.

(** A question or response, once its commas and newlines are replaced,
    holds neither. *)
Lemma export_field_clean (s : text) :
  (","%char ∉ replace_char Chunker.newline " " (replace_char "," ";" s))
  ∧ (Chunker.newline
     ∉ replace_char Chunker.newline " " (replace_char "," ";" s)).
Proof.
  split.
  - apply replace_char_keeps_out; [done|]. by apply replace_char_no.
  - by apply replace_char_no.
Qed.

Lemma pretty_N_go_plain (P : ascii → Prop) (x : N) :
  (∀ d, P (pretty_N_char d)) →
  ∀ s, Forall P (list_ascii_of_string s) →
       Forall P (list_ascii_of_string (pretty_N_go x s)).
Proof.
  intros Hd. induction (N.lt_wf_0 x) as [x _ IH]; intros s Hs.
  assert (x = 0 ∨ 0 < x)%N as [->|Hx] by lia.
  - by rewrite pretty_N_go_0.
  - rewrite pretty_N_go_step by done. apply IH; [by apply N.div_lt|].
    simpl. by constructor.
Qed.

(** The decimal form of a number holds no comma and no newline. *)
Lemma pretty_nat_plain (n : nat) :
  Forall (fun c => c ≠ ","%char ∧ c ≠ Chunker.newline)
    (list_ascii_of_string (pretty n)).
Proof.
  unfold pretty, pretty_nat, pretty, pretty_N. case_decide.
  - by repeat constructor.
  - apply pretty_N_go_plain; [|constructor].
    intros d. unfold pretty_N_char. by repeat case_match.
Qed.

Lemma export_lines_fold (history : list Conversation) : ∀ lines,
  foldl (fun lines conv => lines ++ [export_line conv]) lines history
  = lines ++ (export_line <$> history).
Proof.
  induction history as [|conv history IH]; intros lines; simpl.
  - by rewrite app_nil_r.
  - by rewrite IH, <- app_assoc.
Qed.

Lemma export_line_no_newline (conv : Conversation) :
  Chunker.newline ∉ default [] (conv_timestamp conv) →
  Chunker.newline ∉ export_line conv.
Proof.
  intros Hts. unfold export_line.
  pose proof (pretty_nat_plain (length (default [] (conv_sources conv))))
    as Hdigits.
  rewrite Forall_forall in Hdigits.
  rewrite !elem_of_app.
  intros [H|[H|[H|[H|[H|[H|[H|H]]]]]]].
  - by apply list_elem_of_singleton in H.
  - done.
  - by repeat (apply elem_of_cons in H as [H|H]; [done|]);
      apply elem_of_nil in H.
  - by apply (export_field_clean (default [] (conv_question conv))).
  - by repeat (apply elem_of_cons in H as [H|H]; [done|]);
      apply elem_of_nil in H.
  - by apply (export_field_clean (default [] (conv_response conv))).
  - by repeat (apply elem_of_cons in H as [H|H]; [done|]);
      apply elem_of_nil in H.
  - by apply Hdigits in H as [_ H].
Qed.

Lemma count_occ_absent (c : ascii) (s : text) :
  c ∉ s → count_occ ascii_dec s c = 0%nat.
Proof.
  intros H. apply count_occ_not_In. by rewrite <- list_elem_of_In.
Qed.

(** The export of a non-empty history whose timestamps hold no newline
    splits at the newlines into the header and one line per
    conversation, in order; and a line whose timestamp holds no comma
    has exactly three commas, those between its four fields. *)
Theorem export_has_one_line_per_conversation
    (history : list Conversation) :
  (history ≠ [] →
   Forall (fun conv => Chunker.newline ∉ default [] (conv_timestamp conv))
     history →
   Py.split [Chunker.newline] (create_conversation_export history)
   = export_header :: (export_line <$> history))
  ∧ Forall (fun conv =>
              ","%char ∉ default [] (conv_timestamp conv) →
              count_occ ascii_dec (export_line conv) ","%char = 3%nat)
      history.
Proof.
  split.
  - intros Hne Hts. unfold create_conversation_export.
    destruct history as [|conv history]; [done|].
    rewrite export_lines_fold. apply split_join_single; [done|].
    constructor; [by vm_compute; intros H;
                  repeat (apply elem_of_cons in H as [H|H]; [done|]);
                  apply elem_of_nil in H|].
    apply Forall_fmap. eapply Forall_impl; [exact Hts|].
    intros c Hc. by apply export_line_no_newline.
  - apply Forall_forall. intros conv _ Hts. unfold export_line.
    pose proof (pretty_nat_plain (length (default [] (conv_sources conv))))
      as Hdigits.
    rewrite !count_occ_app.
    rewrite (count_occ_absent _ (default [] (conv_timestamp conv))) by done.
    rewrite (count_occ_absent _ (replace_char _ _ (replace_char _ _
               (default [] (conv_question conv)))))
      by apply export_field_clean.
    rewrite (count_occ_absent _ (replace_char _ _ (replace_char _ _
               (default [] (conv_response conv)))))
      by apply export_field_clean.
    rewrite (count_occ_absent _ (txt _)).
    + reflexivity.
    + intros H. rewrite Forall_forall in Hdigits.
      by apply Hdigits in H as [H _].
Qed.

Lemma export_has_one_line_per_conversation_witness :
  Py.split [Chunker.newline]
    (create_conversation_export [conversation_sample; conversation_sample])
  = export_header
    :: (export_line <$> [conversation_sample; conversation_sample])
  ∧ count_occ ascii_dec (export_line conversation_sample) ","%char = 3%nat.
Proof.
  destruct (export_has_one_line_per_conversation
              [conversation_sample; conversation_sample]) as [Hlines Hcommas].
  split.
  - apply Hlines; [discriminate|].
    repeat constructor; intros H;
      by repeat (apply elem_of_cons in H as [H|H]; [discriminate H|]);
        apply elem_of_nil in H.
  - apply Forall_inv in Hcommas. apply Hcommas. intros H.
    by repeat (apply elem_of_cons in H as [H|H]; [discriminate H|]);
      apply elem_of_nil in H.
Defined.

Ltac Qcases :=
  repeat match goal with
         | |- context [Qle_bool ?a ?b] =>
             let H := fresh "Hq" in
             destruct (Qle_bool a b) eqn:H;
             [apply Qle_bool_iff in H|apply Qle_bool_false in H]
         end.

(** A higher relevance score and a shorter response time never give a
    lower quality. *)
Theorem response_quality_monotone (r1 r2 t1 t2 : Q) :
  (r1 <= r2)%Q → (t2 <= t1)%Q →
  (quality_rank (get_response_quality r1 t1)
   ≤ quality_rank (get_response_quality r2 t2))%nat.
Proof.
  intros Hr Ht. unfold get_response_quality.
  Qcases; cbn [andb negb]; try (vm_compute; lia); exfalso; lra.
Qed.

(** The quality and the colour of a score agree: an "Excellent" answer
    has the green colour, a "Good" one is green or yellow, and a score
    shown in red is at best "Fair". *)
Theorem quality_agrees_with_colour (score response_time : Q) :
  let quality := get_response_quality score response_time in
  let colour := calculate_relevance_color score in
  (quality = txt "Excellent" → colour = txt "#28a745")
  ∧ (quality = txt "Good" →
     colour = txt "#28a745" ∨ colour = txt "#ffc107")
  ∧ (colour = txt "#dc3545" →
     quality = txt "Fair" ∨ quality = txt "Poor").
Proof.
  unfold get_response_quality, calculate_relevance_color.
  Qcases; cbn [andb negb]; (split; [|split]); intros H;
    try (by vm_compute in H); try (by left); try (by right).
Qed.

End HelpersFacts.

Lemma response_quality_monotone_witness :
  (quality_rank (Helpers.get_response_quality (5 # 10) 4)
   ≤ quality_rank (Helpers.get_response_quality (7 # 10) 2))%nat.
Proof.
  apply (response_quality_monotone (5 # 10) (7 # 10) 4 2).
  - vm_compute. discriminate.
  - vm_compute. discriminate.
Defined.

(** * Properties of the scraper *)

Section ScraperFacts.

Import Scraper.

Lemma important_keywords_NoDup : NoDup important_keywords.
Proof. apply (bool_decide_unpack _). vm_compute. exact I. Qed.

Lemma filter_NoDup {A} (p : A → bool) (l : list A) :
  NoDup l → NoDup (List.filter p l).
Proof.
  intros H. eapply sublist_NoDup; [done|apply filter_sublist].
Qed.

(** Whatever the order in which the set of keywords is iterated,
    [extract_keywords] returns at most 10 keywords, without repetition,
    each one a keyword of the set that occurs in the lower-cased title and
    content; and when no more than 10 keywords occur, it returns all that
    do. *)
Theorem extract_keywords_found (order : list text) (title content : text) :
  order ≡ₚ important_keywords →
  let found := extract_keywords order title content in
  let full_text := lower (title ++ txt " " ++ content) in
  (length found ≤ 10)%nat
  ∧ NoDup found
  ∧ (∀ k, k ∈ found →
          k ∈ important_keywords ∧ contains k full_text = true)
  ∧ ((length (List.filter (fun k => contains k full_text)
                important_keywords) ≤ 10)%nat →
     ∀ k, k ∈ important_keywords → contains k full_text = true →
          k ∈ found).
Proof.
  intros Hperm found full_text. unfold found, extract_keywords.
  fold full_text.
  set (hits := List.filter (fun k => contains k full_text) order).
  assert (NoDup order) as Hnd
    by (rewrite Hperm; apply important_keywords_NoDup).
  split; [rewrite length_take; lia|].
  split; [eapply sublist_NoDup; [|apply sublist_take];
          by apply filter_NoDup|].
  split.
  - intros k Hk.
    assert (k ∈ hits) as Hin by (eapply elem_of_sublist;
                                   [done|apply sublist_take]).
    apply list_elem_of_In, filter_In in Hin as [Hin Hc].
    split; [|done]. rewrite <- Hperm. by apply list_elem_of_In.
  - intros Hfew k Hk Hc.
    assert (length hits ≤ 10)%nat as Hlen.
    { assert (hits ≡ₚ List.filter (fun k => contains k full_text)
                        important_keywords) as ->; [|done].
      unfold hits. clear -Hperm.
      induction Hperm as [|x l l' _ IH|x y l|l l' l'' _ IH1 _ IH2]; simpl.
      - done.
      - destruct (contains x full_text); [by constructor|done].
      - destruct (contains x full_text), (contains y full_text);
          try done. apply perm_swap.
      - by etrans. }
    rewrite take_ge by done.
    apply list_elem_of_In, filter_In. split; [|done].
    apply list_elem_of_In. by rewrite Hperm.
Qed.

Lemma extract_keywords_found_witness :
  (length (extract_keywords (reverse important_keywords)
             (txt "Fees and Charges")
             (txt "Jupiter savings ACCOUNT fees")) ≤ 10)%nat
  ∧ NoDup (extract_keywords (reverse important_keywords)
             (txt "Fees and Charges")
             (txt "Jupiter savings ACCOUNT fees"))
  ∧ (∀ k, k ∈ extract_keywords (reverse important_keywords)
                (txt "Fees and Charges")
                (txt "Jupiter savings ACCOUNT fees") →
          k ∈ important_keywords
          ∧ contains k (lower (txt "Fees and Charges" ++ txt " "
                               ++ txt "Jupiter savings ACCOUNT fees"))
            = true)
  ∧ txt "account" ∈ extract_keywords (reverse important_keywords)
                      (txt "Fees and Charges")
                      (txt "Jupiter savings ACCOUNT fees").
Proof.
  destruct (extract_keywords_found (reverse important_keywords)
              (txt "Fees and Charges") (txt "Jupiter savings ACCOUNT fees")
              (reverse_Permutation _))
    as (Hlen & Hnd & Hin & Hall).
  split; [exact Hlen|]. split; [exact Hnd|]. split; [exact Hin|].
  apply Hall.
  - vm_compute. lia.
  - vm_compute. apply list_elem_of_here.
  - vm_compute. reflexivity.
Defined.

Lemma startswith_prefix (p rest : text) : Py.startswith p (p ++ rest) = true.
Proof.
  induction p as [|a p IH]; [done|]. simpl.
  rewrite bool_decide_eq_true_2 by done. exact IH.
Qed.

Lemma contains_infix (p s : text) :
  contains p s = true ↔ ∃ a b, s = a ++ p ++ b.
Proof.
  split.
  - induction s as [|c s IH]; simpl.
    + intros [rest ->]%startswith_app. by exists [], rest.
    + intros [H|H]%orb_true_iff.
      * apply startswith_app in H as [rest ->]. by exists [], rest.
      * destruct (IH H) as (a & b & ->). by exists (c :: a), b.
  - intros (a & b & ->). induction a as [|c a IH].
    + cbn [app]. pose proof (startswith_prefix p b) as Hst.
      destruct (p ++ b) eqn:E; cbn [contains]; by rewrite Hst.
    + cbn [app contains]. by rewrite IH, orb_true_r.
Qed.

Lemma contains_extend (p s before after : text) :
  contains p s = true → contains p (before ++ s ++ after) = true.
Proof.
  intros (a & b & ->)%contains_infix. apply contains_infix.
  exists (before ++ a), (b ++ after). by rewrite <- !app_assoc.
Qed.

Lemma lower_app (a b : text) : lower (a ++ b) = lower a ++ lower b.
Proof. apply map_app. Qed.

Lemma category_general_iff (url title content : text) :
  determine_content_category url title content = txt "general"
  ↔ ∀ entry, entry ∈ url_categories →
       ∀ pattern, pattern ∈ entry.2 →
         contains pattern (lower url) = false.
Proof.
  unfold determine_content_category.
  destruct (List.find _ url_categories) as [entry|] eqn:Hf.
  - apply find_some in Hf as [Hin Hex]. split.
    + intros Hname. exfalso. revert Hname. clear Hex.
      apply list_elem_of_In in Hin.
      repeat (apply elem_of_cons in Hin as [->|Hin]; [by vm_compute|]).
      by apply elem_of_nil in Hin.
    + intros Hnone. apply existsb_exists in Hex as (p & Hp & Hc).
      rewrite (Hnone entry) in Hc; [done| |]; by apply list_elem_of_In.
  - split; [|done]. intros _ entry Hin pattern Hp.
    pose proof (find_none _ _ Hf entry) as Hno.
    destruct (contains pattern (lower url)) eqn:Hc; [|done].
    rewrite <- Hno; [|by apply list_elem_of_In].
    symmetry. apply existsb_exists. exists pattern.
    split; [by apply list_elem_of_In|done].
Qed.

(** The category of a page depends on its url alone.  It is "general"
    exactly when no pattern of the table occurs in the lower-cased url;
    a url that holds "/faq", "/help" or "/support" is "faq" whatever else
    it holds; and a url that has a category other than "general" keeps
    one when it is extended on either side. *)
Theorem category_of_url (url title content : text) :
  let category := determine_content_category url title content in
  category ∈ txt "general" :: url_categories.*1
  ∧ (category = txt "general"
     ↔ ∀ entry, entry ∈ url_categories →
         ∀ pattern, pattern ∈ entry.2 →
           contains pattern (lower url) = false)
  ∧ ((∃ pattern, pattern ∈ [txt "/faq"; txt "/help"; txt "/support"]
                 ∧ contains pattern (lower url) = true) →
     category = txt "faq")
  ∧ (category ≠ txt "general" →
     ∀ before after title' content',
       determine_content_category (before ++ url ++ after) title' content'
       ≠ txt "general").
Proof.
  intros category. split; [|split; [|split]].
  - unfold category, determine_content_category.
    destruct (List.find _ url_categories) as [entry|] eqn:Hf.
    + apply find_some in Hf as [Hin _]. apply elem_of_cons. right.
      apply list_elem_of_fmap. exists entry.
      split; [done|by apply list_elem_of_In].
    + apply list_elem_of_here.
  - apply category_general_iff.
  - intros (pattern & Hp & Hc). unfold category, determine_content_category.
    unfold url_categories. cbn [List.find snd].
    assert (existsb (λ pattern, contains pattern (lower url))
              [txt "/faq"; txt "/help"; txt "/support"] = true) as ->; [|done].
    apply existsb_exists. exists pattern.
    split; [by apply list_elem_of_In|done].
  - intros Hcat before after title' content' Hgen. apply Hcat.
    apply category_general_iff. intros entry Hin pattern Hp.
    destruct (contains pattern (lower url)) eqn:Hc; [|done].
    rewrite category_general_iff in Hgen.
    rewrite <- (Hgen entry Hin pattern Hp).
    rewrite !lower_app. symmetry. by apply contains_extend.
Qed.

Section Links.

Variable netloc : text → option text.
Variable urljoin : text → text → text.

Abbreviation valid := (is_valid_jupiter_url netloc).

Lemma size_add_one (x : text) (links : gset text) :
  (size ({[x]} ∪ links) ≤ S (size links))%nat.
Proof.
  destruct (decide (x ∈ links)).
  - rewrite (subseteq_union_1_L {[x]} links); [lia|].
    by apply singleton_subseteq_l.
  - rewrite size_union by (by apply disjoint_singleton_l).
    rewrite size_singleton. lia.
Qed.

Lemma visit_link_spec (url : text) (scraped : gset text) (max_links : nat)
    (links : gset text) (a : Anchor) :
  let links' := visit_link netloc urljoin url scraped max_links links a in
  links ⊆ links'
  ∧ (size links' ≤ S (size links))%nat
  ∧ (∀ u, u ∈ links' →
          u ∈ links
          ∨ (u = urljoin url (href a) ∧ valid u = true ∧ u ∉ scraped))
  ∧ (valid (urljoin url (href a)) = true →
     urljoin url (href a) ∉ scraped →
     priority_link urljoin url a = true →
     urljoin url (href a) ∈ links').
Proof.
  unfold visit_link, priority_link.
  set (full := urljoin url (href a)).
  destruct (valid full) eqn:Hv; cbn [andb negb].
  2: { split; [done|]. split; [lia|]. split; [by left|done]. }
  destruct (bool_decide (full ∈ scraped)) eqn:Hs; cbn [negb].
  { apply bool_decide_eq_true in Hs.
    split; [done|]. split; [lia|]. split; [by left|done]. }
  apply bool_decide_eq_false in Hs.
  destruct (existsb _ priority_patterns) eqn:Hp; cbn [orb].
  - split; [set_solver|]. split; [apply size_add_one|].
    split; [|set_solver].
    intros u [->%elem_of_singleton|Hu]%elem_of_union; [by right|by left].
  - destruct (size links <? max_links / 2)%nat.
    + split; [set_solver|]. split; [apply size_add_one|].
      split; [|done].
      intros u [->%elem_of_singleton|Hu]%elem_of_union; [by right|by left].
    + split; [done|]. split; [lia|]. split; [by left|done].
Qed.

Lemma links_loop_spec (url : text) (scraped : gset text) (max_links : nat)
    (anchors : list Anchor) (links : gset text) :
  (size links ≤ max_links)%nat →
  let found := links_loop netloc urljoin url scraped max_links anchors links in
  links ⊆ found
  ∧ (size found ≤ max_links)%nat
  ∧ (∀ u, u ∈ found →
          u ∈ links
          ∨ ∃ a, a ∈ anchors ∧ u = urljoin url (href a)
                 ∧ valid u = true ∧ u ∉ scraped)
  ∧ ((size found < max_links)%nat →
     ∀ a, a ∈ anchors →
          valid (urljoin url (href a)) = true →
          urljoin url (href a) ∉ scraped →
          priority_link urljoin url a = true →
          urljoin url (href a) ∈ found).
Proof.
  revert links. induction anchors as [|link rest IH]; intros links Hsize.
  - cbn. split; [done|]. split; [done|]. split; [by left|].
    intros _ a Ha. by apply elem_of_nil in Ha.
  - cbn [links_loop]. destruct (max_links <=? size links)%nat eqn:Hfull.
    + apply Nat.leb_le in Hfull. cbn.
      split; [done|]. split; [done|]. split; [by left|]. lia.
    + apply Nat.leb_gt in Hfull.
      destruct (visit_link_spec url scraped max_links links link)
        as (Hsub & Hsz & Hfrom & Hprio).
      destruct (IH (visit_link netloc urljoin url scraped max_links links
                      link) ltac:(lia))
        as (Hsub' & Hsz' & Hfrom' & Hprio').
      cbn zeta in *.
      split; [by etrans|]. split; [done|]. split.
      * intros u Hu. destruct (Hfrom' u Hu) as [Hin|(a & Ha & Hrest)].
        -- destruct (Hfrom u Hin) as [?|(-> & ? & ?)]; [by left|].
           right. exists link. split; [apply list_elem_of_here|done].
        -- right. exists a. split; [by apply list_elem_of_further|done].
      * intros Hroom a [->|Ha]%elem_of_cons Hv Hs Hp.
        -- apply Hsub'. by apply Hprio.
        -- by apply Hprio'.
Qed.

(** [find_internal_links] returns at most [max_links] urls, without
    repetition; each is the target of one of the anchors of the page,
    passes [is_valid_jupiter_url] and was not scraped before. *)
Theorem find_internal_links_sound (url : text) (scraped : gset text)
    (anchors : list Anchor) (max_links : nat) :
  let links := find_internal_links netloc urljoin url scraped anchors
                 max_links in
  (length links ≤ max_links)%nat
  ∧ NoDup links
  ∧ ∀ u, u ∈ links →
         valid u = true ∧ (u ∉ scraped)
         ∧ ∃ a, (a ∈ anchors) ∧ u = urljoin url (href a).
Proof.
  unfold find_internal_links.
  destruct (links_loop_spec url scraped max_links anchors ∅)
    as (_ & Hsz & Hfrom & _); [rewrite size_empty; lia|].
  cbn zeta in *. split; [exact Hsz|]. split; [apply NoDup_elements|].
  intros u Hu%elem_of_elements.
  destruct (Hfrom u Hu) as [Hin|(a & Ha & -> & Hv & Hs)]; [set_solver|].
  split; [done|]. split; [done|]. by exists a.
Qed.

(** When [find_internal_links] returns fewer than [max_links] urls, it
    has kept every priority link of the page whose target is valid and
    was not scraped before: only links without a priority pattern are
    given up once half of the places are taken. *)
Theorem find_internal_links_keeps_priority (url : text)
    (scraped : gset text) (anchors : list Anchor) (max_links : nat)
    (a : Anchor) :
  (length (find_internal_links netloc urljoin url scraped anchors max_links)
   < max_links)%nat →
  a ∈ anchors →
  valid (urljoin url (href a)) = true →
  urljoin url (href a) ∉ scraped →
  priority_link urljoin url a = true →
  urljoin url (href a)
  ∈ find_internal_links netloc urljoin url scraped anchors max_links.
Proof.
  unfold find_internal_links. intros Hroom Ha Hv Hs Hp.
  destruct (links_loop_spec url scraped max_links anchors ∅)
    as (_ & _ & _ & Hprio); [rewrite size_empty; lia|].
  apply elem_of_elements. by apply Hprio.
Qed.

End Links.

Section Crawl.

Variable netloc : text → option text.
Variable urljoin : text → text → text.
Variable scrape_single_page : text → option PageData.
Variable fetch_anchors : text → option (list Anchor).

Abbreviation valid := (is_valid_jupiter_url netloc).

Abbreviation crawl_ :=
  (crawl netloc urljoin scrape_single_page fetch_anchors).

Lemma new_links_spec (url : text) (seen : gset text) (successful : nat) :
  let new_links :=
    if (S successful <=? 6)%nat then
      match fetch_anchors url with
      | Some anchors => find_internal_links netloc urljoin url seen anchors 8
      | None => []
      end
    else [] in
  (length new_links + 8 * (6 - S successful) ≤ 8 * (6 - successful))%nat
  ∧ ∀ u, u ∈ new_links → valid u = true.
Proof.
  cbn zeta. destruct (S successful <=? 6)%nat eqn:Hle.
  - apply Nat.leb_le in Hle. destruct (fetch_anchors url) as [anchors|].
    + unfold find_internal_links.
      destruct (links_loop_spec netloc urljoin url seen 8 anchors ∅)
        as (_ & Hsz & Hfrom & _); [rewrite size_empty; lia|].
      cbn zeta in *.
      pose proof (Hsz : (length (elements _) ≤ 8)%nat) as Hlen.
      split; [lia|]. intros u Hu%elem_of_elements.
      destruct (Hfrom u Hu) as [Hin|(a & _ & _ & Hv & _)]; [|done].
      by apply elem_of_empty in Hin.
    + split; [simpl; lia|]. intros u Hu. by apply elem_of_nil in Hu.
  - apply Nat.leb_gt in Hle.
    split; [simpl; lia|]. intros u Hu. by apply elem_of_nil in Hu.
Qed.

Lemma crawl_total (max_pages fuel : nat) (st : CrawlState) :
  (length (urls_to_scrape st) + 8 * (6 - successful_scrapes st) < fuel)%nat →
  is_Some (crawl_ max_pages fuel st).
Proof.
  revert st. induction fuel as [|fuel IH]; intros st Hm; [lia|].
  cbn [crawl]. destruct (urls_to_scrape st) as [|url rest] eqn:Hq; [done|].
  destruct (max_pages <=? pages_scraped st)%nat; [done|].
  cbn [length] in Hm.
  destruct (bool_decide (url ∈ scraped_urls st)).
  { apply IH. cbn. lia. }
  destruct (scrape_single_page url) as [page_data|].
  2: { apply IH. cbn. lia. }
  apply IH. cbn [urls_to_scrape successful_scrapes].
  rewrite length_app.
  destruct (new_links_spec url ({[url]} ∪ scraped_urls st)
              (successful_scrapes st)) as [Hlen _].
  cbn zeta in Hlen. lia.
Qed.

Lemma crawl_keeps_invariant (max_pages fuel : nat) (st st' : CrawlState) :
  crawl_invariant netloc max_pages st →
  crawl_ max_pages fuel st = Some st' →
  crawl_invariant netloc max_pages st'
  ∧ (urls_to_scrape st' = [] ∨ pages_scraped st' = max_pages).
Proof.
  revert st. induction fuel as [|fuel IH]; intros st Hinv Hrun; [done|].
  cbn [crawl] in Hrun.
  destruct (urls_to_scrape st) as [|url rest] eqn:Hq.
  { injection Hrun as <-. split; [done|by left]. }
  destruct (max_pages <=? pages_scraped st)%nat eqn:Hmax.
  { injection Hrun as <-. apply Nat.leb_le in Hmax.
    split; [done|]. right. destruct Hinv as (Hp & _). lia. }
  apply Nat.leb_gt in Hmax.
  destruct Hinv as (Hp & Hs & Hlen & Hsize & Hnd & Hdata & Hqueue & Hseen).
  rewrite Hq in Hqueue.
  destruct (bool_decide (url ∈ scraped_urls st)) eqn:Hin.
  { eapply IH; [|exact Hrun]. unfold crawl_invariant. cbn.
    split; [done|]. split; [done|]. split; [done|]. split; [done|].
    split; [done|]. split; [done|]. split; [|done].
    intros u Hu. apply Hqueue. by apply list_elem_of_further. }
  apply bool_decide_eq_false in Hin.
  assert (size ({[url]} ∪ scraped_urls st) = S (pages_scraped st)) as Hsize'.
  { rewrite size_union by (by apply disjoint_singleton_l).
    rewrite size_singleton. lia. }
  assert (∀ u, u ∈ {[url]} ∪ scraped_urls st →
               u ∈ start_urls ∨ valid u = true) as Hseen'.
  { intros u [->%elem_of_singleton|Hu]%elem_of_union; [|by apply Hseen].
    apply Hqueue, list_elem_of_here. }
  destruct (scrape_single_page url) as [page_data|].
  - eapply IH; [|exact Hrun]. unfold crawl_invariant.
    cbn [urls_to_scrape scraped_urls scraped_data pages_scraped
         successful_scrapes].
    destruct (new_links_spec url ({[url]} ∪ scraped_urls st)
                (successful_scrapes st)) as [_ Hnew].
    cbn zeta in Hnew.
    split; [lia|]. split; [lia|].
    split; [rewrite length_app; simpl; lia|]. split; [done|].
    rewrite fmap_app. cbn [fmap list_fmap fst].
    split.
    { apply NoDup_app. split; [done|]. split; [|apply NoDup_singleton].
      intros u Hu ->%list_elem_of_singleton. by apply Hin, Hdata. }
    split.
    { intros u [Hu| ->%list_elem_of_singleton]%elem_of_app;
        [apply elem_of_union_r; by apply Hdata
        |by apply elem_of_union_l, elem_of_singleton]. }
    split; [|done].
    intros u [Hu|Hu]%elem_of_app.
    + apply Hqueue. by apply list_elem_of_further.
    + right. by apply Hnew.
  - eapply IH; [|exact Hrun]. unfold crawl_invariant. cbn.
    split; [lia|]. split; [lia|]. split; [done|]. split; [done|].
    split; [done|].
    split; [intros u Hu; apply elem_of_union_r; by apply Hdata|].
    split; [|done].
    intros u Hu. apply Hqueue. by apply list_elem_of_further.
Qed.

Lemma crawl_start_invariant (max_pages : nat) :
  crawl_invariant netloc max_pages crawl_start.
Proof.
  unfold crawl_invariant. cbn.
  split; [lia|]. split; [lia|]. split; [done|]. split; [apply size_empty|].
  split; [apply NoDup_nil_2|]. split; [intros u Hu; by apply elem_of_nil in Hu|].
  split; [by left|]. intros u Hu. set_solver.
Qed.

Lemma scrape_jupiter_website_runs (max_pages : nat) :
  ∃ st,
    scrape_jupiter_website netloc urljoin scrape_single_page fetch_anchors
      max_pages = Some st
    ∧ crawl_invariant netloc max_pages st
    ∧ (urls_to_scrape st = [] ∨ pages_scraped st = max_pages).
Proof.
  unfold scrape_jupiter_website.
  destruct (crawl_total max_pages (S (length start_urls + 8 * 6))
              crawl_start) as [st Hst]; [cbn; lia|].
  exists st. split; [done|].
  exact (crawl_keeps_invariant _ _ _ _ (crawl_start_invariant max_pages) Hst).
Qed.



End Crawl.

End ScraperFacts.

Lemma find_internal_links_keeps_priority_witness :
  txt "https://jupiter.money/help"
  ∈ Scraper.find_internal_links sample_netloc sample_urljoin
      (txt "https://jupiter.money") ∅ sample_links 8.
Proof.
  apply (find_internal_links_keeps_priority sample_netloc sample_urljoin
           (txt "https://jupiter.money") ∅ sample_links 8 help_link).
  - vm_compute. lia.
  - apply list_elem_of_here.
  - vm_compute. reflexivity.
  - apply not_elem_of_empty.
  - vm_compute. reflexivity.
Defined.
